(** * PY_Schelling: the grid, the tile store and the step algorithm

    A shallow embedding of [grid_models.py], [tile_model.py] and
    [world_model.py].

    - Python integers are [Z]; [Row] and [Column] are plain [int] subclasses.
    - [Tile] objects are mutable and shared: the same object sits in
      [tiles_dict], in the movement matrix and in the list handed to
      [switch_tiles].  Objects therefore live in a heap indexed by
      references, every field read goes through the heap and every
      assignment is a heap update.
    - A Python [dict] keeps insertion order; it is an association list
      here, because [run_step] iterates over it.
    - Exceptions are an explicit [result] type.
    - The scores are quotients of two small integers.  They are kept as
      exact rationals ([Q]); the only things the code does with them are
      the comparisons [<], [>] and [==], and correctly rounded division
      of integers of this size preserves all three. *)

From Stdlib Require Import ZArith QArith List Bool Lia Permutation Arith.
Import ListNotations.

Open Scope Z_scope.

(** ** Exceptions *)

Inductive error : Type :=
| ZeroDivisionError
| KeyError
| ValueError.

Inductive result (A : Type) : Type :=
| Ok (a : A)
| Raise (e : error).

Arguments Ok {A} a.
Arguments Raise {A} e.

Definition bind {A B : Type} (m : result A) (f : A -> result B) : result B :=
  match m with
  | Ok a => f a
  | Raise e => Raise e
  end.

Notation "x <- m ;; k" := (bind m (fun x => k))
  (at level 61, m at next level, right associativity).

Fixpoint mapM {A B : Type} (f : A -> result B) (l : list A) : result (list B) :=
  match l with
  | [] => Ok []
  | x :: l' =>
      y <- f x ;;
      ys <- mapM f l' ;;
      Ok (y :: ys)
  end.

(** ** grid_models.py *)

Module Grid.

Record GridLocation : Type := _new_gl { row : Z; col : Z }.

(** [GridLocation.__eq__] *)
Definition GridLocation_eqb (a b : GridLocation) : bool :=
  (row a =? row b) && (col a =? col b).

Record BaseGridSystem : Type := {
  rows : Z;
  cols : Z;
  center_on_origin : bool
}.

(** Python's [range(lo, hi)]. *)
Definition range (lo hi : Z) : list Z :=
  map (fun i => lo + Z.of_nat i) (seq 0 (Z.to_nat (hi - lo))).

Definition indices (g : BaseGridSystem) : list (Z * Z) :=
  if center_on_origin g then
    flat_map (fun r => map (fun c => (r, c)) (range (- cols g) (cols g + 1)))
             (range (- rows g) (rows g + 1))
  else
    flat_map (fun r => map (fun c => (r, c)) (range 0 (cols g)))
             (range 0 (rows g)).

Definition _is_within_bounds (g : BaseGridSystem) (grid_loc : GridLocation) : bool :=
  let top_bound := cols g in
  let bottom_bound := if center_on_origin g then - cols g else 0 in
  let left_bound := if center_on_origin g then - rows g else 0 in
  let right_bound := rows g in
  ((left_bound <=? col grid_loc) && (col grid_loc <=? right_bound)) &&
  ((top_bound >=? row grid_loc) && (row grid_loc >=? bottom_bound)).

(** The list comprehension shared by both topologies. *)
Definition neighbours_of (directions : list (Z * Z))
           (g : BaseGridSystem) (grid_loc : GridLocation) : list GridLocation :=
  map (fun d => _new_gl (row grid_loc + fst d) (col grid_loc + snd d))
      (filter (fun d => _is_within_bounds g
                          (_new_gl (row grid_loc + fst d) (col grid_loc + snd d)))
              directions).

Definition octagonal_directions : list (Z * Z) :=
  [(1, 0); (1, 1); (0, 1); (-1, 1); (-1, 0); (-1, -1); (0, -1); (1, -1)].

Definition hhexagonal_directions : list (Z * Z) :=
  [(0, 1); (1, 1); (1, 0); (0, -1); (-1, 0); (-1, 1)].

(** [OctagonalGridSystem.neighbours] *)
Definition neighbours : BaseGridSystem -> GridLocation -> list GridLocation :=
  neighbours_of octagonal_directions.

(** [HHexagonalGridSystem.neighbours] *)
Definition hhex_neighbours : BaseGridSystem -> GridLocation -> list GridLocation :=
  neighbours_of hhexagonal_directions.

(** The ranges the constructor's docstring and [indices] give to a grid:
    rows against [rows], columns against [cols], the upper end excluded
    when the grid is not centred. *)
Definition in_configured_ranges (g : BaseGridSystem) (l : GridLocation) : bool :=
  if center_on_origin g then
    ((- rows g <=? row l) && (row l <=? rows g)) &&
    ((- cols g <=? col l) && (col l <=? cols g))
  else
    ((0 <=? row l) && (row l <? rows g)) &&
    ((0 <=? col l) && (col l <? cols g)).

End Grid.
Import Grid.

(** ** Python containers *)

(** [filter(None, l)] on a list of optional objects: [None] is dropped.
    A [Tile] defines neither [__bool__] nor [__len__], so every tile is
    truthy and kept. *)
Fixpoint filter_none {A : Type} (l : list (option A)) : list A :=
  match l with
  | [] => []
  | Some a :: l' => a :: filter_none l'
  | None :: l' => filter_none l'
  end.

Section Dict.
Context {K V : Type}.
(** [same_key k' k]: the stored key [k'] is the one a lookup of [k]
    finds, that is, the hashes agree and [k' == k]. *)
Variable same_key : K -> K -> bool.

Fixpoint dict_get (d : list (K * V)) (k : K) : option V :=
  match d with
  | [] => None
  | (k', v) :: d' => if same_key k' k then Some v else dict_get d' k
  end.

(** [d[k] = v]: an entry whose key matches keeps its place and its key
    object, a new key goes to the end. *)
Fixpoint dict_set (d : list (K * V)) (k : K) (v : V) : list (K * V) :=
  match d with
  | [] => [(k, v)]
  | (k', v') :: d' =>
      if same_key k' k then (k', v) :: d' else (k', v') :: dict_set d' k v
  end.

Definition dict_values (d : list (K * V)) : list V := map snd d.
Definition dict_keys (d : list (K * V)) : list K := map fst d.

(** A lookup of [k] matches a stored key only when it is [k] itself. *)
Definition told_apart (d : list (K * V)) (k : K) : Prop :=
  forall k', In k' (dict_keys d) -> same_key k' k = true <-> k' = k.
End Dict.

(** ** tile_model.py *)

Module Tiles.

Inductive TileType : Type := Empty | Green | Blue.

Definition TileType_eqb (a b : TileType) : bool :=
  match a, b with
  | Empty, Empty | Green, Green | Blue, Blue => true
  | _, _ => false
  end.

Record Tile : Type := {
  tile_type : TileType;
  tile_position : GridLocation;
  tile_id : Z
}.

(** [Tile.__eq__] *)
Definition Tile_eq (a b : Tile) : bool := tile_id a =? tile_id b.

(** Tile objects: a reference names an object, the heap gives its
    current fields. *)
Definition ref : Type := nat.
Definition Heap : Type := ref -> Tile.

Definition heap_of_list (ts : list Tile) : Heap :=
  fun r => nth r ts {| tile_type := Empty; tile_position := _new_gl 0 0; tile_id := 0 |}.

(** [t.tile_type = v] *)
Definition set_tile_type (h : Heap) (t : ref) (v : TileType) : Heap :=
  fun r => if Nat.eqb r t
           then {| tile_type := v;
                   tile_position := tile_position (h t);
                   tile_id := tile_id (h t) |}
           else h r.

(** [t.tile_id = v] *)
Definition set_tile_id (h : Heap) (t : ref) (v : Z) : Heap :=
  fun r => if Nat.eqb r t
           then {| tile_type := tile_type (h t);
                   tile_position := tile_position (h t);
                   tile_id := v |}
           else h r.

(** [x in l] for a list of tiles: [==] on the objects. *)
Definition tile_in (h : Heap) (x : ref) (l : list ref) : bool :=
  existsb (fun e => Tile_eq (h e) (h x)) l.

Record TileSystem : Type := { tiles_dict : list (GridLocation * ref) }.

(** [GridLocation] hashes the very pair it compares, so a lookup in
    [tiles_dict] finds the entry whose key is equal. *)
Definition TileSystem_init (h : Heap) (tiles : list ref) : TileSystem :=
  {| tiles_dict :=
       fold_left (fun d t => dict_set GridLocation_eqb d (tile_position (h t)) t)
                 tiles [] |}.

Definition tile_at_loc (ts : TileSystem) (loc : GridLocation) : option ref :=
  dict_get GridLocation_eqb (tiles_dict ts) loc.

Definition tile_by_id (h : Heap) (ts : TileSystem) (id : Z) : option ref :=
  find (fun tile => tile_id (h tile) =? id) (dict_values (tiles_dict ts)).

(** The two tuple assignments: the right-hand side is read first, then
    the targets are written from left to right. *)
Definition switch_tiles (h : Heap) (t1 t2 : ref) : Heap :=
  let ty2 := tile_type (h t2) in
  let ty1 := tile_type (h t1) in
  let h1 := set_tile_type h t1 ty2 in
  let h2 := set_tile_type h1 t2 ty1 in
  let id2 := tile_id (h2 t2) in
  let id1 := tile_id (h2 t1) in
  let h3 := set_tile_id h2 t1 id2 in
  set_tile_id h3 t2 id1.

Section Hashing.
(** The built-in [hash] on a pair of integers. *)
Variable py_hash : Z * Z -> Z.

(** [GridLocation.__hash__] *)
Definition GridLocation_hash (l : GridLocation) : Z := py_hash (row l, col l).

(** [Tile.__hash__] *)
Definition Tile_hash (t : Tile) : Z := GridLocation_hash (tile_position t).

(** A dictionary keyed by tiles finds a stored key when the hashes
    agree and the objects compare equal. *)
Definition same_tile_key (h : Heap) (k' k : ref) : bool :=
  (Tile_hash (h k') =? Tile_hash (h k)) && Tile_eq (h k') (h k).
End Hashing.

(** *** RandomTileTypeGenerator *)

Definition Qsum (l : list Q) : Q := fold_left Qplus l 0%Q.

(** [v / norm] on integers. *)
Definition true_div (v norm : Z) : result Q :=
  if norm =? 0 then Raise ZeroDivisionError
  else Ok (inject_Z v / inject_Z norm)%Q.

(** [sorted(items, key=itemgetter(1))]: stable, ascending. *)
Fixpoint insert_by_snd {A : Type} (x : A * Q) (l : list (A * Q)) : list (A * Q) :=
  match l with
  | [] => [x]
  | y :: l' => if Qle_bool (snd x) (snd y) then x :: y :: l'
               else y :: insert_by_snd x l'
  end.

Definition sorted_by_snd {A : Type} (l : list (A * Q)) : list (A * Q) :=
  fold_right insert_by_snd [] l.

(** The probabilities are floats in the source and exact rationals
    here; whether the function raises depends on the integer [norm]
    alone. *)
Definition _norm_weight_prob (type_weight_dict : list (TileType * Z))
  : result (list (TileType * (Q * Q))) :=
  let norm := fold_left Z.add (dict_values type_weight_dict) 0 in
  dct <- fold_left
           (fun acc tv =>
              d <- acc ;;
              p <- true_div (snd tv) norm ;;
              Ok (dict_set TileType_eqb d (fst tv) p))
           type_weight_dict (Ok []) ;;
  let sorted_t_list := sorted_by_snd dct in
  let prob_list := map snd sorted_t_list in
  let range_list := map (fun i => firstn i prob_list) (seq 0 (length prob_list)) in
  let markers := map Qsum range_list ++ [1%Q] in
  let ranges := combine markers (tl markers) in
  Ok (fold_left
        (fun d i => dict_set TileType_eqb d
                      (fst (nth i sorted_t_list (Empty, 0%Q)))
                      (nth i ranges (0%Q, 0%Q)))
        (seq 0 (length dct)) []).

Record RandomTileTypeGenerator : Type := {
  type_weight_dict : list (TileType * Z);
  type_prob : list (TileType * (Q * Q))
}.

Definition RandomTileTypeGenerator_init (twd : list (TileType * Z))
  : result RandomTileTypeGenerator :=
  tp <- _norm_weight_prob twd ;;
  Ok {| type_weight_dict := twd; type_prob := tp |}.

(** [r] is the value [random.random()] returned. *)
Definition get_random_tile (g : RandomTileTypeGenerator) (r : Q) : TileType :=
  match find (fun e => Qle_bool (fst (snd e)) r && Qle_bool r (snd (snd e)))
             (type_prob g) with
  | Some e => fst e
  | None => Empty
  end.

End Tiles.
Import Tiles.

(** ** world_model.py *)

Module Worlds.

Record World : Type := {
  grid : BaseGridSystem;
  rtg : RandomTileTypeGenerator;
  tile_system : TileSystem
}.

(** [World.__init__].  [tiles] is the optional explicit list, its objects
    freshly allocated in list order; [rand i] is the value
    [random.random()] returns for the tile with index [i].  An absent or
    empty list is falsy and selects the random world. *)
Definition World_init (rows cols : Z) (centered : bool)
           (tile_weights : list (TileType * Z))
           (tiles : option (list Tile)) (rand : nat -> Q)
  : result (World * Heap) :=
  let g := {| Grid.rows := rows; Grid.cols := cols; center_on_origin := centered |} in
  r <- RandomTileTypeGenerator_init tile_weights ;;
  let indices := indices g in
  let objs :=
    match tiles with
    | Some (t :: ts') => t :: ts'
    | _ => map (fun ij =>
                  {| tile_type := get_random_tile r (rand (fst ij));
                     tile_position := _new_gl (fst (snd ij)) (snd (snd ij));
                     tile_id := Z.of_nat (fst ij) |})
               (combine (seq 0 (length indices)) indices)
    end in
  let h := heap_of_list objs in
  Ok ({| grid := g; rtg := r;
         tile_system := TileSystem_init h (seq 0 (length objs)) |}, h).

Definition tile_neighbours (w : World) (h : Heap) (tile : ref) : list ref :=
  let ns_loc := neighbours (grid w) (tile_position (h tile)) in
  let ns := map (tile_at_loc (tile_system w)) ns_loc in
  filter_none ns.

Definition count_if (f : ref -> bool) (l : list ref) : Z :=
  Z.of_nat (length (filter f l)).

Definition tile_desirability (w : World) (h : Heap) (tile : ref)
           (ty : TileType) (self_des : bool) : result Q :=
  if TileType_eqb (tile_type (h tile)) Empty && self_des then Ok 0%Q
  else
    let ns := tile_neighbours w h tile in
    let same := count_if (fun t => TileType_eqb (tile_type (h t)) ty) ns in
    let empty := count_if (fun t => TileType_eqb (tile_type (h t)) Empty) ns in
    let diff := count_if (fun t => negb (TileType_eqb (tile_type (h t)) ty) &&
                                   negb (TileType_eqb (tile_type (h t)) Empty)) ns in
    let same := if self_des then same else same - 1 in
    let empty := if self_des then empty else empty + 1 in
    let den := 2 * Z.of_nat (length ns) in
    if den =? 0 then Raise ZeroDivisionError
    else Ok (inject_Z (2 * same - 2 * diff + empty) / inject_Z den)%Q.

Definition desirability_matrix (w : World) (h : Heap) (tile : ref)
  : result (list (ref * Q)) :=
  let ns := tile_neighbours w h tile in
  mapM (fun t => s <- tile_desirability w h t (tile_type (h tile)) false ;;
                 Ok (t, s))
       (filter (fun t => TileType_eqb (tile_type (h t)) Empty) ns).

(** [max(l, key=itemgetter(1))] on a non-empty list [x :: l]: a later
    item replaces the current one only when its key is strictly larger. *)
Fixpoint max_by_snd {A : Type} (x : A * Q) (l : list (A * Q)) : A * Q :=
  match l with
  | [] => x
  | y :: l' => if Qlt_le_dec (snd x) (snd y) then max_by_snd y l'
               else max_by_snd x l'
  end.

(** [min(l, key=itemgetter(1))] on a non-empty list [x :: l]. *)
Fixpoint min_by_snd {A : Type} (x : A * Q) (l : list (A * Q)) : A * Q :=
  match l with
  | [] => x
  | y :: l' => if Qlt_le_dec (snd y) (snd x) then min_by_snd y l'
               else min_by_snd x l'
  end.

Definition wants_to_move_to_tile (w : World) (h : Heap) (tile : ref)
  : result (option ref) :=
  if TileType_eqb (tile_type (h tile)) Empty then Ok None
  else
    self_des <- tile_desirability w h tile (tile_type (h tile)) true ;;
    des_mat <- desirability_matrix w h tile ;;
    match des_mat with
    | [] => Ok None
    | x :: l =>
        let max_ := max_by_snd x l in
        if Qlt_le_dec self_des (snd max_) then Ok (Some (fst max_))
        else Ok None
    end.

Definition unique_min_des (conflicts : list (ref * Q)) : result (option ref) :=
  match conflicts with
  | [] => Raise ValueError
  | x :: l =>
      let min_ := min_by_snd x l in
      let candidates :=
        map fst (filter (fun t => Qeq_bool (snd t) (snd min_)) conflicts) in
      if (1 <? length candidates)%nat then Ok None
      else Ok (Some (fst min_))
  end.

Definition proposal : Type := (ref * Q) * ref.

Record rd_state : Type := {
  known_duplicates : list ref;
  non_duplicates : list (ref * ref);
  conflicts : list (ref * list (ref * Q))
}.

Section Step.
Variable py_hash : Z * Z -> Z.

(** The [while mm] loop.  [mm.pop()] takes the last item, so the loop
    runs over the reversed list: the head is [last], the tail is what
    is left of [mm], most recent first. *)
Fixpoint rem_dups_loop (h : Heap) (rmm : list proposal) (st : rd_state)
  : result rd_state :=
  match rmm with
  | [] => Ok st
  | last :: rest =>
      if tile_in h (snd last) (known_duplicates st) then
        match dict_get (same_tile_key py_hash h) (conflicts st) (snd last) with
        | None => Raise KeyError
        | Some c =>
            rem_dups_loop h rest
              {| known_duplicates := known_duplicates st;
                 non_duplicates := non_duplicates st;
                 conflicts := dict_set (same_tile_key py_hash h) (conflicts st)
                                       (snd last) (c ++ [fst last]) |}
        end
      else if tile_in h (snd last) (map snd (rev rest)) then
        rem_dups_loop h rest
          {| known_duplicates := known_duplicates st ++ [snd last];
             non_duplicates := non_duplicates st;
             conflicts := dict_set (same_tile_key py_hash h) (conflicts st)
                                   (snd last) [fst last] |}
      else
        rem_dups_loop h rest
          {| known_duplicates := known_duplicates st;
             non_duplicates := non_duplicates st ++ [(fst (fst last), snd last)];
             conflicts := conflicts st |}
  end.

(** The [for t, c in conflicts.items()] loop; a tile is truthy, so
    [if unique] only excludes [None]. *)
Fixpoint resolve_conflicts (cs : list (ref * list (ref * Q)))
         (non_duplicates : list (ref * ref)) : result (list (ref * ref)) :=
  match cs with
  | [] => Ok non_duplicates
  | (t, c) :: cs' =>
      unique <- unique_min_des c ;;
      match unique with
      | Some u => resolve_conflicts cs' (non_duplicates ++ [(u, t)])
      | None => resolve_conflicts cs' non_duplicates
      end
  end.

Definition rem_dups (h : Heap) (mm : list proposal) : result (list (ref * ref)) :=
  st <- rem_dups_loop h (rev mm)
          {| known_duplicates := []; non_duplicates := []; conflicts := [] |} ;;
  resolve_conflicts (conflicts st) (non_duplicates st).

(** The [for tile in tiles_dict.values()] loop of [run_step]. *)
Fixpoint collect_moves (w : World) (h : Heap) (tiles : list ref)
         (movement_matrix : list proposal) : result (list proposal) :=
  match tiles with
  | [] => Ok movement_matrix
  | tile :: rest =>
      self_des <- tile_desirability w h tile (tile_type (h tile)) true ;;
      des_tile <- wants_to_move_to_tile w h tile ;;
      match des_tile with
      | Some d => collect_moves w h rest (movement_matrix ++ [((tile, self_des), d)])
      | None => collect_moves w h rest movement_matrix
      end
  end.

Definition commit (h : Heap) (non_dups : list (ref * ref)) : Heap :=
  fold_left (fun h' t => switch_tiles h' (fst t) (snd t)) non_dups h.

(** [run_step] returns the heap it leaves behind and how it ended.
    Everything before the last line only reads, so an exception leaves
    the heap as it was. *)
Definition run_step (w : World) (h : Heap) : Heap * result unit :=
  match collect_moves w h (dict_values (tiles_dict (tile_system w))) [] with
  | Raise e => (h, Raise e)
  | Ok movement_matrix =>
      match rem_dups h movement_matrix with
      | Raise e => (h, Raise e)
      | Ok non_dups => (commit h non_dups, Ok tt)
      end
  end.
End Step.

End Worlds.
Import Worlds.

(** ** Notions the statements use *)

(** What [neighbours] would return with the bounds of [indices]. *)
Definition neighbours_in_ranges (g : BaseGridSystem) (l : GridLocation)
  : list GridLocation :=
  filter (in_configured_ranges g)
         (map (fun d => _new_gl (row l + fst d) (col l + snd d))
              octagonal_directions).

Definition proposer (x : proposal) : ref := fst (fst x).
Definition score (x : proposal) : Q := snd (fst x).
Definition dest (x : proposal) : ref := snd x.

(** The type and the id of an object: what a swap moves. *)
Definition payload (t : Tile) : TileType * Z := (tile_type t, tile_id t).

(** The object [r] holds after [switch_tiles h t1 t2] what the object
    [swap_ref t1 t2 r] held before it. *)
Definition swap_ref (t1 t2 r : ref) : ref :=
  if Nat.eqb r t1 then t2 else if Nat.eqb r t2 then t1 else r.

Definition store_refs (w : World) : list ref :=
  dict_values (tiles_dict (tile_system w)).

(** Every entry of [tiles_dict] is filed under the position of its own
    object, and no object is filed twice. *)
Definition wf (w : World) (h : Heap) : Prop :=
  NoDup (store_refs w) /\
  forall k r, In (k, r) (tiles_dict (tile_system w)) -> tile_position (h r) = k.

(** The ids of the stored tiles are pairwise different. *)
Definition unique_ids (w : World) (h : Heap) : Prop :=
  NoDup (map (fun r => tile_id (h r)) (store_refs w)).

(** *** The two-phase step as the specification words it *)

(** Phases 1 and 2: every occupied tile computes its self-desirability
    and its proposal on the pre-step heap; the triples that name a
    destination are collected. *)
Fixpoint proposals_spec (w : World) (h : Heap) (tiles : list ref)
  : result (list proposal) :=
  match tiles with
  | [] => Ok []
  | t :: rest =>
      if TileType_eqb (tile_type (h t)) Empty then proposals_spec w h rest
      else
        s <- tile_desirability w h t (tile_type (h t)) true ;;
        d <- wants_to_move_to_tile w h t ;;
        ps <- proposals_spec w h rest ;;
        Ok (match d with
            | Some d' => ((t, s), d') :: ps
            | None => ps
            end)
  end.

(** Phase 3: the proposals are grouped by destination tile.  A lone
    proposer is accepted; among several, the one strictly below all the
    others, that is, the only one of the group at or below its own
    score; a tie for the lowest drops the group. *)
Definition proposers_of (d : ref) (ps : list proposal) : list proposal :=
  filter (fun y => Nat.eqb (dest y) d) ps.

Definition strictly_lowest (x : proposal) (grp : list proposal) : bool :=
  Nat.eqb (length (filter (fun y => Qle_bool (score y) (score x)) grp)) 1.

Definition accepted_spec (ps : list proposal) (x : proposal) : bool :=
  match proposers_of (dest x) ps with
  | [_] => true
  | grp => strictly_lowest x grp
  end.

Definition resolve_spec (ps : list proposal) : list (ref * ref) :=
  map (fun x => (proposer x, dest x)) (filter (accepted_spec ps) ps).


(** The objects a list of accepted pairs hands to [switch_tiles]. *)
Definition pair_refs (l : list (ref * ref)) : list ref :=
  flat_map (fun t => [fst t; snd t]) l.

(** An occupied tile on which [wants_to_move_to_tile] divides by zero:
    it has no resolved neighbour, or one of its Empty neighbours has
    none. *)
Definition divides_by_zero (w : World) (h : Heap) (t : ref) : Prop :=
  tile_type (h t) <> Empty /\
  (tile_neighbours w h t = [] \/
   exists d, In d (tile_neighbours w h t) /\ tile_type (h d) = Empty /\
             tile_neighbours w h d = []).

(** *** The state of the loop of [rem_dups] *)

(** The tiles of the destinations are told apart by [==]. *)
Definition distinct_dests (h : Heap) (mm : list proposal) : Prop :=
  forall x y, In x mm -> In y mm ->
              Tile_eq (h (dest x)) (h (dest y)) = true -> dest x = dest y.

(** Every other proposal for the destination of [x] has a larger
    self-desirability than [x]. *)
Definition others_above (x : proposal) (others : list proposal) : Prop :=
  forall y, In y others -> dest y = dest x -> (score x < score y)%Q.

(** The list [conflicts] holds for [d] once the proposals [done] have
    been popped: their proposers with their scores, last popped last. *)
Definition group_entries (d : ref) (done : list proposal) : list (ref * Q) :=
  map fst (rev (proposers_of d done)).

(** What the loop keeps true, [done] being the part of [mm] already
    popped. *)
Record rd_inv (mm done : list proposal) (st : rd_state) : Prop := {
  inv_keys : dict_keys (conflicts st) = known_duplicates st;
  inv_known_nodup : NoDup (known_duplicates st);
  inv_known : forall d,
      In d (known_duplicates st) <->
      proposers_of d done <> [] /\ (2 <= length (proposers_of d mm))%nat;
  inv_conflicts : forall d c,
      In (d, c) (conflicts st) -> c = group_entries d done;
  inv_non_dups : forall p d,
      In (p, d) (non_duplicates st) <->
      exists s, proposers_of d mm = [((p, s), d)] /\ In ((p, s), d) done;
  inv_non_dups_nodup : NoDup (map snd (non_duplicates st))
}.

(** *** Sample data *)

(** A hash on pairs of integers, to run the definitions on. *)
Definition pair_hash (p : Z * Z) : Z := 1000003 * fst p + snd p.

Definition mk_tile (ty : TileType) (r c id : Z) : Tile :=
  {| tile_type := ty; tile_position := _new_gl r c; tile_id := id |}.

(** One row, three columns, not centred. *)
Definition grid_1x3 : BaseGridSystem :=
  {| rows := 1; cols := 3; center_on_origin := false |}.

Definition tiles_bge : list Tile :=
  [mk_tile Blue 0 0 0; mk_tile Empty 0 1 1; mk_tile Green 0 2 2].

Definition tiles_geg : list Tile :=
  [mk_tile Green 0 0 0; mk_tile Empty 0 1 1; mk_tile Green 0 2 2].

Definition weights_633 : list (TileType * Z) :=
  [(Empty, 6); (Green, 3); (Blue, 3)].

Definition tiles_5 : list Tile :=
  [mk_tile Green 0 0 0; mk_tile Empty 0 1 1; mk_tile Green 0 2 2;
   mk_tile Blue 1 0 3; mk_tile Empty 1 1 4].

(** Three rows and three columns, not centred. *)
Definition tiles_9 : list Tile :=
  [mk_tile Green 0 0 0; mk_tile Empty 0 1 1; mk_tile Blue 0 2 2;
   mk_tile Blue 1 0 3; mk_tile Empty 1 1 4; mk_tile Empty 1 2 5;
   mk_tile Empty 2 0 6; mk_tile Empty 2 1 7; mk_tile Empty 2 2 8].

(** Two rows of a grid of three rows and three columns: the Green tile
    at (0,2) and the Blue tile at (1,2) both want the Empty place at
    (0,1). *)
Definition tiles_6 : list Tile :=
  [mk_tile Empty 0 0 0; mk_tile Empty 0 1 1; mk_tile Green 0 2 2;
   mk_tile Empty 1 0 3; mk_tile Green 1 1 4; mk_tile Blue 1 2 5].

(** Tiles 0 and 2 both want the place of tile 1, tile 3 that of tile 4. *)
Definition proposals_3 : list proposal :=
  [((0%nat, (1 # 2)%Q), 1%nat); ((2%nat, (1 # 4)%Q), 1%nat);
   ((3%nat, 0%Q), 4%nat)].

(** The world a tile list builds, on a grid of the given size. *)
Definition world_of (rows cols : Z) (centered : bool) (ts : list Tile)
  : World * Heap :=
  match World_init rows cols centered weights_633 (Some ts) (fun _ => 0%Q) with
  | Ok wh => wh
  | Raise _ =>
      ({| grid := {| rows := rows; cols := cols; center_on_origin := centered |};
          rtg := {| type_weight_dict := []; type_prob := [] |};
          tile_system := {| tiles_dict := [] |} |}, heap_of_list [])
  end.

(** * Properties *)

(** ** Equality tests *)

Lemma GridLocation_eqb_eq (a b : GridLocation) :
  GridLocation_eqb a b = true <-> a = b.
Proof.
  unfold GridLocation_eqb. destruct a as [ra ca], b as [rb cb]; simpl.
  rewrite andb_true_iff, !Z.eqb_eq. split.
  - intros [-> ->]. reflexivity.
  - intros E. inversion E. split; reflexivity.
Qed.

Lemma TileType_eqb_eq (a b : TileType) : TileType_eqb a b = true <-> a = b.
Proof. destruct a, b; simpl; split; congruence. Qed.

Lemma TileType_eqb_refl (a : TileType) : TileType_eqb a a = true.
Proof. destruct a; reflexivity. Qed.

Lemma TileType_eqb_neq (a b : TileType) : TileType_eqb a b = false <-> a <> b.
Proof. destruct a, b; simpl; split; congruence. Qed.

Lemma Tile_eq_refl (t : Tile) : Tile_eq t t = true.
Proof. apply Z.eqb_refl. Qed.

Lemma Tile_eta (t : Tile) :
  {| tile_type := tile_type t; tile_position := tile_position t;
     tile_id := tile_id t |} = t.
Proof. destruct t; reflexivity. Qed.

(** ** The heap under [switch_tiles] *)

Ltac heap_cases :=
  unfold switch_tiles, set_tile_id, set_tile_type, payload;
  repeat match goal with
         | |- context [Nat.eqb ?a ?b] =>
             destruct (Nat.eqb_spec a b); subst; simpl
         end;
  try reflexivity; try congruence.

Lemma switch_tiles_position (h : Heap) (t1 t2 r : ref) :
  tile_position (switch_tiles h t1 t2 r) = tile_position (h r).
Proof. heap_cases. Qed.

Lemma switch_tiles_other (h : Heap) (t1 t2 r : ref) :
  r <> t1 -> r <> t2 -> switch_tiles h t1 t2 r = h r.
Proof. intros N1 N2. heap_cases. Qed.

Lemma switch_tiles_payload_fst (h : Heap) (t1 t2 : ref) :
  payload (switch_tiles h t1 t2 t1) = payload (h t2).
Proof. heap_cases. Qed.

Lemma switch_tiles_payload_snd (h : Heap) (t1 t2 : ref) :
  payload (switch_tiles h t1 t2 t2) = payload (h t1).
Proof. heap_cases. Qed.

Lemma switch_tiles_same (h : Heap) (t r : ref) : switch_tiles h t t r = h r.
Proof. heap_cases. apply Tile_eta. Qed.

Lemma switch_tiles_payload (h : Heap) (t1 t2 r : ref) :
  payload (switch_tiles h t1 t2 r) = payload (h (swap_ref t1 t2 r)).
Proof. unfold swap_ref. heap_cases. Qed.


(** ** [switch_tiles] and the equality and hash of tiles *)

(** C8.  For two distinct tile objects, [switch_tiles] exchanges their
    types and their ids: each ends with the type and the id the other
    had.  Whatever the two objects are, the position of every object is
    what it was and no third object changes.  Handed the same object
    twice, it leaves the whole heap as it was. *)
Theorem switch_tiles_exchanges_type_and_id (h : Heap) (t1 t2 : ref) :
  (t1 <> t2 ->
   tile_type (switch_tiles h t1 t2 t1) = tile_type (h t2) /\
   tile_id (switch_tiles h t1 t2 t1) = tile_id (h t2) /\
   tile_type (switch_tiles h t1 t2 t2) = tile_type (h t1) /\
   tile_id (switch_tiles h t1 t2 t2) = tile_id (h t1)) /\
  tile_position (switch_tiles h t1 t2 t1) = tile_position (h t1) /\
  tile_position (switch_tiles h t1 t2 t2) = tile_position (h t2) /\
  (forall r, r <> t1 -> r <> t2 -> switch_tiles h t1 t2 r = h r) /\
  (forall r, switch_tiles h t1 t1 r = h r).
Proof.
  repeat split.
  - pose proof (switch_tiles_payload_fst h t1 t2) as P. inversion P. reflexivity.
  - pose proof (switch_tiles_payload_fst h t1 t2) as P. inversion P. reflexivity.
  - pose proof (switch_tiles_payload_snd h t1 t2) as P. inversion P. reflexivity.
  - pose proof (switch_tiles_payload_snd h t1 t2) as P. inversion P. reflexivity.
  - apply switch_tiles_position.
  - apply switch_tiles_position.
  - intros r. apply switch_tiles_other.
  - intros r. apply switch_tiles_same.
Qed.

Lemma switch_tiles_exchanges_type_and_id_witness :
  (0 <> 1)%nat /\
  tile_type (switch_tiles (heap_of_list tiles_geg) 0%nat 1%nat 0%nat) = Empty /\
  tile_id (switch_tiles (heap_of_list tiles_geg) 0%nat 1%nat 0%nat) = 1 /\
  tile_type (switch_tiles (heap_of_list tiles_geg) 0%nat 1%nat 1%nat) = Green /\
  tile_id (switch_tiles (heap_of_list tiles_geg) 0%nat 1%nat 1%nat) = 0.
Proof.
  split; [discriminate |].
  apply (switch_tiles_exchanges_type_and_id (heap_of_list tiles_geg) 0%nat 1%nat).
  discriminate.
Defined.

(** C10.  [Tile.__eq__] looks at the id alone and [Tile.__hash__] at the
    position alone.  So, for any two locations the built-in hash tells
    apart, two tiles with one id at these locations are equal and hash
    differently; and after [switch_tiles] an object is equal to what the
    other object was, at the other position, while its own hash has not
    moved.  The law "equal tiles hash equal" fails. *)
Theorem tile_eq_by_id_hash_by_position
        (py_hash : Z * Z -> Z) (l1 l2 : GridLocation)
        (Hsep : GridLocation_hash py_hash l1 <> GridLocation_hash py_hash l2) :
  (forall a b : Tile, Tile_eq a b = true <-> tile_id a = tile_id b) /\
  (forall a b : Tile, tile_position a = tile_position b ->
                      Tile_hash py_hash a = Tile_hash py_hash b) /\
  (forall (ty1 ty2 : TileType) (i : Z),
      let a := {| tile_type := ty1; tile_position := l1; tile_id := i |} in
      let b := {| tile_type := ty2; tile_position := l2; tile_id := i |} in
      Tile_eq a b = true /\ Tile_hash py_hash a <> Tile_hash py_hash b) /\
  (forall (h : Heap) (t1 t2 : ref),
      tile_position (h t1) = l1 -> tile_position (h t2) = l2 ->
      let h' := switch_tiles h t1 t2 in
      Tile_eq (h' t1) (h t2) = true /\
      Tile_hash py_hash (h' t1) = Tile_hash py_hash (h t1) /\
      Tile_hash py_hash (h' t1) <> Tile_hash py_hash (h t2) /\
      (tile_id (h t1) <> tile_id (h t2) -> Tile_eq (h' t1) (h t1) = false)) /\
  ~ (forall a b : Tile, Tile_eq a b = true ->
                        Tile_hash py_hash a = Tile_hash py_hash b).
Proof.
  assert (Eq : forall a b : Tile, Tile_eq a b = true <-> tile_id a = tile_id b)
    by (intros a b; apply Z.eqb_eq).
  split; [exact Eq |].
  split; [intros a b E; unfold Tile_hash; rewrite E; reflexivity |].
  split.
  { intros ty1 ty2 i a b. split.
    - apply Eq. reflexivity.
    - exact Hsep. }
  split.
  { intros h t1 t2 P1 P2 h'. subst h'.
    pose proof (switch_tiles_payload_fst h t1 t2) as P. inversion P as [[Pt Pi]].
    pose proof (switch_tiles_position h t1 t2 t1) as Pp.
    assert (Hh : Tile_hash py_hash (switch_tiles h t1 t2 t1) = Tile_hash py_hash (h t1))
      by (unfold Tile_hash; rewrite Pp; reflexivity).
    repeat split.
    - apply Eq. exact Pi.
    - exact Hh.
    - rewrite Hh. unfold Tile_hash. rewrite P1, P2. exact Hsep.
    - intros N. unfold Tile_eq. rewrite Pi. apply Z.eqb_neq. congruence. }
  intros Law.
  apply Hsep.
  apply (Law {| tile_type := Empty; tile_position := l1; tile_id := 0 |}
             {| tile_type := Empty; tile_position := l2; tile_id := 0 |}).
  reflexivity.
Qed.

Lemma tile_eq_by_id_hash_by_position_witness :
  GridLocation_hash pair_hash (_new_gl 0 0) <> GridLocation_hash pair_hash (_new_gl 0 1) /\
  ~ (forall a b : Tile, Tile_eq a b = true ->
                        Tile_hash pair_hash a = Tile_hash pair_hash b).
Proof.
  assert (S : GridLocation_hash pair_hash (_new_gl 0 0) <>
              GridLocation_hash pair_hash (_new_gl 0 1)) by (vm_compute; discriminate).
  split; [exact S |].
  apply (tile_eq_by_id_hash_by_position pair_hash (_new_gl 0 0) (_new_gl 0 1) S).
Defined.

(** ** The bounds of the grid *)

(** What [_is_within_bounds] tests: the column against [rows] and the row
    against [cols], both ends included. *)
Lemma is_within_bounds_tests (g : BaseGridSystem) (l : GridLocation) :
  _is_within_bounds g l = true <->
  (if center_on_origin g then - rows g else 0) <= col l <= rows g /\
  (if center_on_origin g then - cols g else 0) <= row l <= cols g.
Proof.
  unfold _is_within_bounds.
  rewrite !andb_true_iff, !Z.leb_le, !Z.geb_le. lia.
Qed.

(** C1.  On the grid of one row and three columns, not centred, the
    neighbours of (0,1) are (1,1), (0,0) and (1,0), whereas the
    locations one step away with a row in [0, 1) and a column in [0, 3)
    are (0,2) and (0,0): [neighbours] returns two locations outside the
    configured ranges and misses one inside them. *)
Theorem neighbours_bounds_swapped :
  neighbours grid_1x3 (_new_gl 0 1) = [_new_gl 1 1; _new_gl 0 0; _new_gl 1 0] /\
  neighbours_in_ranges grid_1x3 (_new_gl 0 1) = [_new_gl 0 2; _new_gl 0 0] /\
  in_configured_ranges grid_1x3 (_new_gl 1 1) = false /\
  ~ In (_new_gl 0 2) (neighbours grid_1x3 (_new_gl 0 1)) /\
  In (0, 2) (indices grid_1x3).
Proof.
  repeat split; try reflexivity.
  - vm_compute. intros [E | [E | [E | []]]]; discriminate.
  - vm_compute. auto.
Qed.

(** ** The error monad *)

Lemma bind_Ok {A B : Type} (m : result A) (f : A -> result B) (b : B) :
  bind m f = Ok b -> exists a, m = Ok a /\ f a = Ok b.
Proof. destruct m as [a | e]; simpl; [eauto | discriminate]. Qed.

Lemma mapM_In {A B : Type} (f : A -> result B) (l : list A) (m : list B) :
  mapM f l = Ok m -> forall y, In y m -> exists x, In x l /\ f x = Ok y.
Proof.
  revert m. induction l as [| x l IH]; simpl; intros m E y Hy.
  - inversion E; subst. destruct Hy.
  - apply bind_Ok in E. destruct E as [y0 [E0 E]].
    apply bind_Ok in E. destruct E as [ys [E1 E]].
    inversion E; subst. destruct Hy as [<- | Hy].
    + eauto.
    + destruct (IH ys E1 y Hy) as [x' [Hx' Fx']]. eauto.
Qed.

Lemma mapM_total {A B : Type} (f : A -> result B) (l : list A) :
  (forall x, In x l -> exists y, f x = Ok y) -> exists m, mapM f l = Ok m.
Proof.
  induction l as [| x l IH]; simpl; intros T.
  - eauto.
  - destruct (T x (or_introl eq_refl)) as [y Ey]. rewrite Ey. simpl.
    destruct IH as [m Em]; [intros x' Hx'; apply T; right; exact Hx' |].
    rewrite Em. simpl. eauto.
Qed.

Lemma desirability_matrix_fst (w : World) (h : Heap) (tile : ref)
      (m : list (ref * Q)) :
  desirability_matrix w h tile = Ok m ->
  map fst m =
  filter (fun t => TileType_eqb (tile_type (h t)) Empty) (tile_neighbours w h tile).
Proof.
  unfold desirability_matrix.
  generalize (filter (fun t => TileType_eqb (tile_type (h t)) Empty)
                     (tile_neighbours w h tile)) as l.
  intros l. revert m. induction l as [| x l IH]; simpl; intros m E.
  - inversion E. reflexivity.
  - apply bind_Ok in E. destruct E as [y0 [E0 E]].
    apply bind_Ok in E. destruct E as [ys [E1 E]].
    apply bind_Ok in E0. destruct E0 as [s [_ E0]].
    inversion E; inversion E0; subst. simpl. f_equal. apply IH. exact E1.
Qed.

Lemma desirability_matrix_In (w : World) (h : Heap) (tile : ref)
      (m : list (ref * Q)) (d : ref) (q : Q) :
  desirability_matrix w h tile = Ok m -> In (d, q) m ->
  In d (tile_neighbours w h tile) /\ tile_type (h d) = Empty /\
  tile_desirability w h d (tile_type (h tile)) false = Ok q.
Proof.
  intros E Hin. unfold desirability_matrix in E.
  destruct (mapM_In _ _ _ E _ Hin) as [x [Hx Fx]].
  apply bind_Ok in Fx. destruct Fx as [s [Es Fx]]. inversion Fx; subst.
  apply filter_In in Hx. destruct Hx as [Hn Ht].
  apply TileType_eqb_eq in Ht. auto.
Qed.

(** ** The counts of [tile_desirability] *)

Lemma count_if_nonneg (f : ref -> bool) (ns : list ref) : 0 <= count_if f ns.
Proof. unfold count_if. lia. Qed.

Lemma count_if_cons (f : ref -> bool) (x : ref) (ns : list ref) :
  count_if f (x :: ns) = (if f x then 1 else 0) + count_if f ns.
Proof.
  unfold count_if. cbn [filter]. destruct (f x); cbn [length]; lia.
Qed.

Lemma counts_occupied (h : Heap) (ty : TileType) (ns : list ref) :
  ty <> Empty ->
  count_if (fun t => TileType_eqb (tile_type (h t)) ty) ns +
  count_if (fun t => TileType_eqb (tile_type (h t)) Empty) ns +
  count_if (fun t => negb (TileType_eqb (tile_type (h t)) ty) &&
                     negb (TileType_eqb (tile_type (h t)) Empty)) ns =
  Z.of_nat (length ns).
Proof.
  intros N. induction ns as [| x ns IH]; [reflexivity |].
  rewrite !count_if_cons. simpl length. rewrite Nat2Z.inj_succ.
  destruct (tile_type (h x)), ty; cbn [TileType_eqb negb andb]; try congruence; lia.
Qed.

Lemma counts_vacant (h : Heap) (ns : list ref) :
  count_if (fun t => TileType_eqb (tile_type (h t)) Empty) ns +
  count_if (fun t => negb (TileType_eqb (tile_type (h t)) Empty) &&
                     negb (TileType_eqb (tile_type (h t)) Empty)) ns =
  Z.of_nat (length ns).
Proof.
  induction ns as [| x ns IH]; [reflexivity |].
  rewrite !count_if_cons. simpl length. rewrite Nat2Z.inj_succ.
  destruct (tile_type (h x)); cbn [TileType_eqb negb andb]; lia.
Qed.

Lemma same_positive (h : Heap) (ty : TileType) (ns : list ref) (t : ref) :
  In t ns -> tile_type (h t) = ty ->
  1 <= count_if (fun t => TileType_eqb (tile_type (h t)) ty) ns.
Proof.
  intros Hin Ht.
  induction ns as [| x ns IH]; [destruct Hin |].
  rewrite count_if_cons.
  pose proof (count_if_nonneg (fun t => TileType_eqb (tile_type (h t)) ty) ns).
  destruct Hin as [-> | Hin].
  - rewrite Ht, TileType_eqb_refl. lia.
  - specialize (IH Hin). destruct (TileType_eqb (tile_type (h x)) ty); lia.
Qed.

(** Bounds of a quotient of integers from bounds of the numerator. *)
Lemma Zquot_bounds (n d b : Z) (c : positive) :
  0 < d -> - b * d <= n * Zpos c <= b * d ->
  (- (b # c) <= inject_Z n / inject_Z d <= b # c)%Q.
Proof.
  intros Hd [Lo Hi].
  assert (Pd : (0 < inject_Z d)%Q) by (unfold Qlt; simpl; lia).
  split.
  - apply Qle_shift_div_l; [exact Pd |].
    unfold Qle; simpl. lia.
  - apply Qle_shift_div_r; [exact Pd |].
    unfold Qle; simpl. lia.
Qed.

(** ** [tile_desirability]: when it returns and what it returns *)

#[local] Opaque Z.mul.

Lemma tile_desirability_vacant_self (w : World) (h : Heap) (t : ref)
      (ty : TileType) :
  tile_type (h t) = Empty -> tile_desirability w h t ty true = Ok 0%Q.
Proof. intros E. unfold tile_desirability. rewrite E. reflexivity. Qed.

Lemma tile_desirability_defined (w : World) (h : Heap) (t : ref)
      (ty : TileType) (sd : bool) :
  tile_neighbours w h t <> [] -> exists q, tile_desirability w h t ty sd = Ok q.
Proof.
  intros N. unfold tile_desirability.
  destruct (TileType_eqb (tile_type (h t)) Empty && sd); [eauto |].
  destruct (Z.eqb_spec (2 * Z.of_nat (length (tile_neighbours w h t))) 0) as [Z0 | _].
  - destruct (tile_neighbours w h t); [congruence | simpl in Z0; lia].
  - eauto.
Qed.

Lemma tile_desirability_raises (w : World) (h : Heap) (t : ref)
      (ty : TileType) (sd : bool) :
  tile_neighbours w h t = [] ->
  TileType_eqb (tile_type (h t)) Empty && sd = false ->
  tile_desirability w h t ty sd = Raise ZeroDivisionError.
Proof.
  intros N G. unfold tile_desirability. rewrite G, N. reflexivity.
Qed.

Lemma self_desirability_bounds (w : World) (h : Heap) (t : ref) (q : Q) :
  tile_desirability w h t (tile_type (h t)) true = Ok q ->
  (-1 <= q)%Q /\ (q <= 1)%Q.
Proof.
  unfold tile_desirability.
  destruct (TileType_eqb (tile_type (h t)) Empty) eqn:E; cbn [andb].
  - intros Q0. inversion Q0. split; unfold Qle; simpl; lia.
  - set (ns := tile_neighbours w h t). cbv beta zeta iota.
    destruct (Z.eqb_spec (2 * Z.of_nat (length ns)) 0) as [| N0]; [discriminate |].
    intros Q0. injection Q0 as <-.
    apply TileType_eqb_neq in E.
    pose proof (counts_occupied h (tile_type (h t)) ns E) as P.
    pose proof (count_if_nonneg (fun t0 => TileType_eqb (tile_type (h t0)) (tile_type (h t))) ns).
    pose proof (count_if_nonneg (fun t0 => TileType_eqb (tile_type (h t0)) Empty) ns).
    pose proof (count_if_nonneg
      (fun t0 => negb (TileType_eqb (tile_type (h t0)) (tile_type (h t))) &&
                 negb (TileType_eqb (tile_type (h t0)) Empty)) ns).
    change (-1)%Q with (- (1 # 1))%Q. change 1%Q with (1 # 1)%Q.
    apply Zquot_bounds; lia.
Qed.

Lemma destination_score_bounds (w : World) (h : Heap) (d : ref)
      (ty : TileType) (q : Q) :
  tile_desirability w h d ty false = Ok q ->
  (- (3 # 2) <= q <= 3 # 2)%Q /\
  (ty <> Empty ->
   (exists t, In t (tile_neighbours w h d) /\ tile_type (h t) = ty) ->
   (-1 <= q)%Q /\ (q <= 1)%Q).
Proof.
  unfold tile_desirability. rewrite andb_false_r.
  set (ns := tile_neighbours w h d). cbv beta zeta iota.
  destruct (Z.eqb_spec (2 * Z.of_nat (length ns)) 0) as [| N0]; [discriminate |].
  intros Q0. injection Q0 as <-.
  pose proof (count_if_nonneg (fun t0 => TileType_eqb (tile_type (h t0)) ty) ns).
  pose proof (count_if_nonneg (fun t0 => TileType_eqb (tile_type (h t0)) Empty) ns).
  pose proof (count_if_nonneg
    (fun t0 => negb (TileType_eqb (tile_type (h t0)) ty) &&
               negb (TileType_eqb (tile_type (h t0)) Empty)) ns).
  split.
  - apply Zquot_bounds; [lia |].
    destruct (TileType_eqb ty Empty) eqn:E.
    + apply TileType_eqb_eq in E. subst ty.
      pose proof (counts_vacant h ns). lia.
    + apply TileType_eqb_neq in E.
      pose proof (counts_occupied h ty ns E). lia.
  - intros E [t [Hin Ht]].
    pose proof (counts_occupied h ty ns E).
    pose proof (same_positive h ty ns t Hin Ht).
    change (-1)%Q with (- (1 # 1))%Q. change 1%Q with (1 # 1)%Q.
    apply Zquot_bounds; lia.
Qed.

(** C6, as the code has it.  [tile_desirability] returns a score for
    every tile with at least one resolved neighbour, and returns 0 for an
    Empty tile scored for itself whatever its neighbours are. *)
Theorem tile_desirability_total_with_neighbours
        (w : World) (h : Heap) (t : ref) (ty : TileType) (sd : bool) :
  (tile_type (h t) = Empty -> tile_desirability w h t ty true = Ok 0%Q) /\
  (tile_neighbours w h t <> [] -> exists q, tile_desirability w h t ty sd = Ok q).
Proof.
  split.
  - apply tile_desirability_vacant_self.
  - apply tile_desirability_defined.
Qed.

Lemma tile_desirability_total_with_neighbours_witness :
  let w := fst (world_of 1 3 false tiles_geg) in
  let h := snd (world_of 1 3 false tiles_geg) in
  tile_type (h 1%nat) = Empty /\ tile_neighbours w h 0%nat <> [] /\
  tile_desirability w h 1%nat Green true = Ok 0%Q /\
  exists q, tile_desirability w h 0%nat Green true = Ok q.
Proof.
  intros w h.
  destruct (tile_desirability_total_with_neighbours w h 1%nat Green true) as [V _].
  destruct (tile_desirability_total_with_neighbours w h 0%nat Green true) as [_ D].
  assert (E : tile_type (h 1%nat) = Empty) by reflexivity.
  assert (N : tile_neighbours w h 0%nat <> []) by (vm_compute; discriminate).
  exact (conj E (conj N (conj (V E) (D N)))).
Defined.

(** C6, the claim as worded fails: in the world of one row and one
    column whose only tile is Green, that tile has no resolved neighbour
    and scoring it divides by zero. *)
Lemma tile_desirability_unguarded :
  let w := fst (world_of 1 1 false [mk_tile Green 0 0 0]) in
  let h := snd (world_of 1 1 false [mk_tile Green 0 0 0]) in
  tile_at_loc (tile_system w) (_new_gl 0 0) = Some 0%nat /\
  tile_neighbours w h 0%nat = [] /\
  tile_desirability w h 0%nat (tile_type (h 0%nat)) true = Raise ZeroDivisionError /\
  tile_desirability w h 0%nat (tile_type (h 0%nat)) true <> Ok 0%Q.
Proof. vm_compute. repeat split; discriminate. Qed.

(** C5, as the code has it.  A self-desirability lies in [-1, 1].  A
    score of the desirability matrix lies in [-3/2, 3/2]; it lies in
    [-1, 1] when the tile the matrix belongs to is occupied and is itself
    among the resolved neighbours of the destination. *)
Theorem scores_bounded (w : World) (h : Heap) (tile : ref) :
  (forall q, tile_desirability w h tile (tile_type (h tile)) true = Ok q ->
             (-1 <= q)%Q /\ (q <= 1)%Q) /\
  (forall m d q,
      desirability_matrix w h tile = Ok m -> In (d, q) m ->
      (- (3 # 2) <= q <= 3 # 2)%Q /\
      (tile_type (h tile) <> Empty -> In tile (tile_neighbours w h d) ->
       (-1 <= q)%Q /\ (q <= 1)%Q)).
Proof.
  split.
  - intros q. apply self_desirability_bounds.
  - intros m d q Em Hin.
    destruct (desirability_matrix_In w h tile m d q Em Hin) as [_ [_ Eq]].
    destruct (destination_score_bounds w h d _ q Eq) as [B1 B2].
    split; [exact B1 |].
    intros N Hn. apply B2; [exact N |]. exists tile. auto.
Qed.

Lemma scores_bounded_witness :
  let w := fst (world_of 1 3 false tiles_geg) in
  let h := snd (world_of 1 3 false tiles_geg) in
  tile_desirability w h 0%nat (tile_type (h 0%nat)) true = Ok (1 # 2)%Q /\
  desirability_matrix w h 0%nat = Ok [(1%nat, (1 # 2)%Q)] /\
  tile_type (h 0%nat) <> Empty /\
  In 0%nat (tile_neighbours w h 1%nat) /\
  ((-1 <= 1 # 2)%Q /\ (1 # 2 <= 1)%Q) /\
  (- (3 # 2) <= 1 # 2 <= 3 # 2)%Q.
Proof.
  intros w h.
  assert (S : tile_desirability w h 0%nat (tile_type (h 0%nat)) true = Ok (1 # 2)%Q)
    by reflexivity.
  assert (M : desirability_matrix w h 0%nat = Ok [(1%nat, (1 # 2)%Q)])
    by reflexivity.
  assert (T : tile_type (h 0%nat) <> Empty) by discriminate.
  assert (N : In 0%nat (tile_neighbours w h 1%nat)) by (left; reflexivity).
  destruct (scores_bounded w h 0%nat) as [B1 B2].
  destruct (B2 _ 1%nat (1 # 2)%Q M (or_introl eq_refl)) as [B3 B4].
  exact (conj S (conj M (conj T (conj N (conj (B4 T N) B3))))).
Defined.

(** C5, the claim as worded fails.  In the world of one row and three
    columns with the tiles Blue, Empty, Green, the Green tile at (0,2)
    has the Empty tile at (0,1) in its matrix with the score -3/2: the
    bounds test keeps (0,2) out of the neighbours of (0,1), whose only
    resolved neighbour is the Blue tile. *)
Lemma destination_score_below_minus_one :
  let w := fst (world_of 1 3 false tiles_bge) in
  let h := snd (world_of 1 3 false tiles_bge) in
  tile_type (h 2%nat) = Green /\
  desirability_matrix w h 2%nat = Ok [(1%nat, (-3 # 2)%Q)] /\
  ~ (-1 <= -3 # 2)%Q.
Proof.
  intros w h. split; [reflexivity |]. split; [reflexivity |].
  intros L. revert L. unfold Qle. simpl. lia.
Qed.

(** The matrix of an Empty tile goes above 1 on any grid: two rows and
    two columns of Empty tiles give 4/3. *)
Lemma vacant_matrix_above_one :
  let ts := [mk_tile Empty 0 0 0; mk_tile Empty 0 1 1;
             mk_tile Empty 1 0 2; mk_tile Empty 1 1 3] in
  let w := fst (world_of 2 2 false ts) in
  let h := snd (world_of 2 2 false ts) in
  exists m, desirability_matrix w h 0%nat = Ok m /\
            In (2%nat, (8 # 6)%Q) m /\ ~ (8 # 6 <= 1)%Q.
Proof.
  intros ts w h. eexists. split; [reflexivity |]. split.
  - simpl. auto.
  - unfold Qle. simpl. lia.
Qed.

#[local] Transparent Z.mul.

(** ** [max] and [min] with a key *)

Lemma max_by_snd_first {A : Type} (l : list (A * Q)) :
  forall x : A * Q,
  exists pre e post,
    x :: l = pre ++ e :: post /\ max_by_snd x l = e /\
    (forall y, In y pre -> (snd y < snd e)%Q) /\
    (forall y, In y post -> (snd y <= snd e)%Q) /\
    (snd x <= snd e)%Q.
Proof.
  induction l as [| y l IH]; intros x.
  - exists [], x, []. simpl.
    split; [reflexivity |]. split; [reflexivity |].
    split; [intros ? [] |]. split; [intros ? [] | apply Qle_refl].
  - simpl. destruct (Qlt_le_dec (snd x) (snd y)) as [Lt | Le].
    + destruct (IH y) as (pre & e & post & D & M & Hpre & Hpost & Hy).
      exists (x :: pre), e, post. simpl. rewrite D.
      split; [reflexivity |]. split; [exact M |].
      split; [| split; [exact Hpost |]].
      * intros z [<- | Hz]; [eapply Qlt_le_trans; eauto | auto].
      * apply Qlt_le_weak. eapply Qlt_le_trans; eauto.
    + destruct (IH x) as (pre & e & post & D & M & Hpre & Hpost & Hx).
      destruct pre as [| x' pre]; simpl in D; injection D as Ex D.
      * subst e post. exists [], x, (y :: l). simpl.
        split; [reflexivity |]. split; [exact M |].
        split; [intros ? [] |]. split; [| apply Qle_refl].
        intros z [<- | Hz]; [exact Le | auto].
      * subst x' l. exists (x :: y :: pre), e, post. simpl.
        split; [reflexivity |]. split; [exact M |].
        split; [| split; [exact Hpost | exact Hx]].
        assert (Hxe : (snd x < snd e)%Q)
          by (apply Hpre; left; reflexivity).
        intros z [<- | [<- | Hz]].
        -- exact Hxe.
        -- eapply Qle_lt_trans; [exact Le | exact Hxe].
        -- apply Hpre. right. exact Hz.
Qed.

Lemma min_by_snd_least {A : Type} (l : list (A * Q)) :
  forall x : A * Q,
    In (min_by_snd x l) (x :: l) /\
    forall y, In y (x :: l) -> (snd (min_by_snd x l) <= snd y)%Q.
Proof.
  induction l as [| y l IH]; intros x.
  - simpl. split; [auto |]. intros z [<- | []]. apply Qle_refl.
  - simpl. destruct (Qlt_le_dec (snd y) (snd x)) as [Lt | Le].
    + destruct (IH y) as [Hin Hle]. split.
      * right. exact Hin.
      * intros z [<- | Hz]; [| auto].
        apply Qlt_le_weak. eapply Qle_lt_trans; [| exact Lt].
        apply Hle. left. reflexivity.
    + destruct (IH x) as [Hin Hle]. split.
      * destruct Hin as [E | Hin]; [left; exact E | right; right; exact Hin].
      * intros z [<- | [<- | Hz]].
        -- apply Hle. left. reflexivity.
        -- eapply Qle_trans; [| exact Le]. apply Hle. left. reflexivity.
        -- apply Hle. right. exact Hz.
Qed.

(** ** The move proposal *)

(** C3, as the code has it.  An Empty tile proposes nothing.  For an
    occupied tile whose self-desirability [s] and desirability matrix [m]
    are defined: [m] lists the Empty neighbours in the order of
    [tile_neighbours]; with no Empty neighbour there is no proposal;
    otherwise the entry chosen is the first one with the largest score
    [q], and it is proposed exactly when [s < q]. *)
Theorem wants_to_move_to_first_maximum
        (w : World) (h : Heap) (t : ref) (s : Q) (m : list (ref * Q)) :
  (tile_type (h t) = Empty -> wants_to_move_to_tile w h t = Ok None) /\
  (tile_type (h t) <> Empty ->
   tile_desirability w h t (tile_type (h t)) true = Ok s ->
   desirability_matrix w h t = Ok m ->
   map fst m = filter (fun n => TileType_eqb (tile_type (h n)) Empty)
                      (tile_neighbours w h t) /\
   (m = [] -> wants_to_move_to_tile w h t = Ok None) /\
   (m <> [] ->
    exists pre d q post,
      m = pre ++ (d, q) :: post /\
      (forall y, In y pre -> (snd y < q)%Q) /\
      (forall y, In y post -> (snd y <= q)%Q) /\
      ((s < q)%Q -> wants_to_move_to_tile w h t = Ok (Some d)) /\
      (~ (s < q)%Q -> wants_to_move_to_tile w h t = Ok None))).
Proof.
  split.
  - intros E. unfold wants_to_move_to_tile. rewrite E. reflexivity.
  - intros N Es Em.
    apply TileType_eqb_neq in N.
    split; [apply desirability_matrix_fst; exact Em |].
    unfold wants_to_move_to_tile. rewrite N, Es, Em. simpl.
    split.
    + intros ->. reflexivity.
    + intros Hm. destruct m as [| x l]; [congruence |].
      destruct (max_by_snd_first l x) as (pre & [d q] & post & D & M & Hpre & Hpost & _).
      exists pre, d, q, post. rewrite M. simpl in *.
      repeat split; auto.
      * intros Lt. destruct (Qlt_le_dec s q) as [_ | Le]; [reflexivity |].
        exfalso. eapply Qlt_not_le; eauto.
      * intros NLt. destruct (Qlt_le_dec s q) as [Lt | _]; [contradiction | reflexivity].
Qed.

Lemma wants_to_move_to_first_maximum_witness :
  let w := fst (world_of 3 3 false tiles_9) in
  let h := snd (world_of 3 3 false tiles_9) in
  let m := [(6%nat, (3 # 6)%Q); (7%nat, (5 # 10)%Q);
            (4%nat, (6 # 16)%Q); (1%nat, (3 # 10)%Q)] in
  tile_type (h 1%nat) = Empty /\
  tile_type (h 3%nat) <> Empty /\
  tile_desirability w h 3%nat (tile_type (h 3%nat)) true = Ok (2 # 10)%Q /\
  desirability_matrix w h 3%nat = Ok m /\
  m <> [] /\
  wants_to_move_to_tile w h 1%nat = Ok None /\
  exists pre d q post,
    m = pre ++ (d, q) :: post /\
    (forall y, In y pre -> (snd y < q)%Q) /\
    (forall y, In y post -> (snd y <= q)%Q) /\
    ((2 # 10 < q)%Q -> wants_to_move_to_tile w h 3%nat = Ok (Some d)) /\
    (~ (2 # 10 < q)%Q -> wants_to_move_to_tile w h 3%nat = Ok None).
Proof.
  intros w h m.
  assert (V : tile_type (h 1%nat) = Empty) by reflexivity.
  assert (T : tile_type (h 3%nat) <> Empty) by discriminate.
  assert (S : tile_desirability w h 3%nat (tile_type (h 3%nat)) true = Ok (2 # 10)%Q)
    by reflexivity.
  assert (M : desirability_matrix w h 3%nat = Ok m) by reflexivity.
  assert (N : m <> []) by discriminate.
  destruct (wants_to_move_to_first_maximum w h 3%nat (2 # 10)%Q m) as [_ Occ].
  destruct (wants_to_move_to_first_maximum w h 1%nat 0%Q []) as [Vac _].
  destruct (Occ T S M) as (_ & _ & First).
  exact (conj V (conj T (conj S (conj M (conj N (conj (Vac V) (First N))))))).
Defined.

(** With two Empty neighbours tied for the largest score, the one that
    comes first among the neighbours is proposed. *)
Lemma wants_to_move_tie_takes_first :
  let w := fst (world_of 3 3 false tiles_9) in
  let h := snd (world_of 3 3 false tiles_9) in
  wants_to_move_to_tile w h 3%nat = Ok (Some 6%nat).
Proof. reflexivity. Qed.

(** C3, the claim as worded fails.  The only tile of the world of one
    row and one column is Green and has no Empty neighbour, yet the call
    does not return "no destination": the self-desirability it computes
    first divides by zero. *)
Lemma wants_to_move_raises :
  let w := fst (world_of 1 1 false [mk_tile Green 0 0 0]) in
  let h := snd (world_of 1 1 false [mk_tile Green 0 0 0]) in
  tile_type (h 0%nat) = Green /\
  filter (fun n => TileType_eqb (tile_type (h n)) Empty) (tile_neighbours w h 0%nat) = [] /\
  wants_to_move_to_tile w h 0%nat = Raise ZeroDivisionError /\
  wants_to_move_to_tile w h 0%nat <> Ok None.
Proof. vm_compute. repeat split; discriminate. Qed.

(** ** Construction *)

Lemma fold_left_Raise {A B : Type} (f : result A -> B -> result A)
      (l : list B) (e : error) :
  (forall b, f (Raise e) b = Raise e) -> fold_left f l (Raise e) = Raise e.
Proof.
  intros F. induction l as [| b l IH]; simpl; [reflexivity |].
  rewrite F. exact IH.
Qed.


Lemma norm_weight_prob_raises (twd : list (TileType * Z)) :
  twd <> [] -> fold_left Z.add (dict_values twd) 0 = 0 ->
  _norm_weight_prob twd = Raise ZeroDivisionError.
Proof.
  intros N Z0. unfold _norm_weight_prob. rewrite Z0.
  destruct twd as [| tv l]; [congruence |]. simpl.
  rewrite fold_left_Raise; [reflexivity |]. reflexivity.
Qed.



(** A table that is not empty and adds up to zero stops the constructor
    in the weight normaliser. *)
Lemma World_init_zero_sum (rows cols : Z) (centered : bool)
      (tile_weights : list (TileType * Z))
      (tiles : option (list Tile)) (rand : nat -> Q) :
  tile_weights <> [] -> fold_left Z.add (dict_values tile_weights) 0 = 0 ->
  World_init rows cols centered tile_weights tiles rand = Raise ZeroDivisionError.
Proof.
  intros N Z0. unfold World_init, RandomTileTypeGenerator_init.
  rewrite (norm_weight_prob_raises tile_weights N Z0). reflexivity.
Qed.


(** ** Dictionaries whose keys are told apart *)

Section DictFacts.
Context {K V : Type}.
Variable same_key : K -> K -> bool.
Variable k : K.

Lemma told_apart_tail (e : K * V) (d : list (K * V)) :
  told_apart same_key (e :: d) k -> told_apart same_key d k.
Proof. intros T k' Hin. apply T. right. exact Hin. Qed.

Lemma dict_set_new (d : list (K * V)) (v : V) :
  told_apart same_key d k -> ~ In k (dict_keys d) ->
  dict_set same_key d k v = d ++ [(k, v)].
Proof.
  induction d as [| [k' v'] d' IH]; simpl; intros Hk N.
  - reflexivity.
  - destruct (same_key k' k) eqn:E.
    + exfalso. apply N. left. apply Hk; simpl; auto.
    + f_equal. apply IH; [eapply told_apart_tail; eauto | auto].
Qed.

Lemma dict_set_keys (d : list (K * V)) (v : V) :
  told_apart same_key d k -> In k (dict_keys d) ->
  dict_keys (dict_set same_key d k v) = dict_keys d.
Proof.
  induction d as [| [k' v'] d' IH]; simpl; intros Hk Hin.
  - destruct Hin.
  - destruct (same_key k' k) eqn:E; simpl; [reflexivity |].
    f_equal. apply IH; [eapply told_apart_tail; eauto |].
    destruct Hin as [-> | Hin]; [| exact Hin].
    exfalso. assert (T : same_key k k = true) by (apply Hk; simpl; auto).
    congruence.
Qed.

Lemma dict_get_Some_In (d : list (K * V)) (v : V) :
  told_apart same_key d k -> dict_get same_key d k = Some v -> In (k, v) d.
Proof.
  induction d as [| [k' v'] d' IH]; simpl; intros Hk G.
  - discriminate.
  - destruct (same_key k' k) eqn:E.
    + apply Hk in E; [| simpl; auto]. injection G as ->. left. congruence.
    + right. apply IH; [eapply told_apart_tail; eauto | exact G].
Qed.

Lemma dict_get_defined (d : list (K * V)) :
  told_apart same_key d k -> In k (dict_keys d) -> exists v, dict_get same_key d k = Some v.
Proof.
  induction d as [| [k' v'] d' IH]; simpl; intros Hk Hin.
  - destruct Hin.
  - destruct (same_key k' k) eqn:E; [eauto |].
    apply IH; [eapply told_apart_tail; eauto |].
    destruct Hin as [-> | Hin]; [| exact Hin].
    exfalso. assert (T : same_key k k = true) by (apply Hk; simpl; auto).
    congruence.
Qed.

Lemma dict_set_In (d : list (K * V)) (v : V) (k1 : K) (v1 : V) :
  told_apart same_key d k -> NoDup (dict_keys d) ->
  In (k1, v1) (dict_set same_key d k v) ->
  (k1 = k /\ v1 = v) \/ (k1 <> k /\ In (k1, v1) d).
Proof.
  induction d as [| [k' v'] d' IH]; simpl; intros Hk ND H1.
  - destruct H1 as [E | []]. injection E as <- <-. auto.
  - inversion ND as [| ? ? Hn ND']; subst.
    destruct (same_key k' k) eqn:E.
    + apply Hk in E; [| simpl; auto]. subst k'.
      destruct H1 as [E1 | H1].
      * injection E1 as <- <-. auto.
      * right. split; [| auto]. intros ->. apply Hn.
        change k with (fst (k, v1)). apply in_map. exact H1.
    + destruct H1 as [E1 | H1].
      * injection E1 as <- <-. right. split; [| auto].
        intros ->. assert (T : same_key k k = true) by (apply Hk; simpl; auto).
        congruence.
      * destruct (IH (told_apart_tail _ _ Hk) ND' H1) as [A | [A B]]; auto.
Qed.
End DictFacts.

(** ** Groups of proposals *)

Lemma proposers_of_In (d : ref) (l : list proposal) (y : proposal) :
  In y (proposers_of d l) <-> In y l /\ dest y = d.
Proof.
  unfold proposers_of. rewrite filter_In, Nat.eqb_eq. reflexivity.
Qed.

Lemma proposers_of_app (d : ref) (l1 l2 : list proposal) :
  proposers_of d (l1 ++ l2) = proposers_of d l1 ++ proposers_of d l2.
Proof. apply filter_app. Qed.

Lemma proposers_of_cons_same (x : proposal) (l : list proposal) :
  proposers_of (dest x) (x :: l) = x :: proposers_of (dest x) l.
Proof. unfold proposers_of. simpl. rewrite Nat.eqb_refl. reflexivity. Qed.

Lemma proposers_of_cons_other (d : ref) (x : proposal) (l : list proposal) :
  dest x <> d -> proposers_of d (x :: l) = proposers_of d l.
Proof.
  intros N. unfold proposers_of. simpl.
  apply Nat.eqb_neq in N. rewrite N. reflexivity.
Qed.

Lemma proposers_of_nil_iff (d : ref) (l : list proposal) :
  proposers_of d l = [] <-> ~ In d (map dest l).
Proof.
  split.
  - intros E Hin. apply in_map_iff in Hin. destruct Hin as [y [Ey Hy]].
    assert (H : In y (proposers_of d l)) by (apply proposers_of_In; auto).
    rewrite E in H. destruct H.
  - intros N. destruct (proposers_of d l) as [| y g] eqn:E; [reflexivity |].
    exfalso. apply N.
    assert (H : In y (proposers_of d l)) by (rewrite E; left; reflexivity).
    apply proposers_of_In in H. destruct H as [H <-]. apply in_map. exact H.
Qed.

Lemma proposers_of_Permutation (d : ref) (l l' : list proposal) :
  Permutation l l' -> Permutation (proposers_of d l) (proposers_of d l').
Proof.
  induction 1; unfold proposers_of in *; simpl.
  - constructor.
  - destruct (Nat.eqb (dest x) d); [constructor |]; assumption.
  - destruct (Nat.eqb (dest x) d), (Nat.eqb (dest y) d);
      try constructor; apply Permutation_refl.
  - etransitivity; eassumption.
Qed.

(** ** [unique_min_des] *)

Lemma unique_min_des_total (c : list (ref * Q)) :
  c <> [] -> exists r, unique_min_des c = Ok r.
Proof.
  destruct c as [| x l]; [congruence |]. intros _. unfold unique_min_des.
  destruct (1 <? _)%nat; eauto.
Qed.

Lemma filter_length_Permutation {A : Type} (f : A -> bool) (l l' : list A) :
  Permutation l l' -> length (filter f l) = length (filter f l').
Proof.
  induction 1; simpl.
  - reflexivity.
  - destruct (f x); simpl; congruence.
  - destruct (f x), (f y); reflexivity.
  - congruence.
Qed.

Lemma filter_nil_iff {A : Type} (f : A -> bool) (l : list A) :
  filter f l = [] <-> forall y, In y l -> f y = false.
Proof.
  induction l as [| x l IH]; simpl.
  - split; [intros _ ? [] | reflexivity].
  - destruct (f x) eqn:E.
    + split; [discriminate |]. intros H. specialize (H x (or_introl eq_refl)). congruence.
    + rewrite IH. split.
      * intros H y [<- | Hy]; auto.
      * intros H y Hy. apply H. right. exact Hy.
Qed.

Lemma unique_min_des_Some (c : list (ref * Q)) (u : ref) :
  unique_min_des c = Ok (Some u) <->
  exists s others,
    Permutation c ((u, s) :: others) /\
    forall y, In y others -> (s < snd y)%Q.
Proof.
  destruct c as [| x l].
  { split; [discriminate |]. intros (s & o & P & _).
    apply Permutation_nil in P. discriminate. }
  unfold unique_min_des.
  destruct (min_by_snd_least l x) as [Hin Hle].
  set (m := min_by_snd x l) in *.
  set (f := fun t : ref * Q => Qeq_bool (snd t) (snd m)).
  rewrite length_map.
  split.
  - intros E.
    destruct (Nat.ltb_spec 1 (length (filter f (x :: l)))) as [| Le]; [discriminate |].
    injection E as <-.
    destruct (in_split _ _ Hin) as (l1 & l2 & D).
    exists (snd m), (l1 ++ l2). split.
    + rewrite D. rewrite <- surjective_pairing. symmetry. apply Permutation_middle.
    + intros y Hy.
      assert (Fy : f y = false).
      { rewrite D, filter_app in Le. simpl in Le.
        assert (Fm : f m = true) by (apply Qeq_bool_iff; reflexivity).
        rewrite Fm in Le. rewrite length_app in Le. simpl in Le.
        assert (Z1 : filter f l1 = []) by (destruct (filter f l1); [reflexivity | simpl in Le; lia]).
        assert (Z2 : filter f l2 = []) by (destruct (filter f l2); [reflexivity | simpl in Le; lia]).
        apply in_app_or in Hy. destruct Hy as [Hy | Hy].
        - eapply filter_nil_iff in Z1; eauto.
        - eapply filter_nil_iff in Z2; eauto. }
      assert (Ly : (snd m <= snd y)%Q).
      { apply Hle. rewrite D. apply in_or_app. apply in_app_or in Hy.
        destruct Hy; [left | right; right]; assumption. }
      apply Qle_lt_or_eq in Ly. destruct Ly as [Lt | Eq]; [exact Lt |].
      exfalso. unfold f in Fy.
      assert (T : Qeq_bool (snd y) (snd m) = true)
        by (apply Qeq_bool_iff; symmetry; exact Eq).
      congruence.
  - intros (s & others & P & Above).
    assert (Em : m = (u, s)).
    { assert (Hm : In m ((u, s) :: others)) by (eapply Permutation_in; eauto).
      destruct Hm as [E | Hm]; [symmetry; exact E |].
      exfalso. specialize (Above m Hm).
      assert (L : (snd m <= s)%Q).
      { change s with (snd (u, s)). apply Hle.
        eapply Permutation_in; [symmetry; exact P | left; reflexivity]. }
      eapply Qlt_not_le; eauto. }
    rewrite (filter_length_Permutation f _ _ P). simpl.
    assert (Fu : f (u, s) = true) by (unfold f; rewrite Em; apply Qeq_bool_iff; reflexivity).
    rewrite Fu.
    assert (Z : filter f others = []).
    { apply filter_nil_iff. intros y Hy. unfold f. rewrite Em. simpl.
      destruct (Qeq_bool (snd y) s) eqn:E; [| reflexivity].
      apply Qeq_bool_iff in E. specialize (Above y Hy).
      rewrite E in Above. exfalso. eapply Qlt_irrefl; eauto. }
    rewrite Z. simpl. rewrite Em. reflexivity.
Qed.

(** ** The loop of [rem_dups] *)

Section RemDupsLoop.
Variable py_hash : Z * Z -> Z.
Variable h : Heap.
Variable mm : list proposal.
Hypothesis Hdistinct : distinct_dests h mm.

Lemma dests_told_apart (a b : ref) :
  In a (map dest mm) -> In b (map dest mm) ->
  Tile_eq (h a) (h b) = true -> a = b.
Proof.
  intros Ha Hb E. apply in_map_iff in Ha, Hb.
  destruct Ha as [x [<- Hx]], Hb as [y [<- Hy]]. apply Hdistinct; assumption.
Qed.

Lemma tile_in_iff (x : ref) (l : list ref) :
  In x (map dest mm) -> (forall e, In e l -> In e (map dest mm)) ->
  tile_in h x l = true <-> In x l.
Proof.
  intros Hx Hl. unfold tile_in. rewrite existsb_exists. split.
  - intros [e [He E]]. rewrite <- (dests_told_apart e x); auto.
  - intros Hin. exists x. split; [exact Hin | apply Tile_eq_refl].
Qed.

Lemma conflicts_told_apart (cs : list (ref * list (ref * Q))) (d : ref) :
  In d (map dest mm) -> (forall e, In e (dict_keys cs) -> In e (map dest mm)) ->
  told_apart (same_tile_key py_hash h) cs d.
Proof.
  intros Hd Hk k' Hin. unfold same_tile_key. split.
  - intros E. apply andb_true_iff in E. destruct E as [_ E].
    apply dests_told_apart; auto.
  - intros ->. rewrite Z.eqb_refl, Tile_eq_refl. reflexivity.
Qed.

Lemma group_in_dests (d : ref) (l1 l2 : list proposal) :
  mm = l1 ++ l2 -> proposers_of d l2 <> [] -> In d (map dest mm).
Proof.
  intros -> N. destruct (proposers_of d l2) as [| y g] eqn:E; [congruence |].
  assert (H : In y (proposers_of d l2)) by (rewrite E; left; reflexivity).
  apply proposers_of_In in H. destruct H as [H <-].
  apply in_map. apply in_or_app. right. exact H.
Qed.

Lemma known_in_dests (done : list proposal) (st : rd_state) (l1 : list proposal) :
  mm = l1 ++ done -> rd_inv mm done st ->
  forall e, In e (known_duplicates st) -> In e (map dest mm).
Proof.
  intros E I e He. apply (inv_known _ _ _ I) in He. destruct He as [N _].
  eapply group_in_dests; eauto.
Qed.

Lemma group_entries_cons_same (x : proposal) (done : list proposal) :
  group_entries (dest x) (x :: done) = group_entries (dest x) done ++ [fst x].
Proof.
  unfold group_entries. rewrite proposers_of_cons_same. simpl.
  rewrite map_app. reflexivity.
Qed.

Lemma group_entries_cons_other (d : ref) (x : proposal) (done : list proposal) :
  dest x <> d -> group_entries d (x :: done) = group_entries d done.
Proof.
  intros N. unfold group_entries. rewrite proposers_of_cons_other by exact N.
  reflexivity.
Qed.

Lemma group_length (x : proposal) (rest done : list proposal) :
  mm = rev rest ++ x :: done ->
  length (proposers_of (dest x) mm) =
  (length (proposers_of (dest x) (rev rest)) + S (length (proposers_of (dest x) done)))%nat.
Proof.
  intros ->. rewrite proposers_of_app, proposers_of_cons_same, length_app.
  reflexivity.
Qed.

(** A destination met again: the proposal joins its list. *)
Lemma rd_inv_known (x : proposal) (rest done : list proposal) (st : rd_state)
      (c : list (ref * Q)) :
  mm = rev rest ++ x :: done -> rd_inv mm done st ->
  In (dest x) (known_duplicates st) ->
  In (dest x, c) (conflicts st) ->
  rd_inv mm (x :: done)
    {| known_duplicates := known_duplicates st;
       non_duplicates := non_duplicates st;
       conflicts := dict_set (same_tile_key py_hash h) (conflicts st)
                             (dest x) (c ++ [fst x]) |}.
Proof.
  intros E I Hk Hc.
  assert (Hd : In (dest x) (map dest mm))
    by (rewrite E; apply in_map, in_or_app; right; left; reflexivity).
  assert (TA : told_apart (same_tile_key py_hash h) (conflicts st) (dest x)).
  { apply conflicts_told_apart; [exact Hd |].
    rewrite (inv_keys _ _ _ I).
    apply (known_in_dests done st (rev rest ++ [x])); [| exact I].
    rewrite E, <- app_assoc. reflexivity. }
  pose proof (proj1 (inv_known _ _ _ I (dest x)) Hk) as [Gne G2].
  constructor; cbn [known_duplicates non_duplicates conflicts].
  - rewrite dict_set_keys; [apply (inv_keys _ _ _ I) | exact TA |].
    rewrite (inv_keys _ _ _ I). exact Hk.
  - apply (inv_known_nodup _ _ _ I).
  - intros d. destruct (Nat.eq_dec (dest x) d) as [<- | N].
    + rewrite proposers_of_cons_same. split; [| intros _; exact Hk].
      intros _. split; [discriminate | exact G2].
    + rewrite proposers_of_cons_other by exact N. apply (inv_known _ _ _ I).
  - intros d c' Hin.
    apply dict_set_In in Hin;
      [| exact TA | rewrite (inv_keys _ _ _ I); apply (inv_known_nodup _ _ _ I)].
    destruct Hin as [[-> ->] | [N Hin]].
    + rewrite group_entries_cons_same.
      rewrite <- (inv_conflicts _ _ _ I _ _ Hc). reflexivity.
    + rewrite group_entries_cons_other by congruence.
      apply (inv_conflicts _ _ _ I). exact Hin.
  - intros p d. rewrite (inv_non_dups _ _ _ I). split.
    + intros [s [G Hin]]. exists s. split; [exact G | right; exact Hin].
    + intros [s [G [Ex | Hin]]]; [| eauto].
      exfalso. subst x. simpl in G2. unfold dest in G2. simpl in G2.
      unfold dest in G. rewrite G in G2. simpl in G2. lia.
  - apply (inv_non_dups_nodup _ _ _ I).
Qed.

Lemma singleton_needs_one (x : proposal) (rest done : list proposal)
      (p : ref) (s : Q) (d : ref) :
  mm = rev rest ++ x :: done ->
  (2 <= length (proposers_of (dest x) mm))%nat ->
  proposers_of d mm = [((p, s), d)] -> ((p, s), d) <> x.
Proof.
  intros E G2 G Ex. subst x. unfold dest in G2. simpl in G2.
  unfold dest in G. rewrite G in G2. simpl in G2. lia.
Qed.

(** A destination met for the first time while another proposal for
    it is still in [mm]: it becomes a known duplicate. *)
Lemma rd_inv_new_duplicate (x : proposal) (rest done : list proposal)
      (st : rd_state) :
  mm = rev rest ++ x :: done -> rd_inv mm done st ->
  ~ In (dest x) (known_duplicates st) ->
  In (dest x) (map dest (rev rest)) ->
  rd_inv mm (x :: done)
    {| known_duplicates := known_duplicates st ++ [dest x];
       non_duplicates := non_duplicates st;
       conflicts := dict_set (same_tile_key py_hash h) (conflicts st)
                             (dest x) [fst x] |}.
Proof.
  intros E I Hk Hrest.
  assert (Hd : In (dest x) (map dest mm))
    by (rewrite E; apply in_map, in_or_app; right; left; reflexivity).
  assert (TA : told_apart (same_tile_key py_hash h) (conflicts st) (dest x)).
  { apply conflicts_told_apart; [exact Hd |].
    rewrite (inv_keys _ _ _ I).
    apply (known_in_dests done st (rev rest ++ [x])); [| exact I].
    rewrite E, <- app_assoc. reflexivity. }
  assert (G2 : (2 <= length (proposers_of (dest x) mm))%nat).
  { rewrite (group_length x rest done E).
    destruct (proposers_of (dest x) (rev rest)) eqn:Z; [| simpl; lia].
    apply proposers_of_nil_iff in Z. contradiction. }
  assert (G0 : proposers_of (dest x) done = []).
  { destruct (proposers_of (dest x) done) eqn:Z; [reflexivity |].
    exfalso. apply Hk. apply (inv_known _ _ _ I). split; [congruence | exact G2]. }
  rewrite dict_set_new; [| exact TA | rewrite (inv_keys _ _ _ I); exact Hk].
  constructor; cbn [known_duplicates non_duplicates conflicts].
  - unfold dict_keys. rewrite map_app. simpl.
    f_equal. apply (inv_keys _ _ _ I).
  - apply (Permutation_NoDup (l := dest x :: known_duplicates st)).
    + apply Permutation_cons_append.
    + constructor; [exact Hk | apply (inv_known_nodup _ _ _ I)].
  - intros d. rewrite in_app_iff. destruct (Nat.eq_dec (dest x) d) as [<- | N].
    + rewrite proposers_of_cons_same. split; [| intros _; right; left; reflexivity].
      intros _. split; [discriminate | exact G2].
    + rewrite proposers_of_cons_other by exact N.
      rewrite <- (inv_known _ _ _ I). split; [| auto].
      intros [H | [H | []]]; [exact H | contradiction].
  - intros d c' Hin. apply in_app_or in Hin. destruct Hin as [Hin | [Ein | []]].
    + assert (N : dest x <> d).
      { intros <-. apply Hk. rewrite <- (inv_keys _ _ _ I).
        change (dest x) with (fst (dest x, c')). apply in_map. exact Hin. }
      rewrite group_entries_cons_other by exact N.
      apply (inv_conflicts _ _ _ I). exact Hin.
    + injection Ein as <- <-. rewrite group_entries_cons_same.
      unfold group_entries. rewrite G0. reflexivity.
  - intros p d. rewrite (inv_non_dups _ _ _ I). split.
    + intros [s [G Hin]]. exists s. split; [exact G | right; exact Hin].
    + intros [s [G [Ex | Hin]]]; [| eauto].
      exfalso. symmetry in Ex. revert Ex.
      eapply singleton_needs_one; eauto.
  - apply (inv_non_dups_nodup _ _ _ I).
Qed.

(** A destination nobody else names: the proposal is accepted. *)
Lemma rd_inv_single (x : proposal) (rest done : list proposal) (st : rd_state) :
  mm = rev rest ++ x :: done -> rd_inv mm done st ->
  ~ In (dest x) (known_duplicates st) ->
  ~ In (dest x) (map dest (rev rest)) ->
  rd_inv mm (x :: done)
    {| known_duplicates := known_duplicates st;
       non_duplicates := non_duplicates st ++ [(proposer x, dest x)];
       conflicts := conflicts st |}.
Proof.
  intros E I Hk Hrest.
  apply proposers_of_nil_iff in Hrest.
  assert (G0 : proposers_of (dest x) done = []).
  { destruct (proposers_of (dest x) done) eqn:Z; [reflexivity |].
    exfalso. apply Hk. apply (inv_known _ _ _ I). split; [congruence |].
    rewrite (group_length x rest done E), Z. simpl. lia. }
  assert (G1 : proposers_of (dest x) mm = [x]).
  { rewrite E, proposers_of_app, proposers_of_cons_same, Hrest, G0. reflexivity. }
  constructor; cbn [known_duplicates non_duplicates conflicts].
  - apply (inv_keys _ _ _ I).
  - apply (inv_known_nodup _ _ _ I).
  - intros d. destruct (Nat.eq_dec (dest x) d) as [<- | N].
    + split; [contradiction |]. intros [_ G2]. rewrite G1 in G2. simpl in G2. lia.
    + rewrite proposers_of_cons_other by exact N. apply (inv_known _ _ _ I).
  - intros d c' Hin.
    assert (N : dest x <> d).
    { intros <-. apply Hk. rewrite <- (inv_keys _ _ _ I).
      change (dest x) with (fst (dest x, c')). apply in_map. exact Hin. }
    rewrite group_entries_cons_other by exact N.
    apply (inv_conflicts _ _ _ I). exact Hin.
  - intros p d. rewrite in_app_iff, (inv_non_dups _ _ _ I). split.
    + intros [[s [G Hin]] | [Ex | []]].
      * exists s. split; [exact G | right; exact Hin].
      * injection Ex as <- <-. exists (score x).
        assert (Eta : ((proposer x, score x), dest x) = x)
          by (destruct x as [[? ?] ?]; reflexivity).
        rewrite Eta. split; [exact G1 | left; reflexivity].
    + intros [s [G [Ex | Hin]]]; [| left; eauto].
      right. left. subst x. reflexivity.
  - rewrite map_app. simpl.
    apply (Permutation_NoDup (l := dest x :: map snd (non_duplicates st))).
    + apply Permutation_cons_append.
    + constructor; [| apply (inv_non_dups_nodup _ _ _ I)].
      intros Hin. apply in_map_iff in Hin. destruct Hin as [[p d] [Ed Hin]].
      simpl in Ed. subst d.
      apply (inv_non_dups _ _ _ I) in Hin. destruct Hin as [s [_ Hin]].
      assert (H : In ((p, s), dest x) (proposers_of (dest x) done))
        by (apply proposers_of_In; split; [exact Hin | reflexivity]).
      rewrite G0 in H. destruct H.
Qed.

Lemma rd_inv_init :
  rd_inv mm [] {| known_duplicates := []; non_duplicates := []; conflicts := [] |}.
Proof.
  constructor; cbn [known_duplicates non_duplicates conflicts].
  - reflexivity.
  - constructor.
  - intros d. simpl. split; [intros [] | intros [N _]; congruence].
  - intros d c [].
  - intros p d. simpl. split; [intros [] | intros [s [_ []]]].
  - constructor.
Qed.

Lemma rem_dups_loop_inv (rmm : list proposal) :
  forall (done : list proposal) (st : rd_state),
    mm = rev rmm ++ done -> rd_inv mm done st ->
    exists st', rem_dups_loop py_hash h rmm st = Ok st' /\ rd_inv mm mm st'.
Proof.
  induction rmm as [| x rest IH]; intros done st E I.
  - simpl in *. subst done. eauto.
  - simpl in E. rewrite <- app_assoc in E. simpl in E.
    assert (Hd : In (dest x) (map dest mm))
      by (rewrite E; apply in_map, in_or_app; right; left; reflexivity).
    assert (Hknown : forall e, In e (known_duplicates st) -> In e (map dest mm)).
    { apply (known_in_dests done st (rev rest ++ [x])); [| exact I].
      rewrite E, <- app_assoc. reflexivity. }
    simpl. change (snd x) with (dest x).
    destruct (tile_in h (dest x) (known_duplicates st)) eqn:T1.
    + apply tile_in_iff in T1; [| exact Hd | exact Hknown].
      assert (TA : told_apart (same_tile_key py_hash h) (conflicts st) (dest x)).
      { apply conflicts_told_apart; [exact Hd |].
        rewrite (inv_keys _ _ _ I). exact Hknown. }
      destruct (dict_get_defined (same_tile_key py_hash h) (dest x) (conflicts st) TA)
        as [c Ec]; [rewrite (inv_keys _ _ _ I); exact T1 |].
      rewrite Ec. apply (IH (x :: done)); [exact E |].
      apply (rd_inv_known x rest done st c E I T1).
      eapply dict_get_Some_In; eauto.
    + assert (N1 : ~ In (dest x) (known_duplicates st)).
      { intros Hin.
        assert (T : tile_in h (dest x) (known_duplicates st) = true)
          by (apply tile_in_iff; auto).
        congruence. }
      assert (Hrest : forall e, In e (map snd (rev rest)) -> In e (map dest mm)).
      { intros e He. rewrite E, map_app. apply in_or_app. left. exact He. }
      destruct (tile_in h (dest x) (map snd (rev rest))) eqn:T2.
      * apply tile_in_iff in T2; [| exact Hd | exact Hrest].
        apply (IH (x :: done)); [exact E |].
        apply (rd_inv_new_duplicate x rest done st E I N1 T2).
      * assert (N2 : ~ In (dest x) (map dest (rev rest))).
        { intros Hin.
          assert (T : tile_in h (dest x) (map snd (rev rest)) = true)
            by (apply tile_in_iff; auto).
          congruence. }
        apply (IH (x :: done)); [exact E |].
        apply (rd_inv_single x rest done st E I N1 N2).
Qed.
End RemDupsLoop.

(** ** The conflicts loop and the result of [rem_dups] *)

Lemma resolve_conflicts_picks (cs : list (ref * list (ref * Q))) :
  (forall t c, In (t, c) cs -> c <> []) ->
  forall nd,
  exists picked,
    resolve_conflicts cs nd = Ok (nd ++ picked) /\
    (forall p d, In (p, d) picked <->
                 exists c, In (d, c) cs /\ unique_min_des c = Ok (Some p)) /\
    (forall d, In d (map snd picked) -> In d (dict_keys cs)) /\
    (NoDup (dict_keys cs) -> NoDup (map snd picked)).
Proof.
  induction cs as [| [t c] cs IH]; intros Hne nd.
  - exists []. simpl. rewrite app_nil_r.
    split; [reflexivity |]. split; [| split].
    + intros p d. split; [intros [] | intros [c [[] _]]].
    + intros d [].
    + intros _. constructor.
  - assert (Hne' : forall t0 c0, In (t0, c0) cs -> c0 <> [])
      by (intros t0 c0 H; apply (Hne t0 c0); right; exact H).
    destruct (unique_min_des_total c) as [r Er]; [apply (Hne t c); left; reflexivity |].
    simpl. rewrite Er. simpl. destruct r as [u |].
    + destruct (IH Hne' (nd ++ [(u, t)])) as (picked & E & Hin & Hsub & Hnd).
      exists ((u, t) :: picked). rewrite E, <- app_assoc. simpl.
      split; [reflexivity |]. split; [| split].
      * intros p d. split.
        -- intros [Eq | H].
           ++ injection Eq as <- <-. exists c. auto.
           ++ apply Hin in H. destruct H as [c0 [H0 U0]]. exists c0. auto.
        -- intros [c0 [[Eq | H0] U0]].
           ++ injection Eq as <- <-. left. congruence.
           ++ right. apply Hin. eauto.
      * intros d [<- | H]; [left; reflexivity | right; apply Hsub; exact H].
      * intros ND. inversion ND as [| ? ? Hn ND']; subst.
        constructor; [| apply Hnd; exact ND'].
        intros H. apply Hn. apply Hsub. exact H.
    + destruct (IH Hne' nd) as (picked & E & Hin & Hsub & Hnd).
      exists picked. split; [exact E |]. split; [| split].
      * intros p d. rewrite Hin. split.
        -- intros [c0 [H0 U0]]. exists c0. auto.
        -- intros [c0 [[Eq | H0] U0]]; [| eauto].
           injection Eq as <- <-. congruence.
      * intros d H. right. apply Hsub. exact H.
      * intros ND. inversion ND; subst. apply Hnd. assumption.
Qed.

Section RemDupsResult.
Variable py_hash : Z * Z -> Z.
Variable h : Heap.
Variable mm : list proposal.
Hypothesis Hdistinct : distinct_dests h mm.

Lemma group_split (x : proposal) (others : list proposal) :
  Permutation mm (x :: others) ->
  Permutation (proposers_of (dest x) mm) (x :: proposers_of (dest x) others).
Proof.
  intros P. rewrite <- proposers_of_cons_same.
  apply proposers_of_Permutation. exact P.
Qed.

Lemma group_entries_split (x : proposal) (others : list proposal) :
  Permutation mm (x :: others) ->
  Permutation (group_entries (dest x) mm)
              (fst x :: map fst (proposers_of (dest x) others)).
Proof.
  intros P. unfold group_entries.
  change (fst x :: map fst (proposers_of (dest x) others))
    with (map fst (x :: proposers_of (dest x) others)).
  apply Permutation_map.
  etransitivity; [symmetry; apply Permutation_rev | apply group_split; exact P].
Qed.

Lemma rem_dups_accepts :
  exists acc,
    rem_dups py_hash h mm = Ok acc /\
    NoDup (map snd acc) /\
    forall p d,
      In (p, d) acc <->
      exists s others,
        Permutation mm (((p, s), d) :: others) /\
        others_above ((p, s), d) others.
Proof.
  unfold rem_dups.
  destruct (rem_dups_loop_inv py_hash h mm Hdistinct (rev mm) []
              {| known_duplicates := []; non_duplicates := []; conflicts := [] |})
    as (st & Est & I).
  { rewrite rev_involutive, app_nil_r. reflexivity. }
  { apply rd_inv_init. }
  rewrite Est. simpl.
  assert (Hne : forall t c, In (t, c) (conflicts st) -> c <> []).
  { intros t c Hin.
    assert (Hk : In t (known_duplicates st)).
    { rewrite <- (inv_keys _ _ _ I). change t with (fst (t, c)).
      apply in_map. exact Hin. }
    apply (inv_known _ _ _ I) in Hk. destruct Hk as [Gne _].
    rewrite (inv_conflicts _ _ _ I _ _ Hin). unfold group_entries.
    intros Z. apply map_eq_nil in Z.
    apply (f_equal (@rev proposal)) in Z. rewrite rev_involutive in Z.
    exact (Gne Z). }
  destruct (resolve_conflicts_picks (conflicts st) Hne (non_duplicates st))
    as (picked & E & Hin & Hsub & Hnd).
  exists (non_duplicates st ++ picked). split; [exact E |]. split.
  - rewrite map_app. apply NoDup_app.
    + apply (inv_non_dups_nodup _ _ _ I).
    + apply Hnd. rewrite (inv_keys _ _ _ I). apply (inv_known_nodup _ _ _ I).
    + intros d H1 H2. apply in_map_iff in H1. destruct H1 as [[p d'] [Ed H1]].
      simpl in Ed. subst d'.
      apply (inv_non_dups _ _ _ I) in H1. destruct H1 as [s [G _]].
      apply Hsub in H2. rewrite (inv_keys _ _ _ I) in H2.
      apply (inv_known _ _ _ I) in H2. destruct H2 as [_ G2].
      rewrite G in G2. simpl in G2. lia.
  - intros p d. rewrite in_app_iff. split.
    + intros [H1 | H2].
      * apply (inv_non_dups _ _ _ I) in H1. destruct H1 as [s [G Hmm]].
        destruct (in_split _ _ Hmm) as (l1 & l2 & D).
        exists s, (l1 ++ l2).
        assert (P : Permutation mm (((p, s), d) :: l1 ++ l2))
          by (rewrite D; symmetry; apply Permutation_middle).
        split; [exact P |].
        intros y Hy Ey. exfalso.
        pose proof (group_split _ _ P) as PG.
        change (dest ((p, s), d)) with d in PG. rewrite G in PG.
        apply Permutation_length in PG. simpl in PG.
        assert (Hy' : In y (proposers_of d (l1 ++ l2)))
          by (apply proposers_of_In; auto).
        destruct (proposers_of d (l1 ++ l2)); [destruct Hy' | simpl in PG; lia].
      * apply Hin in H2. destruct H2 as [c [Hc U]].
        pose proof (inv_conflicts _ _ _ I _ _ Hc) as Ec.
        apply unique_min_des_Some in U. destruct U as (s & o & Pc & Above).
        assert (Hps : In (p, s) c)
          by (eapply Permutation_in; [symmetry; exact Pc | left; reflexivity]).
        rewrite Ec in Hps. unfold group_entries in Hps.
        apply in_map_iff in Hps. destruct Hps as [x [Ex Hx]].
        apply in_rev in Hx. apply proposers_of_In in Hx. destruct Hx as [Hx Dx].
        assert (Eta : x = ((p, s), d))
          by (destruct x as [[? ?] ?]; simpl in *; unfold dest in Dx; simpl in Dx; congruence).
        subst x.
        destruct (in_split _ _ Hx) as (l1 & l2 & D).
        exists s, (l1 ++ l2).
        assert (P : Permutation mm (((p, s), d) :: l1 ++ l2))
          by (rewrite D; symmetry; apply Permutation_middle).
        split; [exact P |].
        intros y Hy Ey.
        pose proof (group_entries_split _ _ P) as PG.
        change (dest ((p, s), d)) with d in PG. simpl in PG.
        rewrite <- Ec in PG.
        assert (Po : Permutation (map fst (proposers_of d (l1 ++ l2))) o).
        { apply Permutation_cons_inv with (a := (p, s)).
          etransitivity; [symmetry; exact PG | exact Pc]. }
        apply (Above (fst y)).
        eapply Permutation_in; [exact Po |].
        apply in_map. apply proposers_of_In. auto.
    + intros (s & others & P & Above).
      pose proof (group_split _ _ P) as PG.
      change (dest ((p, s), d)) with d in PG.
      assert (Hmm : In ((p, s), d) mm)
        by (eapply Permutation_in; [symmetry; exact P | left; reflexivity]).
      destruct (proposers_of d others) as [| y g] eqn:Go.
      * left. apply (inv_non_dups _ _ _ I). exists s. split; [| exact Hmm].
        apply Permutation_sym, Permutation_length_1_inv in PG. exact PG.
      * right. apply Hin.
        assert (Hk : In d (known_duplicates st)).
        { apply (inv_known _ _ _ I). split.
          - intros Z. rewrite Z in PG. apply Permutation_nil in PG. discriminate.
          - apply Permutation_length in PG. rewrite PG. simpl. lia. }
        rewrite <- (inv_keys _ _ _ I) in Hk. apply in_map_iff in Hk.
        destruct Hk as [[d' c] [Ed Hc]]. simpl in Ed. subst d'.
        exists c. split; [exact Hc |].
        apply unique_min_des_Some.
        exists s, (map fst (proposers_of d others)). split.
        -- rewrite (inv_conflicts _ _ _ I _ _ Hc).
           apply (group_entries_split _ _ P).
        -- intros e He. apply in_map_iff in He. destruct He as [z [<- Hz]].
           apply proposers_of_In in Hz. destruct Hz as [Hz Dz].
           apply (Above z Hz). exact Dz.
Qed.
End RemDupsResult.

Lemma split_Permutation {A : Type} (l l1 l2 : list A) (x : A) :
  l = l1 ++ x :: l2 -> Permutation l (x :: l1 ++ l2).
Proof. intros ->. symmetry. apply Permutation_middle. Qed.




Example rem_dups_proposals_3 :
  rem_dups pair_hash (heap_of_list tiles_5) proposals_3
  = Ok [(3%nat, 4%nat); (2%nat, 1%nat)].
Proof. reflexivity. Qed.

(** ** Where the accepted pairs come from *)

Lemma dict_set_In_weak {K V : Type} (same_key : K -> K -> bool)
      (d : list (K * V)) (k : K) (v : V) (k1 : K) (v1 : V) :
  In (k1, v1) (dict_set same_key d k v) ->
  (v1 = v /\ (k1 = k \/ In k1 (dict_keys d))) \/ In (k1, v1) d.
Proof.
  induction d as [| [k' v'] d' IH]; simpl; intros H.
  - destruct H as [E | []]. injection E as <- <-. auto.
  - destruct (same_key k' k).
    + destruct H as [E | H]; [| auto].
      injection E as <- <-. left. auto.
    + destruct H as [E | H]; [auto |].
      destruct (IH H) as [[A [B | B]] | B]; auto.
Qed.

Lemma dict_get_Some_value {K V : Type} (same_key : K -> K -> bool)
      (d : list (K * V)) (k : K) (v : V) :
  dict_get same_key d k = Some v -> exists k', In (k', v) d.
Proof.
  induction d as [| [k' v'] d' IH]; simpl; intros H.
  - discriminate.
  - destruct (same_key k' k).
    + injection H as ->. eauto.
    + destruct (IH H) as [k0 H0]. eauto.
Qed.

Lemma unique_min_des_member (c : list (ref * Q)) (u : ref) :
  unique_min_des c = Ok (Some u) -> In u (map fst c).
Proof.
  destruct c as [| x l]; [discriminate |]. unfold unique_min_des.
  destruct (1 <? _)%nat; [discriminate |]. intros E. injection E as <-.
  apply in_map. apply (min_by_snd_least l x).
Qed.

Section Members.
Variable py_hash : Z * Z -> Z.
Variable h : Heap.
(** The tiles that may propose and those that may be asked for. *)
Variables P D : ref -> Prop.

Lemma rem_dups_loop_members (rmm : list proposal) :
  (forall x, In x rmm -> P (proposer x) /\ D (dest x)) ->
  forall st st',
    ((forall p d, In (p, d) (non_duplicates st) -> P p /\ D d) /\
     (forall k c, In (k, c) (conflicts st) ->
                  D k /\ forall e, In e c -> P (fst e))) ->
    rem_dups_loop py_hash h rmm st = Ok st' ->
    ((forall p d, In (p, d) (non_duplicates st') -> P p /\ D d) /\
     (forall k c, In (k, c) (conflicts st') ->
                  D k /\ forall e, In e c -> P (fst e))).
Proof.
  induction rmm as [| x rest IH]; intros Hx st st' M E.
  - simpl in E. injection E as <-. exact M.
  - destruct (Hx x (or_introl eq_refl)) as [Px Dx].
    assert (Hrest : forall y, In y rest -> P (proposer y) /\ D (dest y))
      by (intros y Hy; apply Hx; right; exact Hy).
    destruct M as [M1 M2]. simpl in E.
    destruct (tile_in h (snd x) (known_duplicates st)).
    + destruct (dict_get (same_tile_key py_hash h) (conflicts st) (snd x)) as [c |] eqn:G;
        [| discriminate].
      apply (IH Hrest _ _) in E; [exact E |].
      split; cbn [known_duplicates non_duplicates conflicts]; [exact M1 |].
      intros k c' Hin. apply dict_set_In_weak in Hin.
      destruct (dict_get_Some_value _ _ _ _ G) as [k0 Hk0].
      destruct Hin as [[-> Hk] | Hin]; [| apply (M2 k c' Hin)].
      split.
      * destruct Hk as [-> | Hk]; [exact Dx |].
        unfold dict_keys in Hk. apply in_map_iff in Hk.
        destruct Hk as [[k1 c1] [<- H1]]. apply (M2 k1 c1 H1).
      * intros e He. apply in_app_or in He. destruct He as [He | [<- | []]].
        -- apply (M2 k0 c Hk0). exact He.
        -- exact Px.
    + destruct (tile_in h (snd x) (map snd (rev rest))).
      * apply (IH Hrest _ _) in E; [exact E |].
        split; cbn [known_duplicates non_duplicates conflicts]; [exact M1 |].
        intros k c' Hin. apply dict_set_In_weak in Hin.
        destruct Hin as [[-> Hk] | Hin]; [| apply (M2 k c' Hin)].
        split.
        -- destruct Hk as [-> | Hk]; [exact Dx |].
           unfold dict_keys in Hk. apply in_map_iff in Hk.
           destruct Hk as [[k1 c1] [<- H1]]. apply (M2 k1 c1 H1).
        -- intros e [<- | []]. exact Px.
      * apply (IH Hrest _ _) in E; [exact E |].
        split; cbn [known_duplicates non_duplicates conflicts]; [| exact M2].
        intros p d Hin. apply in_app_or in Hin.
        destruct Hin as [Hin | [Eq | []]]; [apply (M1 p d Hin) |].
        injection Eq as <- <-. auto.
Qed.

Lemma resolve_conflicts_members (cs : list (ref * list (ref * Q))) :
  (forall k c, In (k, c) cs -> D k /\ forall e, In e c -> P (fst e)) ->
  forall nd acc,
    (forall p d, In (p, d) nd -> P p /\ D d) ->
    resolve_conflicts cs nd = Ok acc ->
    forall p d, In (p, d) acc -> P p /\ D d.
Proof.
  induction cs as [| [t c] cs IH]; intros Hcs nd acc Hnd E.
  - simpl in E. injection E as <-. exact Hnd.
  - simpl in E. apply bind_Ok in E. destruct E as [u [Eu E]].
    assert (Hcs' : forall k c0, In (k, c0) cs -> D k /\ forall e, In e c0 -> P (fst e))
      by (intros k c0 H; apply Hcs; right; exact H).
    destruct u as [u |].
    + apply (IH Hcs' (nd ++ [(u, t)]) acc); [| exact E].
      intros p d Hin. apply in_app_or in Hin.
      destruct Hin as [Hin | [Eq | []]]; [apply (Hnd p d Hin) |].
      injection Eq as <- <-.
      destruct (Hcs t c (or_introl eq_refl)) as [Dt Pc]. split; [| exact Dt].
      apply unique_min_des_member in Eu. apply in_map_iff in Eu.
      destruct Eu as [e [<- He]]. apply Pc. exact He.
    + apply (IH Hcs' nd acc Hnd E).
Qed.

Lemma rem_dups_members (mm : list proposal) (acc : list (ref * ref)) :
  (forall x, In x mm -> P (proposer x) /\ D (dest x)) ->
  rem_dups py_hash h mm = Ok acc ->
  forall p d, In (p, d) acc -> P p /\ D d.
Proof.
  intros Hmm E. unfold rem_dups in E.
  apply bind_Ok in E. destruct E as [st [Est E]].
  apply rem_dups_loop_members in Est.
  - destruct Est as [M1 M2].
    apply (resolve_conflicts_members (conflicts st) M2 _ _ M1 E).
  - intros x Hx. apply Hmm. apply in_rev. exact Hx.
  - split; simpl; [intros ? ? [] | intros ? ? []].
Qed.
End Members.

(** ** Proposers and destinations are stored tiles *)

Lemma filter_none_In {A : Type} (l : list (option A)) (a : A) :
  In a (filter_none l) <-> In (Some a) l.
Proof.
  induction l as [| [b |] l IH]; simpl.
  - reflexivity.
  - rewrite IH. split; intros [E | H]; auto; left; congruence.
  - rewrite IH. split; [auto | intros [E | H]; [discriminate | exact H]].
Qed.

Lemma dict_get_In_pair {K V : Type} (same_key : K -> K -> bool)
      (d : list (K * V)) (k : K) (v : V) :
  dict_get same_key d k = Some v ->
  exists k', In (k', v) d /\ same_key k' k = true.
Proof.
  induction d as [| [k' v'] d' IH]; simpl; intros H.
  - discriminate.
  - destruct (same_key k' k) eqn:E.
    + injection H as ->. eauto.
    + destruct (IH H) as [k0 [H0 E0]]. eauto.
Qed.

Lemma tile_at_loc_stored (w : World) (loc : GridLocation) (r : ref) :
  tile_at_loc (tile_system w) loc = Some r ->
  In (loc, r) (tiles_dict (tile_system w)).
Proof.
  intros G. apply dict_get_In_pair in G. destruct G as [k' [Hin E]].
  apply GridLocation_eqb_eq in E. subst k'. exact Hin.
Qed.

Lemma tile_neighbours_stored (w : World) (h : Heap) (t d : ref) :
  In d (tile_neighbours w h t) -> In d (store_refs w).
Proof.
  unfold tile_neighbours. rewrite filter_none_In, in_map_iff.
  intros [loc [G _]]. apply tile_at_loc_stored in G.
  unfold store_refs, dict_values. change d with (snd (loc, d)).
  apply in_map. exact G.
Qed.

Lemma max_by_snd_In {A : Type} (l : list (A * Q)) (x : A * Q) :
  In (max_by_snd x l) (x :: l).
Proof.
  destruct (max_by_snd_first l x) as (pre & e & post & D & M & _).
  rewrite M, D. apply in_or_app. right. left. reflexivity.
Qed.

Lemma wants_to_move_dest (w : World) (h : Heap) (t d : ref) :
  wants_to_move_to_tile w h t = Ok (Some d) ->
  tile_type (h t) <> Empty /\ tile_type (h d) = Empty /\
  In d (tile_neighbours w h t).
Proof.
  unfold wants_to_move_to_tile.
  destruct (TileType_eqb (tile_type (h t)) Empty) eqn:Et; [discriminate |].
  apply TileType_eqb_neq in Et. intros E.
  apply bind_Ok in E. destruct E as [s [_ E]].
  apply bind_Ok in E. destruct E as [m [Em E]].
  destruct m as [| x l]; [discriminate |].
  destruct (Qlt_le_dec s (snd (max_by_snd x l))) as [_ | _]; [| discriminate].
  injection E as <-.
  pose proof (max_by_snd_In l x) as Hin.
  destruct (max_by_snd x l) as [d0 q0]. simpl.
  destruct (desirability_matrix_In w h t _ d0 q0 Em Hin) as (Hn & Hd & _).
  auto.
Qed.

Lemma wants_to_move_vacant (w : World) (h : Heap) (t : ref) :
  tile_type (h t) = Empty -> wants_to_move_to_tile w h t = Ok None.
Proof. intros E. unfold wants_to_move_to_tile. rewrite E. reflexivity. Qed.

Lemma collect_moves_members (w : World) (h : Heap) (tiles : list ref) :
  forall acc mm,
    collect_moves w h tiles acc = Ok mm ->
    forall x, In x mm ->
      In x acc \/
      (In (proposer x) tiles /\
       wants_to_move_to_tile w h (proposer x) = Ok (Some (dest x))).
Proof.
  induction tiles as [| t rest IH]; intros acc mm E x Hx.
  - simpl in E. injection E as <-. auto.
  - simpl in E. apply bind_Ok in E. destruct E as [s [Es E]].
    apply bind_Ok in E. destruct E as [o [Eo E]].
    destruct o as [d |].
    + destruct (IH _ _ E x Hx) as [Hin | [Hin W]].
      * apply in_app_or in Hin. destruct Hin as [Hin | [<- | []]]; [auto |].
        right. split; [left; reflexivity | exact Eo].
      * right. split; [right; exact Hin | exact W].
    + destruct (IH _ _ E x Hx) as [Hin | [Hin W]]; [auto |].
      right. split; [right; exact Hin | exact W].
Qed.

(** ** What [commit] moves *)

Lemma commit_position (non_dups : list (ref * ref)) :
  forall (h : Heap) (r : ref),
    tile_position (commit h non_dups r) = tile_position (h r).
Proof.
  induction non_dups as [| [a b] l IH]; intros h r; simpl.
  - reflexivity.
  - unfold commit in *. simpl. rewrite IH. apply switch_tiles_position.
Qed.

Lemma swap_ref_involutive (a b r : ref) : swap_ref a b (swap_ref a b r) = r.
Proof.
  unfold swap_ref.
  destruct (Nat.eqb_spec r a) as [-> | N1].
  - destruct (Nat.eqb_spec b a) as [-> | N2]; [reflexivity |].
    rewrite Nat.eqb_refl. reflexivity.
  - destruct (Nat.eqb_spec r b) as [-> | N2].
    + rewrite Nat.eqb_refl. reflexivity.
    + apply Nat.eqb_neq in N1, N2. rewrite N1, N2. reflexivity.
Qed.

Lemma swap_ref_closed (a b r : ref) (refs : list ref) :
  In a refs -> In b refs -> In r refs -> In (swap_ref a b r) refs.
Proof.
  intros Ha Hb Hr. unfold swap_ref.
  destruct (Nat.eqb r a); [exact Hb |]. destruct (Nat.eqb r b); assumption.
Qed.

Lemma swap_ref_Permutation (a b : ref) (refs : list ref) :
  NoDup refs -> In a refs -> In b refs ->
  Permutation (map (swap_ref a b) refs) refs.
Proof.
  intros ND Ha Hb. apply NoDup_Permutation.
  - apply NoDup_map_NoDup_ForallPairs; [| exact ND].
    intros x y _ _ E. rewrite <- (swap_ref_involutive a b x), E.
    apply swap_ref_involutive.
  - exact ND.
  - intros x. rewrite in_map_iff. split.
    + intros [y [<- Hy]]. apply swap_ref_closed; assumption.
    + intros Hx. exists (swap_ref a b x). split.
      * apply swap_ref_involutive.
      * apply swap_ref_closed; assumption.
Qed.

Lemma switch_tiles_payload_Permutation (h : Heap) (a b : ref) (refs : list ref) :
  NoDup refs -> In a refs -> In b refs ->
  Permutation (map (fun r => payload (switch_tiles h a b r)) refs)
              (map (fun r => payload (h r)) refs).
Proof.
  intros ND Ha Hb.
  rewrite (map_ext _ (fun r => payload (h (swap_ref a b r))))
    by (intros r; apply switch_tiles_payload).
  rewrite <- (map_map (swap_ref a b) (fun r => payload (h r))).
  apply Permutation_map. apply swap_ref_Permutation; assumption.
Qed.

Lemma commit_payload_Permutation (refs : list ref) (non_dups : list (ref * ref)) :
  NoDup refs ->
  (forall p d, In (p, d) non_dups -> In p refs /\ In d refs) ->
  forall h,
    Permutation (map (fun r => payload (commit h non_dups r)) refs)
                (map (fun r => payload (h r)) refs).
Proof.
  intros ND. induction non_dups as [| [a b] l IH]; intros Hin h.
  - apply Permutation_refl.
  - unfold commit in *. simpl.
    destruct (Hin a b (or_introl eq_refl)) as [Ha Hb].
    etransitivity.
    + apply IH. intros p d H. apply Hin. right. exact H.
    + apply switch_tiles_payload_Permutation; assumption.
Qed.

Lemma run_step_commits (py_hash : Z * Z -> Z) (w : World) (h : Heap) :
  (fst (run_step py_hash w h) = h /\ exists e, snd (run_step py_hash w h) = Raise e) \/
  (exists mm non_dups,
      collect_moves w h (store_refs w) [] = Ok mm /\
      rem_dups py_hash h mm = Ok non_dups /\
      run_step py_hash w h = (commit h non_dups, Ok tt)).
Proof.
  unfold run_step, store_refs.
  destruct (collect_moves w h (dict_values (tiles_dict (tile_system w))) [])
    as [mm | e].
  - destruct (rem_dups py_hash h mm) as [nd | e] eqn:End.
    + right. exists mm, nd. rewrite End. repeat split; reflexivity.
    + left. split; [reflexivity | exists e; reflexivity].
  - left. split; [reflexivity | exists e; reflexivity].
Qed.

Lemma accepted_pairs_stored (py_hash : Z * Z -> Z) (w : World) (h : Heap)
      (mm : list proposal) (non_dups : list (ref * ref)) :
  collect_moves w h (store_refs w) [] = Ok mm ->
  rem_dups py_hash h mm = Ok non_dups ->
  forall p d, In (p, d) non_dups -> In p (store_refs w) /\ In d (store_refs w).
Proof.
  intros Em End.
  apply (rem_dups_members py_hash h (fun p => In p (store_refs w))
                          (fun d => In d (store_refs w)) mm non_dups); [| exact End].
  intros x Hx.
  destruct (collect_moves_members w h _ _ _ Em x Hx) as [[] | [Hp W]].
  split; [exact Hp |].
  apply wants_to_move_dest in W. destruct W as (_ & _ & Hn).
  eapply tile_neighbours_stored; eauto.
Qed.

Lemma run_step_position (py_hash : Z * Z -> Z) (w : World) (h : Heap) (r : ref) :
  tile_position (fst (run_step py_hash w h) r) = tile_position (h r).
Proof.
  destruct (run_step_commits py_hash w h) as [[E _] | (mm & nd & _ & _ & E)];
    rewrite E; [reflexivity | apply commit_position].
Qed.

Lemma run_step_payload (py_hash : Z * Z -> Z) (w : World) (h : Heap) :
  NoDup (store_refs w) ->
  Permutation (map (fun r => payload (fst (run_step py_hash w h) r)) (store_refs w))
              (map (fun r => payload (h r)) (store_refs w)).
Proof.
  intros ND.
  destruct (run_step_commits py_hash w h) as [[E _] | (mm & nd & Em & End & E)];
    rewrite E; [apply Permutation_refl |].
  simpl. apply commit_payload_Permutation; [exact ND |].
  apply (accepted_pairs_stored py_hash w h mm nd Em End).
Qed.

(** The two conditions on a store are kept by a step. *)
Lemma run_step_wf (py_hash : Z * Z -> Z) (w : World) (h : Heap) :
  wf w h -> wf w (fst (run_step py_hash w h)).
Proof.
  intros [ND Hpos]. split; [exact ND |].
  intros k r Hin. rewrite run_step_position. apply Hpos. exact Hin.
Qed.

Lemma run_step_unique_ids (py_hash : Z * Z -> Z) (w : World) (h : Heap) :
  wf w h -> unique_ids w h -> unique_ids w (fst (run_step py_hash w h)).
Proof.
  intros [ND _] U. unfold unique_ids in *.
  pose proof (run_step_payload py_hash w h ND) as Pay.
  apply (Permutation_map snd) in Pay. rewrite !map_map in Pay.
  apply (Permutation_NoDup (l := map (fun r => tile_id (h r)) (store_refs w)));
    [symmetry; exact Pay | exact U].
Qed.

(** C7.  Whatever the outcome of [run_step], in the heap it leaves
    behind every object has the position it had, so every entry of
    [tiles_dict] (which the step never writes) still leads from a
    location to the one tile at that location; and over the stored tiles
    the ids, the types, and the (type, id) pairs are the same multisets
    as before. *)
Theorem run_step_preserves_store
        (py_hash : Z * Z -> Z) (w : World) (h : Heap) (Hwf : wf w h) :
  let h' := fst (run_step py_hash w h) in
  wf w h' /\
  (forall r, tile_position (h' r) = tile_position (h r)) /\
  Permutation (map (fun r => tile_id (h' r)) (store_refs w))
              (map (fun r => tile_id (h r)) (store_refs w)) /\
  Permutation (map (fun r => tile_type (h' r)) (store_refs w))
              (map (fun r => tile_type (h r)) (store_refs w)) /\
  Permutation (map (fun r => payload (h' r)) (store_refs w))
              (map (fun r => payload (h r)) (store_refs w)).
Proof.
  intros h'. subst h'.
  pose proof (run_step_payload py_hash w h (proj1 Hwf)) as Pay.
  split; [apply run_step_wf; exact Hwf |].
  split; [apply run_step_position |].
  split; [| split; [| exact Pay]].
  - apply (Permutation_map snd) in Pay. rewrite !map_map in Pay. exact Pay.
  - apply (Permutation_map fst) in Pay. rewrite !map_map in Pay. exact Pay.
Qed.

Lemma world_3x3_wf :
  wf (fst (world_of 3 3 false tiles_9)) (snd (world_of 3 3 false tiles_9)).
Proof.
  split.
  - vm_compute. repeat constructor; simpl; intuition discriminate.
  - intros k r Hin. vm_compute in Hin.
    repeat (destruct Hin as [Hin | Hin];
            [injection Hin as <- <-; reflexivity |]).
    destruct Hin.
Defined.

Lemma run_step_preserves_store_witness :
  let w := fst (world_of 3 3 false tiles_9) in
  let h := snd (world_of 3 3 false tiles_9) in
  let h' := fst (run_step pair_hash w h) in
  wf w h /\
  payload (h' 6%nat) = (Blue, 3) /\
  tile_position (h' 6%nat) = tile_position (h 6%nat) /\
  Permutation (map (fun r => tile_id (h' r)) (store_refs w))
              (map (fun r => tile_id (h r)) (store_refs w)).
Proof.
  intros w h h'.
  destruct (run_step_preserves_store pair_hash w h world_3x3_wf)
    as (_ & Pos & Ids & _).
  exact (conj world_3x3_wf (conj eq_refl (conj (Pos 6%nat) Ids))).
Defined.

(** ** The step against its two-phase reference *)

Lemma collect_moves_spec (w : World) (h : Heap) (tiles : list ref) :
  forall acc,
    collect_moves w h tiles acc =
    (ps <- proposals_spec w h tiles ;; Ok (acc ++ ps)).
Proof.
  induction tiles as [| t rest IH]; intros acc; simpl.
  - rewrite app_nil_r. reflexivity.
  - destruct (TileType_eqb (tile_type (h t)) Empty) eqn:Et.
    + apply TileType_eqb_eq in Et.
      rewrite (tile_desirability_vacant_self w h t _ Et).
      rewrite (wants_to_move_vacant w h t Et). simpl. apply IH.
    + destruct (tile_desirability w h t (tile_type (h t)) true) as [s | e];
        simpl; [| reflexivity].
      destruct (wants_to_move_to_tile w h t) as [[d |] | e]; simpl;
        [| | reflexivity].
      * rewrite IH. destruct (proposals_spec w h rest) as [ps | e]; simpl;
          [| reflexivity].
        rewrite <- app_assoc. reflexivity.
      * rewrite IH. destruct (proposals_spec w h rest) as [ps | e]; reflexivity.
Qed.

Lemma proposals_spec_proposers (w : World) (h : Heap) (tiles : list ref) :
  forall ps,
    proposals_spec w h tiles = Ok ps ->
    (forall x, In x ps ->
               In (proposer x) tiles /\
               wants_to_move_to_tile w h (proposer x) = Ok (Some (dest x))) /\
    (NoDup tiles -> NoDup (map proposer ps)).
Proof.
  induction tiles as [| t rest IH]; intros ps E; simpl in E.
  - injection E as <-. split; [intros ? [] | intros _; constructor].
  - destruct (TileType_eqb (tile_type (h t)) Empty).
    + destruct (IH ps E) as [Hin Hnd]. split.
      * intros x Hx. destruct (Hin x Hx). auto with datatypes.
      * intros ND. inversion ND; subst. auto.
    + apply bind_Ok in E. destruct E as [s [Es E]].
      apply bind_Ok in E. destruct E as [o [Eo E]].
      apply bind_Ok in E. destruct E as [ps' [Eps E]].
      destruct (IH ps' Eps) as [Hin Hnd].
      destruct o as [d |]; injection E as <-.
      * split.
        -- intros x [<- | Hx]; [split; [left; reflexivity | exact Eo] |].
           destruct (Hin x Hx). auto with datatypes.
        -- intros ND. inversion ND as [| ? ? Hn ND']; subst. simpl.
           constructor; [| auto].
           intros H. apply Hn. apply in_map_iff in H.
           destruct H as [x [Ex Hx]]. unfold proposer in Ex. simpl in Ex.
           destruct (Hin x Hx) as [Hp _]. unfold proposer in Hp.
           rewrite Ex in Hp. exact Hp.
      * split.
        -- intros x Hx. destruct (Hin x Hx). auto with datatypes.
        -- intros ND. inversion ND; subst. auto.
Qed.

Lemma NoDup_map_injective {A B : Type} (f : A -> B) (l : list A) (a b : A) :
  NoDup (map f l) -> In a l -> In b l -> f a = f b -> a = b.
Proof.
  induction l as [| x l IH]; simpl; intros ND Ha Hb E; [destruct Ha |].
  inversion ND as [| ? ? Hn ND']; subst.
  destruct Ha as [-> | Ha], Hb as [-> | Hb].
  - reflexivity.
  - exfalso. apply Hn. rewrite E. apply in_map. exact Hb.
  - exfalso. apply Hn. rewrite <- E. apply in_map. exact Ha.
  - apply IH; assumption.
Qed.

Lemma proposals_distinct_dests (w : World) (h : Heap) (ps : list proposal) :
  unique_ids w h ->
  (forall x, In x ps -> In (dest x) (store_refs w)) ->
  distinct_dests h ps.
Proof.
  intros U Hin x y Hx Hy E.
  apply (NoDup_map_injective (fun r => tile_id (h r)) (store_refs w)); auto.
  apply Z.eqb_eq. exact E.
Qed.

(** ** Acceptance as the specification words it *)

Lemma accepted_spec_others (ps : list proposal) (x : proposal)
      (others : list proposal) :
  Permutation ps (x :: others) ->
  accepted_spec ps x = true <-> others_above x others.
Proof.
  intros P.
  assert (PG : Permutation (proposers_of (dest x) ps)
                           (x :: proposers_of (dest x) others)).
  { rewrite <- proposers_of_cons_same. apply proposers_of_Permutation. exact P. }
  set (f := fun y : proposal => Qle_bool (score y) (score x)).
  assert (Fx : f x = true) by (apply Qle_bool_iff, Qle_refl).
  assert (Low : strictly_lowest x (proposers_of (dest x) ps) = true <->
                others_above x others).
  { unfold strictly_lowest. fold f.
    rewrite (filter_length_Permutation f _ _ PG). simpl. rewrite Fx. simpl.
    rewrite Nat.eqb_eq. split.
    - intros L y Hy Ey.
      assert (Z : filter f (proposers_of (dest x) others) = [])
        by (destruct (filter f (proposers_of (dest x) others));
            [reflexivity | simpl in L; lia]).
      assert (Fy : f y = false).
      { eapply filter_nil_iff; [exact Z |]. apply proposers_of_In. auto. }
      destruct (Qlt_le_dec (score x) (score y)) as [Lt | Le]; [exact Lt |].
      apply Qle_bool_iff in Le. unfold f in Fy. congruence.
    - intros Above.
      assert (Z : filter f (proposers_of (dest x) others) = []).
      { apply filter_nil_iff. intros y Hy. apply proposers_of_In in Hy.
        destruct Hy as [Hy Ey]. specialize (Above y Hy Ey).
        unfold f. destruct (Qle_bool (score y) (score x)) eqn:B; [| reflexivity].
        apply Qle_bool_iff in B. exfalso. eapply Qlt_not_le; eauto. }
      rewrite Z. reflexivity. }
  unfold accepted_spec.
  destruct (proposers_of (dest x) ps) as [| g [| g' G]] eqn:EG.
  - exact Low.
  - split; [| reflexivity]. intros _ y Hy Ey. exfalso.
    apply Permutation_length in PG. simpl in PG.
    assert (Hy' : In y (proposers_of (dest x) others))
      by (apply proposers_of_In; auto).
    destruct (proposers_of (dest x) others); [destruct Hy' | simpl in PG; lia].
  - exact Low.
Qed.

Lemma resolve_spec_In (ps : list proposal) (p d : ref) :
  In (p, d) (resolve_spec ps) <->
  exists s others,
    Permutation ps (((p, s), d) :: others) /\ others_above ((p, s), d) others.
Proof.
  unfold resolve_spec. rewrite in_map_iff. split.
  - intros [x [Ex Hx]]. apply filter_In in Hx. destruct Hx as [Hx A].
    destruct x as [[p' s] d']. unfold proposer, dest in Ex. simpl in Ex.
    injection Ex as -> ->.
    destruct (in_split _ _ Hx) as (l1 & l2 & D).
    exists s, (l1 ++ l2).
    assert (P : Permutation ps (((p, s), d) :: l1 ++ l2))
      by (apply split_Permutation; exact D).
    split; [exact P |]. apply (accepted_spec_others ps _ _ P). exact A.
  - intros (s & others & P & Above). exists ((p, s), d). split; [reflexivity |].
    apply filter_In. split.
    + eapply Permutation_in; [symmetry; exact P | left; reflexivity].
    + apply (accepted_spec_others ps _ _ P). exact Above.
Qed.

Lemma NoDup_map_filter {A B : Type} (f : A -> B) (g : A -> bool) (l : list A) :
  NoDup (map f l) -> NoDup (map f (filter g l)).
Proof.
  induction l as [| x l IH]; simpl; intros ND; [constructor |].
  inversion ND as [| ? ? Hn ND']; subst.
  destruct (g x); simpl; [| auto].
  constructor; [| auto].
  intros H. apply Hn. apply in_map_iff in H. destruct H as [y [Ey Hy]].
  apply filter_In in Hy. rewrite <- Ey. apply in_map. apply Hy.
Qed.

Lemma resolve_spec_proposers (ps : list proposal) :
  NoDup (map proposer ps) -> NoDup (map fst (resolve_spec ps)).
Proof.
  intros ND. unfold resolve_spec. rewrite map_map. simpl.
  apply (NoDup_map_filter proposer). exact ND.
Qed.

Lemma rem_dups_resolve_spec (py_hash : Z * Z -> Z) (h : Heap)
      (ps : list proposal) :
  distinct_dests h ps -> NoDup (map proposer ps) ->
  exists acc,
    rem_dups py_hash h ps = Ok acc /\
    Permutation acc (resolve_spec ps) /\
    NoDup (map fst acc) /\ NoDup (map snd acc).
Proof.
  intros Hd ND.
  destruct (rem_dups_accepts py_hash h ps Hd) as (acc & E & NDs & Hin).
  exists acc. split; [exact E |].
  assert (P : Permutation acc (resolve_spec ps)).
  { apply NoDup_Permutation.
    - apply (NoDup_map_inv snd). exact NDs.
    - apply (NoDup_map_inv fst). apply resolve_spec_proposers. exact ND.
    - intros [p d]. rewrite Hin, resolve_spec_In. reflexivity. }
  split; [exact P |]. split; [| exact NDs].
  apply (Permutation_NoDup (l := map fst (resolve_spec ps))).
  - apply Permutation_map. symmetry. exact P.
  - apply resolve_spec_proposers. exact ND.
Qed.

(** ** The order of the commits *)

Lemma Tile_ext (a b : Tile) :
  payload a = payload b -> tile_position a = tile_position b -> a = b.
Proof.
  destruct a, b. unfold payload. simpl. intros E ->. injection E as -> ->.
  reflexivity.
Qed.






Lemma pair_refs_NoDup (l : list (ref * ref)) :
  NoDup (map fst l) -> NoDup (map snd l) ->
  (forall a b, In a (map fst l) -> In b (map snd l) -> a <> b) ->
  NoDup (pair_refs l).
Proof.
  induction l as [| [a b] l IH]; intros N1 N2 Hx; [constructor |].
  unfold pair_refs in *. simpl in *.
  inversion N1 as [| ? ? Ha N1']; subst. inversion N2 as [| ? ? Hb N2']; subst.
  assert (IHl := IH N1' N2' (fun a0 b0 H1 H2 => Hx a0 b0 (or_intror H1) (or_intror H2))).
  assert (Mem : forall r, In r (flat_map (fun t => [fst t; snd t]) l) ->
                          In r (map fst l) \/ In r (map snd l)).
  { intros r Hr. apply in_flat_map in Hr. destruct Hr as [t [Ht [E | [E | []]]]].
    - left. rewrite <- E. apply in_map. exact Ht.
    - right. rewrite <- E. apply in_map. exact Ht. }
  constructor; [| constructor; [| exact IHl]].
  - intros [E | H].
    + apply (Hx a b); auto.
    + destruct (Mem a H) as [H1 | H2]; [contradiction |].
      apply (Hx a a); auto.
  - intros H. destruct (Mem b H) as [H1 | H2]; [| contradiction].
    apply (Hx b b); auto.
Qed.


Lemma world_2x3_wf :
  wf (fst (world_of 3 3 false tiles_6)) (snd (world_of 3 3 false tiles_6)).
Proof.
  split.
  - vm_compute. repeat constructor; simpl; intuition discriminate.
  - intros k r Hin. vm_compute in Hin.
    repeat (destruct Hin as [Hin | Hin];
            [injection Hin as <- <-; reflexivity |]).
    destruct Hin.
Defined.

Lemma world_2x3_unique_ids :
  unique_ids (fst (world_of 3 3 false tiles_6)) (snd (world_of 3 3 false tiles_6)).
Proof.
  unfold unique_ids. vm_compute.
  repeat constructor; simpl; intuition discriminate.
Defined.

Example world_2x3_contest :
  let w := fst (world_of 3 3 false tiles_6) in
  let h := snd (world_of 3 3 false tiles_6) in
  collect_moves w h (store_refs w) []
  = Ok [((2%nat, (1 # 6)%Q), 1%nat); ((4%nat, (3 # 10)%Q), 0%nat);
        ((5%nat, (-3 # 6)%Q), 1%nat)] /\
  map (fun r => payload (fst (run_step pair_hash w h) r)) (store_refs w)
  = [(Green, 4); (Blue, 5); (Green, 2); (Empty, 3); (Empty, 0); (Empty, 1)].
Proof. split; reflexivity. Qed.


(** ** The store the constructor builds *)

Section DictBuild.
Context {K V : Type}.
Variable same_key : K -> K -> bool.
Hypothesis same_key_eq : forall a b, same_key a b = true <-> a = b.

Lemma dict_set_entries (d : list (K * V)) (k : K) (v : V) (k1 : K) (v1 : V) :
  In (k1, v1) (dict_set same_key d k v) ->
  (k1 = k /\ v1 = v) \/ In (k1, v1) d.
Proof.
  induction d as [| [k' v'] d' IH]; simpl; intros H.
  - destruct H as [E | []]. injection E as <- <-. auto.
  - destruct (same_key k' k) eqn:E.
    + apply same_key_eq in E. subst k'.
      destruct H as [E1 | H]; [injection E1 as <- <-; auto | auto].
    + destruct H as [E1 | H]; [auto |].
      destruct (IH H) as [A | A]; auto.
Qed.

Lemma dict_set_key_set (d : list (K * V)) (k : K) (v : V) (k1 : K) :
  In k1 (dict_keys (dict_set same_key d k v)) <-> In k1 (dict_keys d) \/ k1 = k.
Proof.
  induction d as [| [k' v'] d' IH]; simpl.
  - split; [intros [E | []]; auto | intros [[] | E]; auto].
  - destruct (same_key k' k) eqn:E; simpl.
    + apply same_key_eq in E. subst k'. split; [auto |].
      intros [H | ->]; auto.
    + rewrite IH. tauto.
Qed.

Lemma dict_set_keys_NoDup (d : list (K * V)) (k : K) (v : V) :
  NoDup (dict_keys d) -> NoDup (dict_keys (dict_set same_key d k v)).
Proof.
  induction d as [| [k' v'] d' IH]; simpl; intros ND.
  - repeat constructor. intros [].
  - inversion ND as [| ? ? Hn ND']; subst.
    destruct (same_key k' k) eqn:E; simpl.
    + constructor; assumption.
    + constructor; [| auto].
      intros H. apply dict_set_key_set in H. destruct H as [H | ->]; [auto |].
      assert (T : same_key k k = true) by (apply same_key_eq; reflexivity).
      congruence.
Qed.

Lemma dict_set_values_NoDup (d : list (K * V)) (k : K) (v : V) :
  NoDup (dict_values d) -> ~ In v (dict_values d) ->
  NoDup (dict_values (dict_set same_key d k v)).
Proof.
  induction d as [| [k' v'] d' IH]; simpl; intros ND N.
  - repeat constructor. intros [].
  - inversion ND as [| ? ? Hn ND']; subst.
    destruct (same_key k' k) eqn:E; simpl.
    + constructor; [tauto | assumption].
    + constructor; [| apply IH; tauto].
      intros H. unfold dict_values in H. apply in_map_iff in H.
      destruct H as [[k1 v1] [Ev H]]. simpl in Ev. subst v1.
      apply dict_set_entries in H. destruct H as [[_ <-] | H]; [tauto |].
      apply Hn. change v' with (snd (k1, v')). apply in_map. exact H.
Qed.

Lemma dict_get_defined_iff (d : list (K * V)) (k : K) :
  (exists v, dict_get same_key d k = Some v) <-> In k (dict_keys d).
Proof.
  induction d as [| [k' v'] d' IH]; simpl.
  - split; [intros [v E]; discriminate | intros []].
  - destruct (same_key k' k) eqn:E.
    + apply same_key_eq in E. split; [auto | eauto].
    + rewrite IH. split; [auto |]. intros [<- | H]; [| exact H].
      assert (T : same_key k' k' = true) by (apply same_key_eq; reflexivity).
      congruence.
Qed.
End DictBuild.

Lemma TileSystem_build (h : Heap) (tiles : list ref) :
  forall d : list (GridLocation * ref),
    NoDup tiles ->
    NoDup (dict_keys d) -> NoDup (dict_values d) ->
    (forall r, In r (dict_values d) -> ~ In r tiles) ->
    (forall k r, In (k, r) d -> tile_position (h r) = k) ->
    let d' := fold_left (fun d t => dict_set GridLocation_eqb d (tile_position (h t)) t)
                        tiles d in
    NoDup (dict_keys d') /\ NoDup (dict_values d') /\
    (forall k r, In (k, r) d' ->
                 tile_position (h r) = k /\ (In r (dict_values d) \/ In r tiles)) /\
    (forall k, In k (dict_keys d') <->
               In k (dict_keys d) \/ exists t, In t tiles /\ tile_position (h t) = k).
Proof.
  induction tiles as [| t rest IH]; intros d NDt NDk NDv Fresh Pos; simpl.
  - split; [exact NDk |]. split; [exact NDv |]. split.
    + intros k r H. split; [apply Pos; exact H |]. left.
      change r with (snd (k, r)). apply in_map. exact H.
    + intros k. split; [auto | intros [H | [t [[] _]]]; exact H].
  - inversion NDt as [| ? ? Ht NDr]; subst.
    set (d1 := dict_set GridLocation_eqb d (tile_position (h t)) t).
    assert (V1 : forall r, In r (dict_values d1) -> r = t \/ In r (dict_values d)).
    { intros r H. unfold dict_values in H. apply in_map_iff in H.
      destruct H as [[k1 v1] [Ev H]]. simpl in Ev. subst v1.
      apply (dict_set_entries _ GridLocation_eqb_eq) in H.
      destruct H as [[_ ->] | H]; [auto |].
      right. change r with (snd (k1, r)). apply in_map. exact H. }
    destruct (IH d1 NDr) as (A & B & C & D).
    + apply (dict_set_keys_NoDup _ GridLocation_eqb_eq). exact NDk.
    + apply (dict_set_values_NoDup _ GridLocation_eqb_eq); [exact NDv |].
      intros H. apply (Fresh t H). left. reflexivity.
    + intros r H Hr. destruct (V1 r H) as [-> | H'].
      * contradiction.
      * apply (Fresh r H'). right. exact Hr.
    + intros k r H. apply (dict_set_entries _ GridLocation_eqb_eq) in H.
      destruct H as [[-> ->] | H]; [reflexivity | apply Pos; exact H].
    + split; [exact A |]. split; [exact B |]. split.
      * intros k r H. destruct (C k r H) as [P [H1 | H1]].
        -- split; [exact P |]. destruct (V1 r H1) as [-> | H2]; [right; left | left]; auto.
        -- split; [exact P |]. right. right. exact H1.
      * intros k. rewrite D. unfold d1.
        rewrite (dict_set_key_set _ GridLocation_eqb_eq). split.
        -- intros [[H | ->] | [t' [H1 H2]]].
           ++ left. exact H.
           ++ right. exists t. split; [left; reflexivity | reflexivity].
           ++ right. exists t'. split; [right; exact H1 | exact H2].
        -- intros [H | [t' [[<- | H1] H2]]].
           ++ left. left. exact H.
           ++ left. right. symmetry. exact H2.
           ++ right. exists t'. auto.
Qed.

(** Whatever list of tiles it is given, and whatever the random draws,
    the constructor files every object under its own position, once. *)
Lemma World_init_wf (rows cols : Z) (centered : bool)
      (tile_weights : list (TileType * Z)) (tiles : option (list Tile))
      (rand : nat -> Q) (w : World) (h : Heap) :
  World_init rows cols centered tile_weights tiles rand = Ok (w, h) ->
  wf w h /\ NoDup (dict_keys (tiles_dict (tile_system w))).
Proof.
  unfold World_init. intros E. apply bind_Ok in E. destruct E as [g [_ E]].
  injection E as <- <-.
  match goal with
  | |- context [TileSystem_init ?hh (seq 0 ?n)] =>
      destruct (TileSystem_build hh (seq 0 n) []) as (A & B & C & _)
  end.
  - apply seq_NoDup.
  - constructor.
  - constructor.
  - intros r [].
  - intros k r [].
  - split; [split |].
    + exact B.
    + intros k r H. apply (C k r H).
    + exact A.
Qed.

Lemma generated_tile (f : nat * (Z * Z) -> Tile) (idx : list (Z * Z)) (r : nat) :
  (r < length idx)%nat ->
  heap_of_list (map f (combine (seq 0 (length idx)) idx)) r
  = f (r, nth r idx (0, 0)).
Proof.
  intros L. unfold heap_of_list.
  assert (Lc : length (combine (seq 0 (length idx)) idx) = length idx)
    by (rewrite length_combine, length_seq; apply Nat.min_id).
  rewrite (nth_indep _ _ (f (0%nat, (0, 0))))
    by (rewrite length_map, Lc; exact L).
  rewrite map_nth. f_equal.
  rewrite combine_nth by (apply length_seq).
  rewrite seq_nth by exact L. reflexivity.
Qed.

(** A world built without a tile list has one tile at every location of
    [indices] and nowhere else, and the tiles carry pairwise different
    ids. *)
Lemma World_init_random (rows cols : Z) (centered : bool)
      (tile_weights : list (TileType * Z)) (rand : nat -> Q)
      (w : World) (h : Heap) :
  World_init rows cols centered tile_weights None rand = Ok (w, h) ->
  unique_ids w h /\
  forall loc, (exists r, tile_at_loc (tile_system w) loc = Some r) <->
              In (row loc, col loc) (indices (grid w)).
Proof.
  unfold World_init. intros E. apply bind_Ok in E. destruct E as [g [_ E]].
  injection E as <- <-. cbn [grid tile_system].
  set (gr := {| rows := rows; cols := cols; center_on_origin := centered |}).
  set (idx := indices gr).
  set (f := fun ij : nat * (Z * Z) =>
              {| tile_type := get_random_tile g (rand (fst ij));
                 tile_position := _new_gl (fst (snd ij)) (snd (snd ij));
                 tile_id := Z.of_nat (fst ij) |}).
  set (objs := map f (combine (seq 0 (length idx)) idx)).
  assert (Ln : length objs = length idx).
  { unfold objs. rewrite length_map, length_combine, length_seq. apply Nat.min_id. }
  rewrite Ln.
  assert (G : forall r, (r < length idx)%nat ->
                        heap_of_list objs r = f (r, nth r idx (0, 0)))
    by (intros r L; apply generated_tile; exact L).
  destruct (TileSystem_build (heap_of_list objs) (seq 0 (length idx)) [])
    as (A & B & C & D).
  { apply seq_NoDup. }
  { constructor. }
  { constructor. }
  { intros r []. }
  { intros k r []. }
  split.
  - unfold unique_ids, store_refs. cbn [tiles_dict TileSystem_init].
    apply NoDup_map_NoDup_ForallPairs; [| exact B].
    intros a b Ha Hb Eid.
    assert (In_seq : forall r, In r (dict_values
              (fold_left (fun d t => dict_set GridLocation_eqb d
                                       (tile_position (heap_of_list objs t)) t)
                         (seq 0 (length idx)) [])) -> (r < length idx)%nat).
    { intros r Hr. unfold dict_values in Hr. apply in_map_iff in Hr.
      destruct Hr as [[k r'] [Er Hr]]. simpl in Er. subst r'.
      destruct (C k r Hr) as [_ [[] | Hs]]. apply in_seq in Hs. lia. }
    rewrite (G a (In_seq a Ha)), (G b (In_seq b Hb)) in Eid.
    simpl in Eid. lia.
  - intros loc. unfold tile_at_loc. cbn [tiles_dict TileSystem_init].
    rewrite (dict_get_defined_iff _ GridLocation_eqb_eq), D. simpl. split.
    + intros [[] | [t [Ht Et]]]. apply in_seq in Ht.
      rewrite (G t) in Et by lia. simpl in Et. subst loc. simpl.
      rewrite <- surjective_pairing. apply nth_In. lia.
    + intros Hin. right. apply (In_nth _ _ (0, 0)) in Hin.
      destruct Hin as [t [Lt Et]]. exists t. split; [apply in_seq; lia |].
      rewrite (G t Lt). simpl. rewrite Et. destruct loc; reflexivity.
Qed.

(** ** Tiles that share an id *)

(** Without the condition of C2: two destinations at different places
    with one id are taken for one tile by [in], and then not found among
    the keys of [conflicts]. *)
Example rem_dups_shared_id_raises :
  let h := heap_of_list [mk_tile Green 0 0 0; mk_tile Green 0 3 1;
                         mk_tile Empty 0 1 7; mk_tile Empty 0 2 7] in
  rem_dups pair_hash h [((0%nat, 0%Q), 2%nat); ((1%nat, 0%Q), 3%nat)]
  = Raise KeyError.
Proof. reflexivity. Qed.

(** * Further properties *)

(** ** The locations of a grid *)

Lemma range_In (lo hi x : Z) : In x (range lo hi) <-> lo <= x < hi.
Proof.
  unfold range. rewrite in_map_iff. split.
  - intros [i [<- Hi]]. apply in_seq in Hi. lia.
  - intros Hx. exists (Z.to_nat (x - lo)). split; [lia |].
    apply in_seq. lia.
Qed.

Lemma range_NoDup (lo hi : Z) : NoDup (range lo hi).
Proof.
  unfold range. apply NoDup_map_NoDup_ForallPairs; [| apply seq_NoDup].
  intros a b _ _ E. lia.
Qed.

Lemma range_length (lo hi : Z) : length (range lo hi) = Z.to_nat (hi - lo).
Proof. unfold range. rewrite length_map, length_seq. reflexivity. Qed.

Lemma pairs_In {A B : Type} (rs : list A) (cs : list B) (r : A) (c : B) :
  In (r, c) (flat_map (fun r => map (fun c => (r, c)) cs) rs) <->
  In r rs /\ In c cs.
Proof.
  rewrite in_flat_map. split.
  - intros [r' [Hr H]]. apply in_map_iff in H. destruct H as [c' [E Hc]].
    injection E as -> ->. auto.
  - intros [Hr Hc]. exists r. split; [exact Hr |]. apply in_map. exact Hc.
Qed.

Lemma pairs_NoDup {A B : Type} (rs : list A) (cs : list B) :
  NoDup rs -> NoDup cs ->
  NoDup (flat_map (fun r => map (fun c => (r, c)) cs) rs).
Proof.
  intros Nr Nc. induction Nr as [| r rs Hr Nr IH]; simpl; [constructor |].
  apply NoDup_app.
  - apply NoDup_map_NoDup_ForallPairs; [| exact Nc].
    intros a b _ _ E. congruence.
  - exact IH.
  - intros [r' c'] H1 H2. apply in_map_iff in H1. destruct H1 as [c0 [E _]].
    injection E as <- <-. apply pairs_In in H2. tauto.
Qed.

Lemma pairs_length {A B : Type} (rs : list A) (cs : list B) :
  length (flat_map (fun r => map (fun c => (r, c)) cs) rs)
  = (length rs * length cs)%nat.
Proof.
  induction rs as [| r rs IH]; simpl; [reflexivity |].
  rewrite length_app, length_map, IH. reflexivity.
Qed.

Lemma indices_In (g : BaseGridSystem) (r c : Z) :
  In (r, c) (indices g) <->
  if center_on_origin g
  then - rows g <= r <= rows g /\ - cols g <= c <= cols g
  else 0 <= r < rows g /\ 0 <= c < cols g.
Proof.
  unfold indices. destruct (center_on_origin g);
    rewrite pairs_In, !range_In; lia.
Qed.

Lemma indices_NoDup (g : BaseGridSystem) : NoDup (indices g).
Proof.
  unfold indices. destruct (center_on_origin g);
    apply pairs_NoDup; apply range_NoDup.
Qed.

(** X1.  [indices] lists every pair of the configured ranges, each once:
    rows from [-rows] to [rows] and columns from [-cols] to [cols] on a
    centred grid, rows below [rows] and columns below [cols] from 0 on
    otherwise.  There are (2 rows + 1)(2 cols + 1) of them in the first
    case and rows * cols in the second, none when a range is empty. *)
Theorem indices_enumerates_ranges (g : BaseGridSystem) :
  (forall r c,
      In (r, c) (indices g) <->
      if center_on_origin g
      then - rows g <= r <= rows g /\ - cols g <= c <= cols g
      else 0 <= r < rows g /\ 0 <= c < cols g) /\
  NoDup (indices g) /\
  length (indices g)
  = if center_on_origin g
    then (Z.to_nat (2 * rows g + 1) * Z.to_nat (2 * cols g + 1))%nat
    else (Z.to_nat (rows g) * Z.to_nat (cols g))%nat.
Proof.
  split; [intros r c; apply indices_In |].
  split; [apply indices_NoDup |].
  unfold indices. destruct (center_on_origin g);
    rewrite pairs_length, !range_length; f_equal; f_equal; lia.
Qed.

(** ** The neighbours of a location *)

Lemma neighbours_of_In (dirs : list (Z * Z)) (g : BaseGridSystem)
      (l n : GridLocation) :
  In n (neighbours_of dirs g l) <->
  exists d, In d dirs /\ n = _new_gl (row l + fst d) (col l + snd d) /\
            _is_within_bounds g n = true.
Proof.
  unfold neighbours_of. rewrite in_map_iff. split.
  - intros [d [<- Hd]]. apply filter_In in Hd. destruct Hd as [Hd B]. eauto.
  - intros [d [Hd [-> B]]]. exists d. split; [reflexivity |].
    apply filter_In. auto.
Qed.

Lemma neighbours_of_NoDup (dirs : list (Z * Z)) (g : BaseGridSystem)
      (l : GridLocation) :
  NoDup dirs -> NoDup (neighbours_of dirs g l).
Proof.
  intros ND. unfold neighbours_of.
  apply NoDup_map_NoDup_ForallPairs; [| apply NoDup_filter; exact ND].
  intros [a1 a2] [b1 b2] _ _ E. simpl in E. injection E as E1 E2.
  f_equal; lia.
Qed.

Lemma neighbours_of_length (dirs : list (Z * Z)) (g : BaseGridSystem)
      (l : GridLocation) :
  (length (neighbours_of dirs g l) <= length dirs)%nat.
Proof. unfold neighbours_of. rewrite length_map. apply filter_length_le. Qed.

Lemma octagonal_directions_In (dr dc : Z) :
  In (dr, dc) octagonal_directions <->
  -1 <= dr <= 1 /\ -1 <= dc <= 1 /\ (dr <> 0 \/ dc <> 0).
Proof.
  unfold octagonal_directions. simpl. split.
  - intros H.
    repeat (destruct H as [H | H]; [injection H as <- <-; lia |]).
    destruct H.
  - intros (Hr & Hc & Hn).
    assert (Er : dr = -1 \/ dr = 0 \/ dr = 1) by lia.
    assert (Ec : dc = -1 \/ dc = 0 \/ dc = 1) by lia.
    destruct Er as [-> | [-> | ->]], Ec as [-> | [-> | ->]];
      try (exfalso; lia); tauto.
Qed.

Lemma octagonal_directions_NoDup : NoDup octagonal_directions.
Proof.
  unfold octagonal_directions.
  repeat constructor; simpl; intuition discriminate.
Qed.

Lemma hhexagonal_directions_NoDup : NoDup hhexagonal_directions.
Proof.
  unfold hhexagonal_directions.
  repeat constructor; simpl; intuition discriminate.
Qed.

Lemma neighbours_In (g : BaseGridSystem) (l n : GridLocation) :
  In n (neighbours g l) <->
  _is_within_bounds g n = true /\
  -1 <= row n - row l <= 1 /\ -1 <= col n - col l <= 1 /\ n <> l.
Proof.
  unfold neighbours. rewrite neighbours_of_In. split.
  - intros [[dr dc] [Hd [-> B]]]. apply octagonal_directions_In in Hd.
    simpl in *. split; [exact B |].
    split; [lia |]. split; [lia |].
    destruct l as [rl cl]. simpl. intros E. injection E as E1 E2. lia.
  - intros (B & Hr & Hc & N).
    exists (row n - row l, col n - col l). simpl. split; [| split].
    + apply octagonal_directions_In. split; [exact Hr |]. split; [exact Hc |].
      destruct (Z.eq_dec (row n - row l) 0) as [E1 | E1]; [| auto].
      destruct (Z.eq_dec (col n - col l) 0) as [E2 | E2]; [| auto].
      exfalso. apply N. destruct n, l. simpl in *. f_equal; lia.
    + destruct n. simpl. f_equal; lia.
    + exact B.
Qed.

(** X2.  [OctagonalGridSystem.neighbours] returns exactly the locations
    that pass [_is_within_bounds] and lie one king's move away: never the
    location itself, none of them twice, at most eight. *)
Theorem neighbours_one_step_within_bounds (g : BaseGridSystem) (l : GridLocation) :
  (forall n,
      In n (neighbours g l) <->
      _is_within_bounds g n = true /\
      -1 <= row n - row l <= 1 /\ -1 <= col n - col l <= 1 /\ n <> l) /\
  ~ In l (neighbours g l) /\
  NoDup (neighbours g l) /\
  (length (neighbours g l) <= 8)%nat.
Proof.
  split; [intros n; apply neighbours_In |].
  split; [intros H; apply neighbours_In in H; tauto |].
  split; [apply neighbours_of_NoDup, octagonal_directions_NoDup |].
  apply (neighbours_of_length octagonal_directions).
Qed.

Lemma neighbours_back (g : BaseGridSystem) (a b : GridLocation) :
  _is_within_bounds g a = true ->
  In b (neighbours g a) -> In a (neighbours g b).
Proof.
  intros Ba H. apply neighbours_In in H. apply neighbours_In.
  destruct H as (Bb & Hr & Hc & N).
  split; [exact Ba |]. split; [lia |]. split; [lia |]. congruence.
Qed.

(** X3.  Between two locations that both pass [_is_within_bounds], being
    an octagonal neighbour goes both ways. *)
Theorem neighbours_symmetric (g : BaseGridSystem) (a b : GridLocation) :
  _is_within_bounds g a = true -> _is_within_bounds g b = true ->
  In b (neighbours g a) <-> In a (neighbours g b).
Proof.
  intros Ba Bb. split; apply neighbours_back; assumption.
Qed.

Lemma neighbours_symmetric_witness :
  _is_within_bounds grid_1x3 (_new_gl 0 1) = true /\
  In (_new_gl 0 0) (neighbours grid_1x3 (_new_gl 0 1)) /\
  In (_new_gl 0 1) (neighbours grid_1x3 (_new_gl 0 0)).
Proof.
  assert (B : _is_within_bounds grid_1x3 (_new_gl 0 1) = true) by reflexivity.
  assert (B0 : _is_within_bounds grid_1x3 (_new_gl 0 0) = true) by reflexivity.
  assert (H : In (_new_gl 0 0) (neighbours grid_1x3 (_new_gl 0 1)))
    by (vm_compute; auto).
  exact (conj B (conj H (proj1 (neighbours_symmetric grid_1x3 _ _ B B0) H))).
Defined.

(** X4.  The horizontal-hexagonal topology is one-sided: whenever a
    location and the one a row and a column further both pass
    [_is_within_bounds], the second is a neighbour of the first and the
    first is not a neighbour of the second. *)
Theorem hhex_neighbours_one_sided (g : BaseGridSystem) (l : GridLocation) :
  _is_within_bounds g l = true ->
  _is_within_bounds g (_new_gl (row l + 1) (col l + 1)) = true ->
  In (_new_gl (row l + 1) (col l + 1)) (hhex_neighbours g l) /\
  ~ In l (hhex_neighbours g (_new_gl (row l + 1) (col l + 1))).
Proof.
  intros Bl Bn. split.
  - apply neighbours_of_In. exists (1, 1). simpl. auto.
  - intros H. apply neighbours_of_In in H. destruct H as [[dr dc] [Hd [E _]]].
    destruct l as [rl cl]. simpl in *. injection E as E1 E2.
    repeat (destruct Hd as [Hd | Hd]; [injection Hd as <- <-; lia |]).
    destruct Hd.
Qed.

Lemma hhex_neighbours_one_sided_witness :
  let g := {| rows := 2; cols := 2; center_on_origin := true |} in
  _is_within_bounds g (_new_gl 0 0) = true /\
  _is_within_bounds g (_new_gl 1 1) = true /\
  In (_new_gl 1 1) (hhex_neighbours g (_new_gl 0 0)) /\
  ~ In (_new_gl 0 0) (hhex_neighbours g (_new_gl 1 1)).
Proof.
  intros g.
  exact (conj eq_refl (conj eq_refl
           (hhex_neighbours_one_sided g (_new_gl 0 0) eq_refl eq_refl))).
Defined.

(** X5.  With [rows] at least 1, a location that passes
    [_is_within_bounds] has a neighbour in both topologies: the location
    one column to the right or the one to the left. *)
Theorem neighbours_nonempty_within_bounds (g : BaseGridSystem) (l : GridLocation) :
  1 <= rows g -> _is_within_bounds g l = true ->
  neighbours g l <> [] /\ hhex_neighbours g l <> [] /\
  (In (_new_gl (row l) (col l + 1)) (neighbours g l) \/
   In (_new_gl (row l) (col l - 1)) (neighbours g l)).
Proof.
  intros R B. apply is_within_bounds_tests in B.
  assert (Side : _is_within_bounds g (_new_gl (row l) (col l + 1)) = true \/
                 _is_within_bounds g (_new_gl (row l) (col l - 1)) = true).
  { destruct (Z_lt_le_dec (col l) (rows g)) as [Lt | Ge].
    - left. apply is_within_bounds_tests. simpl.
      destruct (center_on_origin g); lia.
    - right. apply is_within_bounds_tests. simpl.
      destruct (center_on_origin g); lia. }
  assert (Oct : In (_new_gl (row l) (col l + 1)) (neighbours g l) \/
                In (_new_gl (row l) (col l - 1)) (neighbours g l)).
  { destruct Side as [S | S]; [left | right];
      apply neighbours_In; simpl; (split; [exact S |]);
      (split; [lia |]); (split; [lia |]);
      destruct l as [rl cl]; simpl; intros E; injection E as E; lia. }
  assert (Hex : In (_new_gl (row l) (col l + 1)) (hhex_neighbours g l) \/
                In (_new_gl (row l) (col l - 1)) (hhex_neighbours g l)).
  { destruct Side as [S | S]; [left | right]; apply neighbours_of_In.
    - exists (0, 1). simpl. rewrite Z.add_0_r. auto.
    - exists (0, -1). simpl. rewrite Z.add_0_r. auto 6. }
  split; [| split; [| exact Oct]].
  - destruct Oct as [H | H]; intros E; rewrite E in H; destruct H.
  - destruct Hex as [H | H]; intros E; rewrite E in H; destruct H.
Qed.

Lemma neighbours_nonempty_within_bounds_witness :
  1 <= rows grid_1x3 /\ _is_within_bounds grid_1x3 (_new_gl 0 1) = true /\
  neighbours grid_1x3 (_new_gl 0 1) <> [].
Proof.
  assert (R : 1 <= rows grid_1x3) by (simpl; lia).
  assert (B : _is_within_bounds grid_1x3 (_new_gl 0 1) = true) by reflexivity.
  exact (conj R (conj B
           (proj1 (neighbours_nonempty_within_bounds grid_1x3 _ R B)))).
Defined.

(** X6.  When the grid is centred and square, [_is_within_bounds] holds
    of exactly the locations of [indices].  When it is not centred and
    [rows] and [cols] differ by at most one, every location of [indices]
    passes [_is_within_bounds]. *)
Theorem bounds_agree_on_square_grids (g : BaseGridSystem) (l : GridLocation) :
  (center_on_origin g = true -> rows g = cols g ->
   (_is_within_bounds g l = true <-> In (row l, col l) (indices g))) /\
  (center_on_origin g = false ->
   cols g <= rows g + 1 -> rows g <= cols g + 1 ->
   In (row l, col l) (indices g) -> _is_within_bounds g l = true).
Proof.
  split.
  - intros C E. rewrite is_within_bounds_tests, indices_In, C. lia.
  - intros C E1 E2 H. apply indices_In in H. rewrite C in H.
    apply is_within_bounds_tests. rewrite C. lia.
Qed.

Lemma bounds_agree_on_square_grids_witness :
  let g := {| rows := 2; cols := 2; center_on_origin := true |} in
  center_on_origin g = true /\ rows g = cols g /\
  (_is_within_bounds g (_new_gl (-2) 2) = true <-> In (-2, 2) (indices g)).
Proof.
  intros g.
  exact (conj eq_refl (conj eq_refl
    (proj1 (bounds_agree_on_square_grids g (_new_gl (-2) 2)) eq_refl eq_refl))).
Defined.

(** ** The tile store *)

Lemma dict_get_set {K V : Type} (same_key : K -> K -> bool)
      (d : list (K * V)) (k k0 : K) (v : V) :
  (forall a b, same_key a b = true <-> a = b) ->
  dict_get same_key (dict_set same_key d k v) k0
  = if same_key k k0 then Some v else dict_get same_key d k0.
Proof.
  intros Heq. induction d as [| [k' v'] d' IH]; simpl.
  - reflexivity.
  - destruct (same_key k' k) eqn:E; simpl.
    + apply Heq in E. subst k'. destruct (same_key k k0); reflexivity.
    + destruct (same_key k' k0) eqn:E0.
      * destruct (same_key k k0) eqn:E1; [| reflexivity].
        apply Heq in E0, E1. subst.
        assert (T : same_key k0 k0 = true) by (apply Heq; reflexivity).
        congruence.
      * exact IH.
Qed.

Lemma fold_dict_set_fresh {K V : Type} (same_key : K -> K -> bool)
      (Heq : forall a b, same_key a b = true <-> a = b) (kv : list (K * V)) :
  forall d0,
    NoDup (map fst kv) ->
    (forall k, In k (map fst kv) -> ~ In k (dict_keys d0)) ->
    fold_left (fun d e => dict_set same_key d (fst e) (snd e)) kv d0
    = d0 ++ kv.
Proof.
  induction kv as [| [k v] kv IH]; intros d0 ND Fresh; simpl.
  - rewrite app_nil_r. reflexivity.
  - inversion ND as [| ? ? Hn ND']; subst.
    rewrite dict_set_new.
    + rewrite IH; [rewrite <- app_assoc; reflexivity | exact ND' |].
      intros k' Hk' Hin. unfold dict_keys in Hin. rewrite map_app in Hin.
      apply in_app_or in Hin. destruct Hin as [Hin | [<- | []]].
      * apply (Fresh k'); [right; exact Hk' | exact Hin].
      * exact (Hn Hk').
    + intros k' _. apply Heq.
    + apply Fresh. left. reflexivity.
Qed.

Lemma fold_left_on_map {A B C : Type} (f : A -> B -> A) (g : C -> B)
      (l : list C) (a : A) :
  fold_left (fun x c => f x (g c)) l a = fold_left f (map g l) a.
Proof. revert a. induction l as [| c l IH]; intros a; simpl; auto. Qed.

Lemma map_nth_seq {A : Type} (l : list A) (d : A) :
  map (fun i => nth i l d) (seq 0 (length l)) = l.
Proof.
  induction l as [| x l IH]; simpl; [reflexivity |].
  f_equal. rewrite <- seq_shift, map_map. exact IH.
Qed.

Lemma dict_get_In {K V : Type} (same_key : K -> K -> bool)
      (Heq : forall a b, same_key a b = true <-> a = b)
      (d : list (K * V)) (k : K) (v : V) :
  NoDup (dict_keys d) -> In (k, v) d -> dict_get same_key d k = Some v.
Proof.
  induction d as [| [k' v'] d' IH]; simpl; intros ND Hin; [destruct Hin |].
  inversion ND as [| ? ? Hn ND']; subst.
  destruct Hin as [E | Hin].
  - injection E as -> ->.
    assert (T : same_key k k = true) by (apply Heq; reflexivity).
    rewrite T. reflexivity.
  - destruct (same_key k' k) eqn:E; [| apply IH; assumption].
    apply Heq in E. subst k'. exfalso. apply Hn.
    change k with (fst (k, v)). apply in_map. exact Hin.
Qed.

Lemma find_app {A : Type} (f : A -> bool) (l1 l2 : list A) :
  find f (l1 ++ l2)
  = match find f l1 with Some x => Some x | None => find f l2 end.
Proof.
  induction l1 as [| x l1 IH]; simpl; [reflexivity |].
  destruct (f x); [reflexivity | exact IH].
Qed.

Lemma TileSystem_fold_lookup (h : Heap) (tiles : list ref) (loc : GridLocation) :
  forall d,
    dict_get GridLocation_eqb
      (fold_left (fun d t => dict_set GridLocation_eqb d (tile_position (h t)) t)
                 tiles d) loc
    = match find (fun t => GridLocation_eqb (tile_position (h t)) loc) (rev tiles) with
      | Some t => Some t
      | None => dict_get GridLocation_eqb d loc
      end.
Proof.
  induction tiles as [| t rest IH]; intros d; simpl.
  - reflexivity.
  - rewrite IH, find_app. simpl.
    destruct (find _ (rev rest)); [reflexivity |].
    rewrite (dict_get_set _ _ _ _ _ GridLocation_eqb_eq).
    destruct (GridLocation_eqb (tile_position (h t)) loc); reflexivity.
Qed.

(** X7.  In the store built from a list of tiles, [tile_at_loc] returns
    the last tile of the list that sits at the location asked for, and
    nothing when no tile of the list sits there. *)
Theorem tile_at_loc_last_listed (h : Heap) (tiles : list ref) (loc : GridLocation) :
  tile_at_loc (TileSystem_init h tiles) loc
  = find (fun t => GridLocation_eqb (tile_position (h t)) loc) (rev tiles) /\
  (tile_at_loc (TileSystem_init h tiles) loc = None <->
   forall t, In t tiles -> tile_position (h t) <> loc) /\
  (forall t, tile_at_loc (TileSystem_init h tiles) loc = Some t ->
             In t tiles /\ tile_position (h t) = loc).
Proof.
  assert (E : tile_at_loc (TileSystem_init h tiles) loc
              = find (fun t => GridLocation_eqb (tile_position (h t)) loc) (rev tiles)).
  { unfold tile_at_loc, TileSystem_init. cbn [tiles_dict].
    rewrite TileSystem_fold_lookup. simpl.
    destruct (find _ (rev tiles)); reflexivity. }
  split; [exact E |]. rewrite E. split; [split |].
  - intros N t Ht P.
    pose proof (find_none _ _ N t (proj1 (in_rev tiles t) Ht)) as F.
    simpl in F. apply GridLocation_eqb_eq in P. congruence.
  - intros N.
    destruct (find _ (rev tiles)) as [t |] eqn:F; [| reflexivity].
    apply find_some in F. destruct F as [Ht P].
    apply GridLocation_eqb_eq in P. apply in_rev in Ht.
    exfalso. exact (N t Ht P).
  - intros t F. apply find_some in F. destruct F as [Ht P].
    apply GridLocation_eqb_eq in P. apply in_rev in Ht. auto.
Qed.

(** X8.  [tile_by_id] returns a stored tile that carries the id asked
    for, and returns nothing exactly when no stored tile carries it.
    When the stored ids are pairwise different, looking up the id of a
    stored tile returns that tile. *)
Theorem tile_by_id_finds (h : Heap) (ts : TileSystem) (id : Z) :
  (forall r, tile_by_id h ts id = Some r ->
             In r (dict_values (tiles_dict ts)) /\ tile_id (h r) = id) /\
  (tile_by_id h ts id = None <->
   forall r, In r (dict_values (tiles_dict ts)) -> tile_id (h r) <> id) /\
  (NoDup (map (fun r => tile_id (h r)) (dict_values (tiles_dict ts))) ->
   forall r, In r (dict_values (tiles_dict ts)) ->
             tile_by_id h ts (tile_id (h r)) = Some r).
Proof.
  unfold tile_by_id. split; [| split].
  - intros r F. apply find_some in F. destruct F as [Hr E].
    apply Z.eqb_eq in E. auto.
  - split.
    + intros N r Hr E. pose proof (find_none _ _ N r Hr) as F.
      simpl in F. apply Z.eqb_neq in F. contradiction.
    + intros N. destruct (find _ _) as [r |] eqn:F; [| reflexivity].
      apply find_some in F. destruct F as [Hr E]. apply Z.eqb_eq in E.
      exfalso. exact (N r Hr E).
  - intros ND r Hr.
    destruct (find (fun tile => tile_id (h tile) =? tile_id (h r))
                   (dict_values (tiles_dict ts))) as [r' |] eqn:F.
    + apply find_some in F. destruct F as [Hr' E]. apply Z.eqb_eq in E.
      f_equal.
      apply (NoDup_map_injective (fun x => tile_id (h x)) _ _ _ ND Hr' Hr E).
    + pose proof (find_none _ _ F r Hr) as N. simpl in N.
      rewrite Z.eqb_refl in N. discriminate.
Qed.

Lemma tile_by_id_finds_witness :
  let w := fst (world_of 3 3 false tiles_9) in
  let h := snd (world_of 3 3 false tiles_9) in
  NoDup (map (fun r => tile_id (h r)) (dict_values (tiles_dict (tile_system w)))) /\
  In 4%nat (dict_values (tiles_dict (tile_system w))) /\
  tile_by_id h (tile_system w) (tile_id (h 4%nat)) = Some 4%nat.
Proof.
  intros w h.
  assert (ND : NoDup (map (fun r => tile_id (h r))
                          (dict_values (tiles_dict (tile_system w)))))
    by (vm_compute; repeat constructor; simpl; intuition discriminate).
  assert (Hin : In 4%nat (dict_values (tiles_dict (tile_system w))))
    by (vm_compute; auto 10).
  destruct (tile_by_id_finds h (tile_system w) 0) as (_ & _ & U).
  exact (conj ND (conj Hin (U ND 4%nat Hin))).
Defined.

Lemma swap_ref_sym (a b r : ref) : swap_ref a b r = swap_ref b a r.
Proof.
  unfold swap_ref.
  destruct (Nat.eqb_spec r a) as [E1 | N1], (Nat.eqb_spec r b) as [E2 | N2];
    congruence.
Qed.

(** X9.  [switch_tiles] does not depend on the order of its two
    arguments, and doing it twice gives back the heap it started from. *)
Theorem switch_tiles_symmetric_involutive (h : Heap) (t1 t2 : ref) :
  (forall r, switch_tiles h t1 t2 r = switch_tiles h t2 t1 r) /\
  (forall r, switch_tiles (switch_tiles h t1 t2) t1 t2 r = h r).
Proof.
  split; intros r; apply Tile_ext.
  - rewrite !switch_tiles_payload, swap_ref_sym. reflexivity.
  - rewrite !switch_tiles_position. reflexivity.
  - rewrite !switch_tiles_payload, swap_ref_involutive. reflexivity.
  - rewrite !switch_tiles_position. reflexivity.
Qed.

(** X10.  An id moves with a swap: when the stored ids are pairwise
    different and two stored tiles are switched, looking up the id the
    first one had returns the second one. *)
Theorem tile_by_id_follows_switch (h : Heap) (ts : TileSystem) (t1 t2 : ref) :
  NoDup (dict_values (tiles_dict ts)) ->
  NoDup (map (fun r => tile_id (h r)) (dict_values (tiles_dict ts))) ->
  In t1 (dict_values (tiles_dict ts)) -> In t2 (dict_values (tiles_dict ts)) ->
  tile_by_id (switch_tiles h t1 t2) ts (tile_id (h t1)) = Some t2 /\
  tile_by_id (switch_tiles h t1 t2) ts (tile_id (h t2)) = Some t1.
Proof.
  intros ND NI H1 H2.
  set (refs := dict_values (tiles_dict ts)) in *.
  assert (NI' : NoDup (map (fun r => tile_id (switch_tiles h t1 t2 r)) refs)).
  { pose proof (switch_tiles_payload_Permutation h t1 t2 refs ND H1 H2) as P.
    apply (Permutation_map snd) in P. rewrite !map_map in P. simpl in P.
    apply (Permutation_NoDup (Permutation_sym P)). exact NI. }
  assert (Find : forall a b, In b refs ->
                   tile_id (switch_tiles h t1 t2 b) = tile_id (h a) ->
                   tile_by_id (switch_tiles h t1 t2) ts (tile_id (h a)) = Some b).
  { intros a b Hb E. unfold tile_by_id. fold refs.
    destruct (find (fun tile => tile_id (switch_tiles h t1 t2 tile) =? tile_id (h a))
                   refs) as [r' |] eqn:F.
    - apply find_some in F. destruct F as [Hr' E']. apply Z.eqb_eq in E'.
      f_equal.
      apply (NoDup_map_injective (fun x => tile_id (switch_tiles h t1 t2 x))
                                 refs _ _ NI' Hr' Hb).
      simpl. congruence.
    - pose proof (find_none _ _ F b Hb) as N. simpl in N.
      rewrite E, Z.eqb_refl in N. discriminate. }
  split.
  - apply (Find t1 t2 H2).
    pose proof (switch_tiles_payload_snd h t1 t2) as P. inversion P. reflexivity.
  - apply (Find t2 t1 H1).
    pose proof (switch_tiles_payload_fst h t1 t2) as P. inversion P. reflexivity.
Qed.

Lemma tile_by_id_follows_switch_witness :
  let w := fst (world_of 3 3 false tiles_9) in
  let h := snd (world_of 3 3 false tiles_9) in
  tile_by_id (switch_tiles h 3%nat 6%nat) (tile_system w) 3 = Some 6%nat /\
  tile_by_id (switch_tiles h 3%nat 6%nat) (tile_system w) 6 = Some 3%nat.
Proof.
  intros w h.
  apply (tile_by_id_follows_switch h (tile_system w) 3%nat 6%nat).
  - vm_compute. repeat constructor; simpl; intuition discriminate.
  - vm_compute. repeat constructor; simpl; intuition discriminate.
  - vm_compute. auto 10.
  - vm_compute. auto 10.
Defined.

(** ** The ranges of the random generator *)
















(** ** The worlds the constructor builds *)

(** X13.  A world built without a tile list holds one object for each
    entry of [indices], in that order: the object with reference [i] has
    the id [i], the position of the [i]-th entry and the type drawn for
    it, and [tile_at_loc] at that position returns it. *)
Theorem World_init_random_enumerates
        (rows cols : Z) (centered : bool) (tile_weights : list (TileType * Z))
        (rand : nat -> Q) (w : World) (h : Heap) :
  World_init rows cols centered tile_weights None rand = Ok (w, h) ->
  store_refs w = seq 0 (length (indices (grid w))) /\
  forall i, (i < length (indices (grid w)))%nat ->
    h i = {| tile_type := get_random_tile (rtg w) (rand i);
             tile_position := _new_gl (fst (nth i (indices (grid w)) (0, 0)))
                                      (snd (nth i (indices (grid w)) (0, 0)));
             tile_id := Z.of_nat i |} /\
    tile_at_loc (tile_system w) (tile_position (h i)) = Some i.
Proof.
  unfold World_init. intros E. apply bind_Ok in E. destruct E as [g [_ E]].
  injection E as <- <-. cbn [grid tile_system rtg].
  set (gr := {| rows := rows; cols := cols; center_on_origin := centered |}).
  set (idx := indices gr).
  set (f := fun ij : nat * (Z * Z) =>
              {| tile_type := get_random_tile g (rand (fst ij));
                 tile_position := _new_gl (fst (snd ij)) (snd (snd ij));
                 tile_id := Z.of_nat (fst ij) |}).
  set (objs := map f (combine (seq 0 (length idx)) idx)).
  assert (Ln : length objs = length idx).
  { unfold objs. rewrite length_map, length_combine, length_seq. apply Nat.min_id. }
  rewrite Ln.
  assert (G : forall r, (r < length idx)%nat ->
                        heap_of_list objs r = f (r, nth r idx (0, 0)))
    by (intros r L; apply generated_tile; exact L).
  set (loc := fun p : Z * Z => _new_gl (fst p) (snd p)).
  assert (Pos : map (fun t => tile_position (heap_of_list objs t)) (seq 0 (length idx))
                = map loc idx).
  { rewrite <- (map_nth_seq idx (0, 0)) at 2. rewrite map_map.
    apply map_ext_in. intros t Ht. apply in_seq in Ht.
    rewrite (G t) by lia. reflexivity. }
  assert (NDp : NoDup (map loc idx)).
  { apply NoDup_map_NoDup_ForallPairs; [| apply indices_NoDup].
    intros [a1 a2] [b1 b2] _ _ Eab. unfold loc in Eab. simpl in Eab.
    congruence. }
  assert (Dict : tiles_dict (TileSystem_init (heap_of_list objs) (seq 0 (length idx)))
                 = map (fun t => (tile_position (heap_of_list objs t), t))
                       (seq 0 (length idx))).
  { unfold TileSystem_init. cbn [tiles_dict].
    rewrite (fold_left_on_map
               (fun d e => dict_set GridLocation_eqb d (fst e) (snd e))
               (fun t => (tile_position (heap_of_list objs t), t))).
    rewrite (fold_dict_set_fresh GridLocation_eqb GridLocation_eqb_eq);
      [reflexivity | | intros k _ []].
    rewrite map_map. simpl. rewrite Pos. exact NDp. }
  split.
  - unfold store_refs, dict_values. cbn [tile_system]. rewrite Dict, map_map.
    simpl. apply map_id.
  - intros i Hi. split; [apply (G i Hi) |].
    unfold tile_at_loc. rewrite Dict.
    apply (dict_get_In GridLocation_eqb GridLocation_eqb_eq).
    + unfold dict_keys. rewrite map_map. simpl. rewrite Pos. exact NDp.
    + apply in_map_iff. exists i. split; [reflexivity |]. apply in_seq. lia.
Qed.

Lemma World_init_random_enumerates_witness :
  exists w h,
    World_init 1 3 false weights_633 None (fun n => (Z.of_nat n # 4)%Q) = Ok (w, h) /\
    store_refs w = [0; 1; 2]%nat /\
    h 2%nat = mk_tile Blue 0 2 2 /\
    tile_at_loc (tile_system w) (_new_gl 0 2) = Some 2%nat.
Proof.
  eexists. eexists. split; [reflexivity |].
  match goal with
  | |- store_refs ?w = _ /\ ?h _ = _ /\ _ =>
      destruct (World_init_random_enumerates 1 3 false weights_633
                  (fun n => (Z.of_nat n # 4)%Q) w h eq_refl) as [S I]
  end.
  split; [exact S |].
  destruct (I 2%nat) as [H2 T2]; [vm_compute; lia |].
  split; [reflexivity | exact T2].
Defined.

(** ** The tiles around a tile *)

Lemma filter_none_length {A : Type} (l : list (option A)) :
  (length (filter_none l) <= length l)%nat.
Proof.
  induction l as [| [a |] l IH]; simpl; lia.
Qed.

Lemma filter_none_map_NoDup {A B : Type} (f : A -> option B) (l : list A) :
  NoDup l ->
  (forall a b x, In a l -> In b l -> f a = Some x -> f b = Some x -> a = b) ->
  NoDup (filter_none (map f l)).
Proof.
  induction l as [| a l IH]; simpl; intros ND Inj; [constructor |].
  inversion ND as [| ? ? Hn ND']; subst.
  assert (IHl : NoDup (filter_none (map f l)))
    by (apply IH; [exact ND' | intros; eapply Inj; eauto]).
  destruct (f a) as [x |] eqn:Ea; [| exact IHl].
  constructor; [| exact IHl].
  intros H. apply filter_none_In in H. apply in_map_iff in H.
  destruct H as [b [Eb Hb]]. apply Hn.
  rewrite (Inj a b x); auto.
Qed.

Lemma tile_neighbours_In (w : World) (h : Heap) (t d : ref) :
  In d (tile_neighbours w h t) <->
  exists loc, In loc (neighbours (grid w) (tile_position (h t))) /\
              tile_at_loc (tile_system w) loc = Some d.
Proof.
  unfold tile_neighbours. rewrite filter_none_In, in_map_iff.
  split; intros [loc [A B]]; exists loc; auto.
Qed.

(** X14.  On a store that files every object under its own position,
    the tiles [tile_neighbours] returns are stored tiles, other than the
    tile itself, whose positions are neighbours of its position; there
    are at most eight of them and none comes twice. *)
Theorem tile_neighbours_adjacent_stored
        (w : World) (h : Heap) (t : ref) (Hwf : wf w h) :
  (length (tile_neighbours w h t) <= 8)%nat /\
  NoDup (tile_neighbours w h t) /\
  forall d, In d (tile_neighbours w h t) ->
            In d (store_refs w) /\ d <> t /\
            In (tile_position (h d)) (neighbours (grid w) (tile_position (h t))).
Proof.
  destruct Hwf as [ND Hpos].
  assert (At : forall loc d, tile_at_loc (tile_system w) loc = Some d ->
                             tile_position (h d) = loc)
    by (intros loc d G; apply Hpos, tile_at_loc_stored; exact G).
  split; [| split].
  - unfold tile_neighbours.
    etransitivity; [apply filter_none_length |]. rewrite length_map.
    apply (neighbours_of_length octagonal_directions).
  - unfold tile_neighbours. apply filter_none_map_NoDup.
    + apply neighbours_of_NoDup, octagonal_directions_NoDup.
    + intros a b x _ _ Ea Eb. rewrite <- (At a x Ea). apply (At b x Eb).
  - intros d Hd. split; [eapply tile_neighbours_stored; exact Hd |].
    apply tile_neighbours_In in Hd. destruct Hd as [loc [Hl G]].
    rewrite (At loc d G). split; [| exact Hl].
    intros ->. rewrite <- (At loc t G) in Hl.
    apply neighbours_In in Hl. tauto.
Qed.

Lemma tile_neighbours_adjacent_stored_witness :
  let w := fst (world_of 3 3 false tiles_9) in
  let h := snd (world_of 3 3 false tiles_9) in
  wf w h /\ NoDup (tile_neighbours w h 4%nat) /\
  (length (tile_neighbours w h 4%nat) <= 8)%nat.
Proof.
  intros w h.
  destruct (tile_neighbours_adjacent_stored w h 4%nat world_3x3_wf) as (L & N & _).
  exact (conj world_3x3_wf (conj N L)).
Defined.

Lemma stored_tile_at_its_position (w : World) (h : Heap) (t : ref) :
  wf w h -> NoDup (dict_keys (tiles_dict (tile_system w))) ->
  In t (store_refs w) ->
  tile_at_loc (tile_system w) (tile_position (h t)) = Some t.
Proof.
  intros [_ Hpos] NDk Ht. unfold store_refs, dict_values in Ht.
  apply in_map_iff in Ht. destruct Ht as [[k t'] [Et Hin]]. simpl in Et. subst t'.
  rewrite (Hpos k t Hin). unfold tile_at_loc.
  apply (dict_get_In GridLocation_eqb GridLocation_eqb_eq); assumption.
Qed.

Lemma tile_neighbours_back (w : World) (h : Heap) (a b : ref) :
  wf w h -> NoDup (dict_keys (tiles_dict (tile_system w))) ->
  In b (store_refs w) ->
  _is_within_bounds (grid w) (tile_position (h b)) = true ->
  In a (tile_neighbours w h b) -> In b (tile_neighbours w h a).
Proof.
  intros Hwf NDk Hb Bb Ha.
  apply tile_neighbours_In in Ha. destruct Ha as [loc [Hl G]].
  assert (Pa : tile_position (h a) = loc)
    by (apply (proj2 Hwf), tile_at_loc_stored; exact G).
  apply tile_neighbours_In. exists (tile_position (h b)). split.
  - apply neighbours_back; [exact Bb |]. rewrite Pa. exact Hl.
  - apply stored_tile_at_its_position; assumption.
Qed.

(** X15.  Between two stored tiles whose positions pass
    [_is_within_bounds], on a store that files every object under its
    own position and every location once, being a resolved neighbour
    goes both ways. *)
Theorem tile_neighbours_symmetric (w : World) (h : Heap) (a b : ref) :
  wf w h -> NoDup (dict_keys (tiles_dict (tile_system w))) ->
  In a (store_refs w) -> In b (store_refs w) ->
  _is_within_bounds (grid w) (tile_position (h a)) = true ->
  _is_within_bounds (grid w) (tile_position (h b)) = true ->
  In a (tile_neighbours w h b) <-> In b (tile_neighbours w h a).
Proof.
  intros Hwf NDk Ha Hb Ba Bb. split; apply tile_neighbours_back; assumption.
Qed.

Lemma world_3x3_keys :
  NoDup (dict_keys (tiles_dict (tile_system (fst (world_of 3 3 false tiles_9))))).
Proof. vm_compute. repeat constructor; simpl; intuition discriminate. Defined.

Lemma tile_neighbours_symmetric_witness :
  let w := fst (world_of 3 3 false tiles_9) in
  let h := snd (world_of 3 3 false tiles_9) in
  In 0%nat (tile_neighbours w h 4%nat) /\ In 4%nat (tile_neighbours w h 0%nat).
Proof.
  intros w h.
  assert (H : In 0%nat (tile_neighbours w h 4%nat)) by (vm_compute; auto 10).
  split; [exact H |].
  apply (tile_neighbours_symmetric w h 0%nat 4%nat world_3x3_wf world_3x3_keys).
  - vm_compute. auto 10.
  - vm_compute. auto 10.
  - reflexivity.
  - reflexivity.
  - exact H.
Defined.

(** ** Proposals *)

(** X16.  A proposal never names the proposing tile.  The tile named is
    an Empty tile among the resolved neighbours of an occupied tile, and
    its score for the type of the proposer is strictly above the
    self-desirability of the proposer. *)
Theorem proposal_names_better_vacant_neighbour
        (w : World) (h : Heap) (t d : ref) :
  wants_to_move_to_tile w h t = Ok (Some d) ->
  d <> t /\ tile_type (h t) <> Empty /\ tile_type (h d) = Empty /\
  In d (tile_neighbours w h t) /\
  exists s q,
    tile_desirability w h t (tile_type (h t)) true = Ok s /\
    tile_desirability w h d (tile_type (h t)) false = Ok q /\
    (s < q)%Q.
Proof.
  intros W. destruct (wants_to_move_dest w h t d W) as (Nt & Ed & Hn).
  split; [intros ->; contradiction |].
  split; [exact Nt |]. split; [exact Ed |]. split; [exact Hn |].
  unfold wants_to_move_to_tile in W.
  apply TileType_eqb_neq in Nt. rewrite Nt in W.
  apply bind_Ok in W. destruct W as [s [Es W]].
  apply bind_Ok in W. destruct W as [m [Em W]].
  destruct m as [| x l]; [discriminate |].
  destruct (Qlt_le_dec s (snd (max_by_snd x l))) as [Lt | _]; [| discriminate].
  injection W as W.
  pose proof (max_by_snd_In l x) as Hin.
  destruct (max_by_snd x l) as [d0 q0]. simpl in *. subst d0.
  destruct (desirability_matrix_In w h t _ d q0 Em Hin) as (_ & _ & Eq).
  exists s, q0. auto.
Qed.

Lemma proposal_names_better_vacant_neighbour_witness :
  let w := fst (world_of 3 3 false tiles_9) in
  let h := snd (world_of 3 3 false tiles_9) in
  wants_to_move_to_tile w h 3%nat = Ok (Some 6%nat) /\
  (6 <> 3)%nat /\ tile_type (h 6%nat) = Empty.
Proof.
  intros w h.
  assert (W : wants_to_move_to_tile w h 3%nat = Ok (Some 6%nat)) by reflexivity.
  destruct (proposal_names_better_vacant_neighbour w h 3%nat 6%nat W)
    as (N & _ & E & _).
  exact (conj W (conj N E)).
Defined.

(** X17.  Where every stored tile passes [_is_within_bounds] and is
    filed under its own position, each location once, every score in the
    desirability matrix of an occupied stored tile lies in [-1, 1]. *)
Theorem matrix_scores_within_unit_interval
        (w : World) (h : Heap) (t : ref) (m : list (ref * Q)) :
  wf w h -> NoDup (dict_keys (tiles_dict (tile_system w))) ->
  In t (store_refs w) ->
  _is_within_bounds (grid w) (tile_position (h t)) = true ->
  tile_type (h t) <> Empty ->
  desirability_matrix w h t = Ok m ->
  forall d q, In (d, q) m -> (-1 <= q)%Q /\ (q <= 1)%Q.
Proof.
  intros Hwf NDk Ht Bt Nt Em d q Hin.
  destruct (desirability_matrix_In w h t m d q Em Hin) as (Hn & _ & Eq).
  destruct (destination_score_bounds w h d _ q Eq) as [_ B].
  apply B; [exact Nt |]. exists t. split; [| reflexivity].
  apply (tile_neighbours_back w h d t Hwf NDk Ht Bt Hn).
Qed.

Lemma matrix_scores_within_unit_interval_witness :
  let w := fst (world_of 3 3 false tiles_9) in
  let h := snd (world_of 3 3 false tiles_9) in
  exists m, desirability_matrix w h 3%nat = Ok m /\
            forall d q, In (d, q) m -> (-1 <= q)%Q /\ (q <= 1)%Q.
Proof.
  intros w h. eexists. split; [reflexivity |].
  apply (matrix_scores_within_unit_interval w h 3%nat _ world_3x3_wf world_3x3_keys).
  - vm_compute. auto 10.
  - reflexivity.
  - discriminate.
  - reflexivity.
Defined.

(** ** The exceptions of [rem_dups] *)

Lemma rem_dups_loop_nonempty (py_hash : Z * Z -> Z) (h : Heap)
      (rmm : list proposal) :
  forall st st',
    (forall k c, In (k, c) (conflicts st) -> c <> []) ->
    rem_dups_loop py_hash h rmm st = Ok st' ->
    forall k c, In (k, c) (conflicts st') -> c <> [].
Proof.
  induction rmm as [| x rest IH]; intros st st' NE E; simpl in E.
  - injection E as <-. exact NE.
  - destruct (tile_in h (snd x) (known_duplicates st)).
    + destruct (dict_get _ (conflicts st) (snd x)) as [c0 |]; [| discriminate].
      refine (IH _ _ _ E). cbn [conflicts].
      intros k c Hin. apply dict_set_In_weak in Hin.
      destruct Hin as [[-> _] | Hin]; [| apply (NE k c Hin)].
      intros Z. apply app_eq_nil in Z. destruct Z as [_ Z]. discriminate.
    + destruct (tile_in h (snd x) (map snd (rev rest))).
      * refine (IH _ _ _ E). cbn [conflicts].
        intros k c Hin. apply dict_set_In_weak in Hin.
        destruct Hin as [[-> _] | Hin]; [discriminate | apply (NE k c Hin)].
      * refine (IH _ _ _ E). exact NE.
Qed.

Lemma rem_dups_loop_raises (py_hash : Z * Z -> Z) (h : Heap)
      (rmm : list proposal) :
  forall st e, rem_dups_loop py_hash h rmm st = Raise e -> e = KeyError.
Proof.
  induction rmm as [| x rest IH]; intros st e E; simpl in E; [discriminate |].
  destruct (tile_in h (snd x) (known_duplicates st)).
  - destruct (dict_get _ (conflicts st) (snd x)) as [c0 |].
    + apply (IH _ _ E).
    + injection E as <-. reflexivity.
  - destruct (tile_in h (snd x) (map snd (rev rest))); apply (IH _ _ E).
Qed.

(** X18.  The only exception [rem_dups] raises is [KeyError], and it
    raises it only when two destination tiles that are different
    objects compare equal.  When it returns, every accepted pair joins a
    proposer of [mm] to a destination of [mm]. *)
Theorem rem_dups_raises_only_KeyError
        (py_hash : Z * Z -> Z) (h : Heap) (mm : list proposal) :
  (forall e, rem_dups py_hash h mm = Raise e ->
             e = KeyError /\ ~ distinct_dests h mm) /\
  (forall acc, rem_dups py_hash h mm = Ok acc ->
               forall p d, In (p, d) acc ->
                           In p (map proposer mm) /\ In d (map dest mm)).
Proof.
  split.
  - intros e E. split.
    + unfold rem_dups in E.
      destruct (rem_dups_loop py_hash h (rev mm) _) as [st | e'] eqn:L.
      * exfalso. simpl in E.
        assert (NE : forall k c, In (k, c) (conflicts st) -> c <> []).
        { refine (rem_dups_loop_nonempty py_hash h (rev mm) _ st _ L).
          intros k c []. }
        destruct (resolve_conflicts_picks (conflicts st) NE (non_duplicates st))
          as (picked & Ep & _).
        congruence.
      * simpl in E. injection E as <-.
        apply (rem_dups_loop_raises py_hash h _ _ _ L).
    + intros D. destruct (rem_dups_accepts py_hash h mm D) as (acc & Ea & _).
      congruence.
  - intros acc E.
    apply (rem_dups_members py_hash h (fun p => In p (map proposer mm))
                            (fun d => In d (map dest mm)) mm acc); [| exact E].
    intros x Hx. split; apply in_map; exact Hx.
Qed.

Lemma rem_dups_raises_only_KeyError_witness :
  let h := heap_of_list [mk_tile Green 0 0 0; mk_tile Green 0 3 1;
                         mk_tile Empty 0 1 7; mk_tile Empty 0 2 7] in
  let mm := [((0%nat, 0%Q), 2%nat); ((1%nat, 0%Q), 3%nat)] in
  rem_dups pair_hash h mm = Raise KeyError /\ ~ distinct_dests h mm.
Proof.
  intros h mm.
  assert (E : rem_dups pair_hash h mm = Raise KeyError) by reflexivity.
  split; [exact E |].
  apply (proj1 (rem_dups_raises_only_KeyError pair_hash h mm) KeyError E).
Defined.

(** ** Steps that move nothing *)

Lemma collect_moves_nothing (w : World) (h : Heap) (tiles : list ref) :
  (forall t, In t tiles ->
             wants_to_move_to_tile w h t = Ok None /\
             exists s, tile_desirability w h t (tile_type (h t)) true = Ok s) ->
  forall acc, collect_moves w h tiles acc = Ok acc.
Proof.
  induction tiles as [| t rest IH]; intros H acc; simpl; [reflexivity |].
  destruct (H t (or_introl eq_refl)) as [W [s Es]].
  rewrite Es, W. simpl. apply IH. intros t' Ht'. apply H. right. exact Ht'.
Qed.

(** X19.  When no stored tile wants to move, [run_step] returns and
    leaves the heap exactly as it was.  This is so in particular when
    every stored tile is Empty, whatever the grid and the store. *)
Theorem run_step_at_rest (py_hash : Z * Z -> Z) (w : World) (h : Heap) :
  ((forall t, In t (store_refs w) ->
              wants_to_move_to_tile w h t = Ok None /\
              exists s, tile_desirability w h t (tile_type (h t)) true = Ok s) ->
   run_step py_hash w h = (h, Ok tt)) /\
  ((forall t, In t (store_refs w) -> tile_type (h t) = Empty) ->
   run_step py_hash w h = (h, Ok tt)).
Proof.
  assert (Rest : (forall t, In t (store_refs w) ->
                    wants_to_move_to_tile w h t = Ok None /\
                    exists s, tile_desirability w h t (tile_type (h t)) true = Ok s) ->
                 run_step py_hash w h = (h, Ok tt)).
  { intros H. unfold run_step. fold (store_refs w).
    rewrite (collect_moves_nothing w h (store_refs w) H []). reflexivity. }
  split; [exact Rest |].
  intros V. apply Rest. intros t Ht. split.
  - apply wants_to_move_vacant. apply V. exact Ht.
  - exists 0%Q. apply tile_desirability_vacant_self. apply V. exact Ht.
Qed.

Lemma run_step_at_rest_witness :
  let ts := [mk_tile Empty 0 0 0; mk_tile Empty 0 1 1] in
  let w := fst (world_of 1 2 false ts) in
  let h := snd (world_of 1 2 false ts) in
  (forall t, In t (store_refs w) -> tile_type (h t) = Empty) /\
  run_step pair_hash w h = (h, Ok tt).
Proof.
  intros ts w h.
  assert (V : forall t, In t (store_refs w) -> tile_type (h t) = Empty).
  { intros t Ht. vm_compute in Ht. destruct Ht as [<- | [<- | []]]; reflexivity. }
  split; [exact V |].
  apply (proj2 (run_step_at_rest pair_hash w h) V).
Defined.

(** ** What a step moves *)

Lemma commit_untouched (l : list (ref * ref)) :
  forall h r, ~ In r (pair_refs l) -> commit h l r = h r.
Proof.
  induction l as [| [a b] l IH]; intros h r N; [reflexivity |].
  unfold commit in *. simpl. unfold pair_refs in N. simpl in N.
  rewrite IH by (intros H; apply N; auto).
  apply switch_tiles_other; intros ->; apply N; auto.
Qed.

Lemma commit_exchanges (l : list (ref * ref)) :
  forall h a b,
    NoDup (pair_refs l) -> In (a, b) l ->
    payload (commit h l a) = payload (h b) /\
    payload (commit h l b) = payload (h a).
Proof.
  induction l as [| [a0 b0] l IH]; intros h a b ND Hin; [destruct Hin |].
  unfold pair_refs in ND. simpl in ND.
  inversion ND as [| ? ? Ha0 ND1]; subst.
  inversion ND1 as [| ? ? Hb0 ND2]; subst.
  unfold commit. simpl. fold (commit (switch_tiles h a0 b0) l).
  destruct Hin as [E | Hin].
  - injection E as -> ->.
    rewrite !commit_untouched.
    + split; [apply switch_tiles_payload_fst | apply switch_tiles_payload_snd].
    + exact Hb0.
    + intros H. apply Ha0. right. exact H.
  - assert (Ma : In a (pair_refs l) /\ In b (pair_refs l)).
    { unfold pair_refs. split; apply in_flat_map; exists (a, b);
        (split; [exact Hin | simpl; auto]). }
    destruct Ma as [Ma Mb].
    destruct (IH (switch_tiles h a0 b0) a b ND2 Hin) as [P1 P2].
    rewrite P1, P2.
    rewrite !switch_tiles_other; [split; reflexivity | | | |];
      intros ->; simpl in Ha0; tauto.
Qed.

(** X20.  On a store with pairwise different ids, a step that returns
    has done this: for a list of accepted pairs that name no object
    twice, each an occupied tile with an Empty tile it proposed to move
    to, the type and the id of the proposer are now at the destination
    and those of the destination at the proposer, which is therefore
    Empty; every other object is as it was. *)
Theorem run_step_moves_accepted_pairs
        (py_hash : Z * Z -> Z) (w : World) (h h' : Heap)
        (Hwf : wf w h) (Hids : unique_ids w h) :
  run_step py_hash w h = (h', Ok tt) ->
  exists acc,
    NoDup (pair_refs acc) /\
    (forall p d, In (p, d) acc ->
       wants_to_move_to_tile w h p = Ok (Some d) /\
       payload (h' d) = payload (h p) /\
       payload (h' p) = payload (h d) /\
       tile_type (h' p) = Empty /\ tile_type (h' d) <> Empty) /\
    (forall r, ~ In r (pair_refs acc) -> h' r = h r).
Proof.
  intros R.
  destruct (run_step_commits py_hash w h) as [[_ [e E]] | (mm & acc & Em & Ea & E)].
  { rewrite R in E. discriminate. }
  rewrite R in E. injection E as ->.
  pose proof (collect_moves_spec w h (store_refs w) []) as C.
  rewrite Em in C.
  destruct (proposals_spec w h (store_refs w)) as [ps | e] eqn:Eps;
    [| discriminate].
  simpl in C. injection C as ->.
  destruct (proposals_spec_proposers w h _ ps Eps) as [Hin Hnd].
  assert (Dst : forall x, In x ps ->
                tile_type (h (proposer x)) <> Empty /\
                tile_type (h (dest x)) = Empty /\ In (dest x) (store_refs w)).
  { intros x Hx. destruct (Hin x Hx) as [_ W].
    apply wants_to_move_dest in W. destruct W as (A & B & Hn).
    split; [exact A |]. split; [exact B |].
    eapply tile_neighbours_stored; eauto. }
  assert (Hd : distinct_dests h ps)
    by (apply (proposals_distinct_dests w h ps Hids); intros x Hx; apply (Dst x Hx)).
  destruct (rem_dups_resolve_spec py_hash h ps Hd (Hnd (proj1 Hwf)))
    as (acc' & Ea' & P & N1 & N2).
  rewrite Ea in Ea'. injection Ea' as <-.
  assert (From : forall p d, In (p, d) acc ->
                   exists x, In x ps /\ proposer x = p /\ dest x = d).
  { intros p d Hp. apply (Permutation_in _ P) in Hp. unfold resolve_spec in Hp.
    apply in_map_iff in Hp. destruct Hp as [x [Ex Hx]].
    injection Ex as <- <-. apply filter_In in Hx. exists x. tauto. }
  assert (NP : NoDup (pair_refs acc)).
  { apply pair_refs_NoDup; [exact N1 | exact N2 |].
    intros a b Ha Hb Eab. subst b.
    apply in_map_iff in Ha. destruct Ha as [[p1 d1] [E1 H1]].
    apply in_map_iff in Hb. destruct Hb as [[p2 d2] [E2 H2]].
    simpl in E1, E2. subst p1 d2.
    destruct (From _ _ H1) as (x1 & Hx1 & Px1 & _).
    destruct (From _ _ H2) as (x2 & Hx2 & _ & Dx2).
    destruct (Dst x1 Hx1) as (A & _). destruct (Dst x2 Hx2) as (_ & B & _).
    rewrite Px1 in A. rewrite Dx2 in B. contradiction. }
  exists acc. split; [exact NP |]. split.
  - intros p d Hp.
    destruct (From p d Hp) as (x & Hx & <- & <-).
    destruct (Hin x Hx) as [_ W]. destruct (Dst x Hx) as (A & B & _).
    destruct (commit_exchanges acc h _ _ NP Hp) as [P1 P2].
    split; [exact W |]. split; [exact P2 |]. split; [exact P1 |].
    unfold payload in P1, P2. injection P1 as T1 _. injection P2 as T2 _.
    split; congruence.
  - intros r Hr. apply commit_untouched. exact Hr.
Qed.

Lemma run_step_moves_accepted_pairs_witness :
  let w := fst (world_of 3 3 false tiles_6) in
  let h := snd (world_of 3 3 false tiles_6) in
  let h' := fst (run_step pair_hash w h) in
  wf w h /\ unique_ids w h /\
  run_step pair_hash w h = (h', Ok tt) /\
  exists acc,
    NoDup (pair_refs acc) /\
    (forall r, ~ In r (pair_refs acc) -> h' r = h r).
Proof.
  intros w h h'.
  assert (R : run_step pair_hash w h = (h', Ok tt)) by reflexivity.
  split; [exact world_2x3_wf |]. split; [exact world_2x3_unique_ids |].
  split; [exact R |].
  destruct (run_step_moves_accepted_pairs pair_hash w h h'
              world_2x3_wf world_2x3_unique_ids R) as (acc & NP & _ & U).
  exists acc. auto.
Defined.

(** ** When a step returns and when it raises *)

Lemma mapM_cases {A B : Type} (f : A -> result B) (l : list A) :
  (exists m, mapM f l = Ok m /\ forall x, In x l -> exists y, f x = Ok y) \/
  (exists e x, mapM f l = Raise e /\ In x l /\ f x = Raise e).
Proof.
  induction l as [| x l IH]; simpl.
  - left. exists []. split; [reflexivity | intros x []].
  - destruct (f x) as [y | e] eqn:Ex; simpl.
    + destruct IH as [(m & Em & T) | (e & x' & Em & Hx & Ex')].
      * left. rewrite Em. simpl. exists (y :: m). split; [reflexivity |].
        intros x0 [<- | H]; eauto.
      * right. rewrite Em. simpl. exists e, x'. auto.
    + right. exists e, x. auto.
Qed.

Lemma tile_desirability_cases (w : World) (h : Heap) (t : ref)
      (ty : TileType) (sd : bool) :
  TileType_eqb (tile_type (h t)) Empty && sd = false ->
  (tile_neighbours w h t = [] /\
   tile_desirability w h t ty sd = Raise ZeroDivisionError) \/
  (tile_neighbours w h t <> [] /\ exists q, tile_desirability w h t ty sd = Ok q).
Proof.
  intros G. destruct (tile_neighbours w h t) as [| n ns] eqn:E.
  - left. split; [reflexivity |]. apply tile_desirability_raises; assumption.
  - right. split; [discriminate |]. apply tile_desirability_defined.
    rewrite E. discriminate.
Qed.

Lemma wants_to_move_cases (w : World) (h : Heap) (t : ref) :
  (exists o, wants_to_move_to_tile w h t = Ok o /\ ~ divides_by_zero w h t) \/
  (wants_to_move_to_tile w h t = Raise ZeroDivisionError /\
   divides_by_zero w h t).
Proof.
  destruct (TileType_eqb (tile_type (h t)) Empty) eqn:Et.
  - left. apply TileType_eqb_eq in Et. exists None.
    split; [apply wants_to_move_vacant; exact Et |].
    intros [N _]. contradiction.
  - assert (Nt : tile_type (h t) <> Empty) by (apply TileType_eqb_neq; exact Et).
    unfold wants_to_move_to_tile. rewrite Et.
    destruct (tile_desirability_cases w h t (tile_type (h t)) true)
      as [[En Es] | [Nn [s Es]]].
    { rewrite Et. reflexivity. }
    + right. rewrite Es. split; [reflexivity |]. split; [exact Nt | auto].
    + rewrite Es. cbn [bind]. unfold desirability_matrix.
      match goal with
      | |- context [mapM ?f ?l] =>
          destruct (mapM_cases f l) as [(m & Em & T) | (e & x & Em & Hx & Ex)];
            rewrite Em
      end.
      * left. cbn [bind].
        assert (ND : ~ divides_by_zero w h t).
        { intros [_ [En | (d & Hd & Ed & En)]]; [contradiction |].
          destruct (T d) as [y Ey].
          { apply filter_In. split; [exact Hd |]. rewrite Ed. reflexivity. }
          apply bind_Ok in Ey. destruct Ey as [q [Eq _]].
          rewrite (tile_desirability_raises w h d _ false En) in Eq;
            [discriminate |].
          apply andb_false_r. }
        destruct m as [| x0 l0]; [exists None; auto |].
        destruct (Qlt_le_dec s (snd (max_by_snd x0 l0)));
          eexists; (split; [reflexivity | exact ND]).
      * apply filter_In in Hx. destruct Hx as [Hx Ed].
        apply TileType_eqb_eq in Ed.
        destruct (tile_desirability_cases w h x (tile_type (h t)) false)
          as [[En Ex'] | [_ [q Eq]]].
        { apply andb_false_r. }
        -- rewrite Ex' in Ex. cbn [bind] in Ex. injection Ex as <-.
           right. split; [reflexivity |]. split; [exact Nt |].
           right. exists x. auto.
        -- rewrite Eq in Ex. discriminate.
Qed.

Lemma proposals_spec_cases (w : World) (h : Heap) (tiles : list ref) :
  (exists ps, proposals_spec w h tiles = Ok ps /\
              forall t, In t tiles -> ~ divides_by_zero w h t) \/
  (proposals_spec w h tiles = Raise ZeroDivisionError /\
   exists t, In t tiles /\ divides_by_zero w h t).
Proof.
  induction tiles as [| t rest IH]; cbn [proposals_spec].
  - left. exists []. split; [reflexivity | intros t []].
  - destruct (TileType_eqb (tile_type (h t)) Empty) eqn:Et.
    + apply TileType_eqb_eq in Et.
      destruct IH as [(ps & Eps & T) | (Eps & t' & Ht' & D)].
      * left. exists ps. split; [exact Eps |].
        intros t0 [<- | H0]; [intros [N _]; contradiction | apply T; exact H0].
      * right. split; [exact Eps |]. exists t'. split; [right |]; assumption.
    + destruct (wants_to_move_cases w h t) as [(o & Eo & ND) | (Eo & D)].
      * destruct (tile_desirability_cases w h t (tile_type (h t)) true)
          as [[En _] | [_ [s Es]]].
        { rewrite Et. reflexivity. }
        { exfalso. apply ND. split; [| auto].
          intros E. rewrite E in Et. discriminate. }
        rewrite Es, Eo. cbn [bind].
        destruct IH as [(ps & Eps & T) | (Eps & t' & Ht' & D)]; rewrite Eps.
        -- left. cbn [bind]. eexists. split; [reflexivity |].
           intros t0 [<- | H0]; [exact ND | apply T; exact H0].
        -- right. split; [reflexivity |]. exists t'. split; [right |]; assumption.
      * right. split; [| exists t; split; [left; reflexivity | exact D]].
        destruct (tile_desirability w h t (tile_type (h t)) true) as [s | e] eqn:Es.
        -- cbn [bind]. rewrite Eo. reflexivity.
        -- destruct (tile_desirability_cases w h t (tile_type (h t)) true)
             as [[_ Es'] | [_ [s Es']]]; [rewrite Et; reflexivity | |];
             rewrite Es' in Es; [injection Es as <-; reflexivity | discriminate].
Qed.

Lemma run_step_cases (py_hash : Z * Z -> Z) (w : World) (h : Heap) :
  wf w h -> unique_ids w h ->
  (exists acc, run_step py_hash w h = (commit h acc, Ok tt) /\
               forall t, In t (store_refs w) -> ~ divides_by_zero w h t) \/
  (run_step py_hash w h = (h, Raise ZeroDivisionError) /\
   exists t, In t (store_refs w) /\ divides_by_zero w h t).
Proof.
  intros Hwf Hids. unfold run_step. fold (store_refs w).
  rewrite collect_moves_spec.
  destruct (proposals_spec_cases w h (store_refs w))
    as [(ps & Eps & T) | (Eps & D)]; rewrite Eps; cbn [bind app].
  - left.
    destruct (proposals_spec_proposers w h _ ps Eps) as [Hin Hnd].
    assert (Hd : distinct_dests h ps).
    { apply (proposals_distinct_dests w h ps Hids). intros x Hx.
      destruct (Hin x Hx) as [_ W]. apply wants_to_move_dest in W.
      destruct W as (_ & _ & Hn). eapply tile_neighbours_stored; eauto. }
    destruct (rem_dups_resolve_spec py_hash h ps Hd (Hnd (proj1 Hwf)))
      as (acc & Ea & _).
    rewrite Ea. exists acc. auto.
  - right. auto.
Qed.

Lemma tile_neighbours_position (w : World) (h h' : Heap) (t : ref) :
  tile_position (h' t) = tile_position (h t) ->
  tile_neighbours w h' t = tile_neighbours w h t.
Proof. intros E. unfold tile_neighbours. rewrite E. reflexivity. Qed.

Lemma run_step_returns (py_hash : Z * Z -> Z) (w : World) (h : Heap) :
  wf w h -> unique_ids w h ->
  (forall t, In t (store_refs w) -> tile_neighbours w h t <> []) ->
  exists h', run_step py_hash w h = (h', Ok tt).
Proof.
  intros Hwf Hids Hn.
  destruct (run_step_cases py_hash w h Hwf Hids)
    as [(acc & E & _) | (_ & t & Ht & _ & [En | (d & Hd & _ & En)])].
  - eauto.
  - exfalso. apply (Hn t Ht En).
  - exfalso. apply (Hn d); [eapply tile_neighbours_stored; eauto | exact En].
Qed.

(** X21.  On a store that files every object once and under its own
    position, with pairwise different ids, a step on which every stored
    tile has a resolved neighbour returns.  All of this holds again of
    the heap it leaves, on which every tile has the neighbours it had:
    the next step returns as well. *)
Theorem run_step_returns_and_keeps_neighbours
        (py_hash : Z * Z -> Z) (w : World) (h : Heap) :
  wf w h -> unique_ids w h ->
  (forall t, In t (store_refs w) -> tile_neighbours w h t <> []) ->
  exists h',
    run_step py_hash w h = (h', Ok tt) /\
    wf w h' /\ unique_ids w h' /\
    (forall t, tile_neighbours w h' t = tile_neighbours w h t) /\
    exists h'', run_step py_hash w h' = (h'', Ok tt).
Proof.
  intros Hwf Hids Hn.
  destruct (run_step_returns py_hash w h Hwf Hids Hn) as [h' E].
  assert (Eh : h' = fst (run_step py_hash w h)) by (rewrite E; reflexivity).
  assert (Nb : forall t, tile_neighbours w h' t = tile_neighbours w h t).
  { intros t. apply tile_neighbours_position. rewrite Eh.
    apply run_step_position. }
  assert (Hwf' : wf w h') by (rewrite Eh; apply run_step_wf; exact Hwf).
  assert (Hids' : unique_ids w h')
    by (rewrite Eh; apply run_step_unique_ids; assumption).
  exists h'. split; [exact E |]. split; [exact Hwf' |].
  split; [exact Hids' |]. split; [exact Nb |].
  apply (run_step_returns py_hash w h' Hwf' Hids'). intros t Ht. rewrite Nb. apply Hn. exact Ht.
Qed.

Lemma run_step_returns_and_keeps_neighbours_witness :
  let w := fst (world_of 3 3 false tiles_9) in
  let h := snd (world_of 3 3 false tiles_9) in
  exists h', run_step pair_hash w h = (h', Ok tt) /\ wf w h' /\ unique_ids w h'.
Proof.
  intros w h.
  assert (Hids : unique_ids w h).
  { unfold unique_ids. vm_compute. repeat constructor; simpl; intuition discriminate. }
  assert (Hn : forall t, In t (store_refs w) -> tile_neighbours w h t <> []).
  { intros t Ht. vm_compute in Ht.
    repeat (destruct Ht as [<- | Ht]; [vm_compute; discriminate |]).
    destruct Ht. }
  destruct (run_step_returns_and_keeps_neighbours pair_hash w h
              world_3x3_wf Hids Hn) as (h' & E & Hwf' & Hids' & _).
  exists h'. auto.
Defined.

(** X22.  On such a store [run_step] raises exactly when an occupied
    stored tile divides by zero: it has no resolved neighbour, or an
    Empty neighbour of it has none.  The exception is then
    [ZeroDivisionError] and no tile has been changed. *)
Theorem run_step_raises_iff_no_neighbours
        (py_hash : Z * Z -> Z) (w : World) (h : Heap) :
  wf w h -> unique_ids w h ->
  ((exists e, snd (run_step py_hash w h) = Raise e) <->
   exists t, In t (store_refs w) /\ divides_by_zero w h t) /\
  (forall e, snd (run_step py_hash w h) = Raise e ->
             e = ZeroDivisionError /\ fst (run_step py_hash w h) = h).
Proof.
  intros Hwf Hids.
  destruct (run_step_cases py_hash w h Hwf Hids)
    as [(acc & E & T) | (E & D)]; rewrite E; cbn [fst snd].
  - split.
    + split; [intros [e Ee]; discriminate |].
      intros (t & Ht & D). exfalso. apply (T t Ht D).
    + intros e Ee. discriminate.
  - split.
    + split; [intros _; exact D | intros _; eauto].
    + intros e Ee. injection Ee as <-. auto.
Qed.

Lemma run_step_raises_iff_no_neighbours_witness :
  let w := fst (world_of 1 1 false [mk_tile Green 0 0 0]) in
  let h := snd (world_of 1 1 false [mk_tile Green 0 0 0]) in
  wf w h /\ unique_ids w h /\
  (exists t, In t (store_refs w) /\ divides_by_zero w h t) /\
  run_step pair_hash w h = (h, Raise ZeroDivisionError).
Proof.
  intros w h.
  assert (Hwf : wf w h).
  { split.
    - vm_compute. repeat constructor; simpl; intuition discriminate.
    - intros k r Hin. vm_compute in Hin.
      destruct Hin as [Hin | []]. injection Hin as <- <-. reflexivity. }
  assert (Hids : unique_ids w h).
  { unfold unique_ids. vm_compute. repeat constructor; simpl; intuition discriminate. }
  split; [exact Hwf |]. split; [exact Hids |].
  destruct (run_step_raises_iff_no_neighbours pair_hash w h Hwf Hids) as [[R _] _].
  split; [| reflexivity].
  apply R. exists ZeroDivisionError. reflexivity.
Defined.

(** ** Worlds on which every step returns, and worlds on which none does *)

Lemma World_init_grid (rows cols : Z) (centered : bool)
      (tile_weights : list (TileType * Z)) (tiles : option (list Tile))
      (rand : nat -> Q) (w : World) (h : Heap) :
  World_init rows cols centered tile_weights tiles rand = Ok (w, h) ->
  grid w = {| rows := rows; cols := cols; center_on_origin := centered |}.
Proof.
  unfold World_init. intros E. apply bind_Ok in E. destruct E as [g [_ E]].
  injection E as <- _. reflexivity.
Qed.

Ltac shifted_neighbour l dr dc :=
  exists (_new_gl (row l + dr) (col l + dc)); cbn [row col];
  split; [split; [lia | split; [lia | split; [lia |]]] | lia];
  let E := fresh in
  intros E; pose proof (f_equal row E); pose proof (f_equal col E);
  cbn [row col] in *; lia.

Lemma indices_have_listed_neighbour (g : BaseGridSystem) (l : GridLocation) :
  -1 <= rows g - cols g <= 1 ->
  (if center_on_origin g then 1 <= rows g /\ 1 <= cols g
   else 2 <= rows g \/ 2 <= cols g) ->
  In (row l, col l) (indices g) ->
  exists n, In n (neighbours g l) /\ In (row n, col n) (indices g).
Proof.
  intros D S Hl. apply indices_In in Hl.
  assert (G : exists n,
             (((if center_on_origin g then - rows g else 0) <= col n <= rows g /\
               (if center_on_origin g then - cols g else 0) <= row n <= cols g) /\
              -1 <= row n - row l <= 1 /\ -1 <= col n - col l <= 1 /\ n <> l) /\
             (if center_on_origin g
              then - rows g <= row n <= rows g /\ - cols g <= col n <= cols g
              else 0 <= row n < rows g /\ 0 <= col n < cols g)).
  { destruct (center_on_origin g).
    - destruct (Z.lt_trichotomy (row l) 0) as [R | [R | R]],
               (Z.lt_trichotomy (col l) 0) as [C | [C | C]].
      + shifted_neighbour l 1 1.
      + shifted_neighbour l 1 0.
      + shifted_neighbour l 1 (-1).
      + shifted_neighbour l 0 1.
      + shifted_neighbour l 0 1.
      + shifted_neighbour l 0 (-1).
      + shifted_neighbour l (-1) 1.
      + shifted_neighbour l (-1) 0.
      + shifted_neighbour l (-1) (-1).
    - destruct (Z_le_gt_dec 2 (rows g)) as [R2 | R2].
      + destruct (Z_le_gt_dec 1 (row l)).
        * shifted_neighbour l (-1) 0.
        * shifted_neighbour l 1 0.
      + destruct (Z_le_gt_dec 1 (col l)).
        * shifted_neighbour l 0 (-1).
        * shifted_neighbour l 0 1. }
  destruct G as (n & [B A] & I). exists n. split.
  - apply neighbours_In. split; [apply is_within_bounds_tests; exact B | exact A].
  - apply indices_In. exact I.
Qed.

(** X23.  In a world built without a tile list whose [rows] and [cols]
    differ by at most one, with both at least 1 when it is centred and
    one of them at least 2 when it is not, every tile has a resolved
    neighbour and [run_step] returns, whatever the types drawn. *)
Theorem World_init_random_step_returns
        (py_hash : Z * Z -> Z) (rows cols : Z) (centered : bool)
        (tile_weights : list (TileType * Z)) (rand : nat -> Q)
        (w : World) (h : Heap) :
  World_init rows cols centered tile_weights None rand = Ok (w, h) ->
  -1 <= rows - cols <= 1 ->
  (if centered then 1 <= rows /\ 1 <= cols else 2 <= rows \/ 2 <= cols) ->
  (forall t, In t (store_refs w) -> tile_neighbours w h t <> []) /\
  exists h', run_step py_hash w h = (h', Ok tt).
Proof.
  intros E D S.
  destruct (World_init_wf _ _ _ _ _ _ w h E) as [Hwf NDk].
  destruct (World_init_random _ _ _ _ _ w h E) as [Hids Hat].
  pose proof (World_init_grid _ _ _ _ _ _ w h E) as Eg.
  assert (Hn : forall t, In t (store_refs w) -> tile_neighbours w h t <> []).
  { intros t Ht En.
    pose proof (stored_tile_at_its_position w h t Hwf NDk Ht) as At.
    assert (Il : In (row (tile_position (h t)), col (tile_position (h t)))
                    (indices (grid w))) by (apply Hat; eauto).
    destruct (indices_have_listed_neighbour (grid w) (tile_position (h t)))
      as (n & Hnb & In_n).
    - rewrite Eg. exact D.
    - rewrite Eg. exact S.
    - exact Il.
    - apply Hat in In_n. destruct In_n as [r Er].
      assert (Hr : In r (tile_neighbours w h t))
        by (apply tile_neighbours_In; exists n; auto).
      rewrite En in Hr. destruct Hr. }
  split; [exact Hn |].
  apply (run_step_returns py_hash w h Hwf Hids Hn).
Qed.

Lemma World_init_random_step_returns_witness :
  exists w h h',
    World_init 2 3 false weights_633 None (fun n => (Z.of_nat n # 6)%Q) = Ok (w, h) /\
    run_step pair_hash w h = (h', Ok tt).
Proof.
  assert (E : exists w h,
             World_init 2 3 false weights_633 None (fun n => (Z.of_nat n # 6)%Q)
             = Ok (w, h)) by (eexists; eexists; reflexivity).
  destruct E as (w & h & E).
  destruct (World_init_random_step_returns pair_hash 2 3 false weights_633
              (fun n => (Z.of_nat n # 6)%Q) w h E) as [_ [h' R]].
  - lia.
  - left. lia.
  - exists w, h, h'. auto.
Defined.

Lemma run_step_divides (py_hash : Z * Z -> Z) (w : World) (h : Heap) (t : ref) :
  In t (store_refs w) -> divides_by_zero w h t ->
  run_step py_hash w h = (h, Raise ZeroDivisionError).
Proof.
  intros Ht D. unfold run_step. fold (store_refs w). rewrite collect_moves_spec.
  destruct (proposals_spec_cases w h (store_refs w))
    as [(ps & _ & T) | (Eps & _)].
  - exfalso. apply (T t Ht D).
  - rewrite Eps. reflexivity.
Qed.

(** X24.  A stored tile that lies two or more rows beyond [cols], or two
    or more columns beyond [rows], has no neighbour: every location
    around it fails [_is_within_bounds].  When such a tile is occupied,
    [run_step] raises [ZeroDivisionError] and changes nothing, whatever
    else the store holds. *)
Theorem run_step_raises_on_far_tile
        (py_hash : Z * Z -> Z) (w : World) (h : Heap) (t : ref) :
  In t (store_refs w) ->
  cols (grid w) + 2 <= row (tile_position (h t)) \/
  rows (grid w) + 2 <= col (tile_position (h t)) ->
  tile_neighbours w h t = [] /\
  (tile_type (h t) <> Empty ->
   run_step py_hash w h = (h, Raise ZeroDivisionError)).
Proof.
  intros Ht Far.
  assert (En : tile_neighbours w h t = []).
  { destruct (tile_neighbours w h t) as [| d ds] eqn:E; [reflexivity |].
    exfalso.
    assert (Hd : In d (tile_neighbours w h t)) by (rewrite E; left; reflexivity).
    apply tile_neighbours_In in Hd. destruct Hd as (loc & Hl & _).
    apply neighbours_In in Hl. destruct Hl as (B & A).
    apply is_within_bounds_tests in B. lia. }
  split; [exact En |].
  intros Nt. apply (run_step_divides py_hash w h t Ht).
  split; [exact Nt | left; exact En].
Qed.

Lemma run_step_raises_on_far_tile_witness :
  let ts := [mk_tile Empty 0 0 0; mk_tile Empty 1 0 1;
             mk_tile Empty 2 0 2; mk_tile Green 3 0 3] in
  let w := fst (world_of 4 1 false ts) in
  let h := snd (world_of 4 1 false ts) in
  In 3%nat (store_refs w) /\
  tile_neighbours w h 3%nat = [] /\
  run_step pair_hash w h = (h, Raise ZeroDivisionError).
Proof.
  intros ts w h.
  assert (Ht : In 3%nat (store_refs w)) by (vm_compute; auto).
  destruct (run_step_raises_on_far_tile pair_hash w h 3%nat Ht) as [En R].
  - left. vm_compute. discriminate.
  - split; [exact Ht |]. split; [exact En |]. apply R. discriminate.
Defined.

(** ** The extreme values of the self-desirability *)

Lemma count_if_zero (f : ref -> bool) (ns : list ref) :
  count_if f ns = 0 <-> forall n, In n ns -> f n = false.
Proof.
  induction ns as [| x ns IH].
  - split; [intros _ n [] | reflexivity].
  - rewrite count_if_cons.
    pose proof (count_if_nonneg f ns) as P.
    split.
    + intros E n [<- | Hn].
      * destruct (f x); [lia | reflexivity].
      * apply IH; [destruct (f x); lia | exact Hn].
    + intros A. rewrite (A x (or_introl eq_refl)).
      rewrite (proj2 IH); [reflexivity |].
      intros n Hn. apply A. right. exact Hn.
Qed.

Lemma Qdiv_eq_iff (a b p : Z) (c : positive) :
  0 < b ->
  (inject_Z a / inject_Z b == p # c)%Q <-> a * Zpos c = p * b.
Proof.
  intros Pb.
  assert (Nb : ~ (inject_Z b == 0)%Q) by (unfold Qeq; simpl; lia).
  split.
  - intros E.
    assert (M : (inject_Z a == (p # c) * inject_Z b)%Q).
    { rewrite <- E. field. exact Nb. }
    unfold Qeq in M. simpl in M. lia.
  - intros E.
    assert (M : (inject_Z a == (p # c) * inject_Z b)%Q)
      by (unfold Qeq; simpl; lia).
    rewrite M. field. exact Nb.
Qed.

#[local] Opaque Z.mul.

(** X25.  The self-desirability of an occupied tile is 1 exactly when
    all its neighbours have its type, -1 exactly when all of them are
    occupied by another type, and 1/2 when all of them are Empty. *)
Theorem self_desirability_extremes (w : World) (h : Heap) (t : ref) (q : Q) :
  tile_type (h t) <> Empty ->
  tile_desirability w h t (tile_type (h t)) true = Ok q ->
  ((q == 1)%Q <->
   forall n, In n (tile_neighbours w h t) -> tile_type (h n) = tile_type (h t)) /\
  ((q == -1)%Q <->
   forall n, In n (tile_neighbours w h t) ->
             tile_type (h n) <> tile_type (h t) /\ tile_type (h n) <> Empty) /\
  ((forall n, In n (tile_neighbours w h t) -> tile_type (h n) = Empty) ->
   (q == 1 # 2)%Q).
Proof.
  intros Nt. unfold tile_desirability.
  rewrite (proj2 (TileType_eqb_neq _ _) Nt). cbn [andb].
  set (ns := tile_neighbours w h t). cbv beta zeta iota.
  destruct (Z.eqb_spec (2 * Z.of_nat (length ns)) 0) as [| N0]; [discriminate |].
  intros Q0. injection Q0 as <-.
  set (ty := tile_type (h t)) in *.
  set (fs := fun t0 => TileType_eqb (tile_type (h t0)) ty).
  set (fe := fun t0 => TileType_eqb (tile_type (h t0)) Empty).
  set (fd := fun t0 => negb (TileType_eqb (tile_type (h t0)) ty) &&
                       negb (TileType_eqb (tile_type (h t0)) Empty)).
  pose proof (counts_occupied h ty ns Nt) as P. fold fs fe fd in P.
  pose proof (count_if_nonneg fs ns) as Ps.
  pose proof (count_if_nonneg fe ns) as Pe.
  pose proof (count_if_nonneg fd ns) as Pd.
  assert (Pn : 0 < 2 * Z.of_nat (length ns)) by lia.
  assert (Ty : forall n, (fs n = true <-> tile_type (h n) = ty) /\
                         (fe n = true <-> tile_type (h n) = Empty))
    by (intros n; split; apply TileType_eqb_eq).
  assert (B : forall b : bool, b = false <-> ~ b = true)
    by (intros []; split; congruence).
  split; [| split].
  - change 1%Q with (1 # 1)%Q. rewrite (Qdiv_eq_iff _ _ 1 1 Pn).
    split.
    + intros E n Hn.
      assert (Ze : count_if fe ns = 0) by lia.
      assert (Zd : count_if fd ns = 0) by lia.
      pose proof (proj1 (count_if_zero fe ns) Ze n Hn) as Fe.
      pose proof (proj1 (count_if_zero fd ns) Zd n Hn) as Fd.
      unfold fe in Fe. unfold fd in Fd. rewrite Fe in Fd.
      rewrite andb_true_r in Fd. apply negb_false_iff in Fd.
      apply TileType_eqb_eq. exact Fd.
    + intros A.
      assert (Ze : count_if fe ns = 0).
      { apply count_if_zero. intros n Hn. unfold fe. rewrite (A n Hn).
        apply TileType_eqb_neq. exact Nt. }
      assert (Zd : count_if fd ns = 0).
      { apply count_if_zero. intros n Hn. unfold fd. rewrite (A n Hn).
        rewrite TileType_eqb_refl. reflexivity. }
      lia.
  - change (-1)%Q with (-1 # 1)%Q. rewrite (Qdiv_eq_iff _ _ (-1) 1 Pn).
    split.
    + intros E n Hn.
      assert (Zs : count_if fs ns = 0) by lia.
      assert (Ze : count_if fe ns = 0) by lia.
      pose proof (proj1 (count_if_zero fs ns) Zs n Hn) as Fs.
      pose proof (proj1 (count_if_zero fe ns) Ze n Hn) as Fe.
      split; apply TileType_eqb_neq; assumption.
    + intros A.
      assert (Zs : count_if fs ns = 0).
      { apply count_if_zero. intros n Hn. apply TileType_eqb_neq.
        apply (A n Hn). }
      assert (Ze : count_if fe ns = 0).
      { apply count_if_zero. intros n Hn. apply TileType_eqb_neq.
        apply (A n Hn). }
      lia.
  - intros A. rewrite (Qdiv_eq_iff _ _ 1 2 Pn).
    assert (Zs : count_if fs ns = 0).
    { apply count_if_zero. intros n Hn. unfold fs. rewrite (A n Hn).
      apply TileType_eqb_neq. congruence. }
    assert (Zd : count_if fd ns = 0).
    { apply count_if_zero. intros n Hn. unfold fd. rewrite (A n Hn).
      rewrite andb_false_r. reflexivity. }
    lia.
Qed.

#[local] Transparent Z.mul.

Lemma self_desirability_extremes_witness :
  let w := fst (world_of 3 3 false tiles_9) in
  let h := snd (world_of 3 3 false tiles_9) in
  exists q, tile_desirability w h 2%nat Blue true = Ok q /\ (q == 1 # 2)%Q.
Proof.
  intros w h. eexists. split; [reflexivity |].
  refine (proj2 (proj2 (self_desirability_extremes w h 2%nat _ _ eq_refl)) _).
  - discriminate.
  - intros n Hn. vm_compute in Hn.
    repeat (destruct Hn as [<- | Hn]; [reflexivity |]). destruct Hn.
Defined.

(** ** The outcomes of [unique_min_des] *)

Lemma filter_two {A : Type} (f : A -> bool) (l : list A) :
  (1 < length (filter f l))%nat ->
  exists pre x mid y post,
    l = pre ++ x :: mid ++ y :: post /\ f x = true /\ f y = true.
Proof.
  intros L.
  destruct (filter f l) as [| x [| y fl]] eqn:E; simpl in L; try lia.
  assert (Hx : In x (filter f l)) by (rewrite E; left; reflexivity).
  apply filter_In in Hx. destruct Hx as [Hx Fx].
  destruct (in_split x l Hx) as (pre & rest & ->).
  rewrite filter_app in E. cbn [filter] in E. rewrite Fx in E.
  destruct (filter f pre) as [| x' fp] eqn:Ep.
  - simpl in E. injection E as E.
    assert (Hy : In y (filter f rest)) by (rewrite E; left; reflexivity).
    apply filter_In in Hy. destruct Hy as [Hy Fy].
    destruct (in_split y rest Hy) as (mid & post & ->).
    exists pre, x, mid, y, post. auto.
  - assert (Hx' : In x' (filter f pre)) by (rewrite Ep; left; reflexivity).
    apply filter_In in Hx'. destruct Hx' as [Hx' Fx'].
    destruct (in_split x' pre Hx') as (p1 & p2 & ->).
    exists p1, x', p2, x, rest. rewrite <- app_assoc. auto.
Qed.

(** X26.  [unique_min_des] raises only on the empty list, and then
    [ValueError].  It returns no tile exactly when two entries of the
    list share the lowest score; a tile it returns is the tile of the
    one entry whose score is strictly below all the others. *)
Theorem unique_min_des_outcomes (c : list (ref * Q)) :
  ((exists e, unique_min_des c = Raise e) <-> c = []) /\
  (forall e, unique_min_des c = Raise e -> e = ValueError) /\
  (unique_min_des c = Ok None <->
   exists pre x mid y post,
     c = pre ++ x :: mid ++ y :: post /\ (snd x == snd y)%Q /\
     forall z, In z c -> (snd x <= snd z)%Q) /\
  (forall u, unique_min_des c = Ok (Some u) ->
             exists s pre post,
               c = pre ++ (u, s) :: post /\
               forall z, In z (pre ++ post) -> (s < snd z)%Q).
Proof.
  split; [| split; [| split]].
  - split.
    + intros [e E]. destruct c as [| x l]; [reflexivity |].
      destruct (unique_min_des_total (x :: l)) as [r Er]; [discriminate |].
      congruence.
    + intros ->. exists ValueError. reflexivity.
  - intros e E. destruct c as [| x l]; [simpl in E; congruence |].
    destruct (unique_min_des_total (x :: l)) as [r Er]; [discriminate |].
    congruence.
  - destruct c as [| x0 l].
    { split; [discriminate |].
      intros (pre & x & mid & y & post & E & _). destruct pre; discriminate. }
    unfold unique_min_des.
    destruct (min_by_snd_least l x0) as [Min Least].
    set (m := min_by_snd x0 l) in *.
    set (f := fun t : ref * Q => Qeq_bool (snd t) (snd m)).
    split.
    + destruct (1 <? length (map fst (filter f (x0 :: l))))%nat eqn:L;
        [| discriminate].
      intros _. apply Nat.ltb_lt in L. rewrite length_map in L.
      destruct (filter_two f (x0 :: l) L) as (pre & x & mid & y & post & E & Fx & Fy).
      exists pre, x, mid, y, post. split; [exact E |].
      unfold f in Fx, Fy. apply Qeq_bool_iff in Fx, Fy.
      split; [rewrite Fx, Fy; reflexivity |].
      intros z Hz. rewrite Fx. apply Least. exact Hz.
    + intros (pre & x & mid & y & post & E & Exy & Low).
      assert (Hx : In x (x0 :: l)) by (rewrite E; apply in_elt).
      assert (Fx : f x = true).
      { unfold f. apply Qeq_bool_iff. apply Qle_antisym.
        - apply Low. exact Min.
        - apply Least. exact Hx. }
      assert (Fy : f y = true).
      { unfold f. apply Qeq_bool_iff. rewrite <- Exy.
        apply Qeq_bool_iff in Fx. exact Fx. }
      assert (L : (1 < length (map fst (filter f (x0 :: l))))%nat).
      { rewrite length_map, E, filter_app. cbn [filter]. rewrite Fx.
        rewrite filter_app. cbn [filter]. rewrite Fy.
        rewrite length_app. cbn [length]. rewrite length_app. cbn [length]. lia. }
      apply Nat.ltb_lt in L. fold f. rewrite L. reflexivity.
  - intros u E. apply unique_min_des_Some in E.
    destruct E as (s & others & P & Low).
    assert (Hu : In (u, s) c).
    { apply (Permutation_in _ (Permutation_sym P)). left. reflexivity. }
    destruct (in_split _ _ Hu) as (pre & post & ->).
    exists s, pre, post. split; [reflexivity |].
    intros z Hz. apply Low.
    apply Permutation_sym, Permutation_cons_app_inv in P.
    apply (Permutation_in _ (Permutation_sym P)). exact Hz.
Qed.

Lemma unique_min_des_outcomes_witness :
  unique_min_des [(0%nat, 1 # 2); (1%nat, 1 # 4); (2%nat, 1 # 4)]%Q = Ok None.
Proof.
  apply (proj1 (proj2 (proj2 (unique_min_des_outcomes _)))).
  exists [(0%nat, 1 # 2)%Q], (1%nat, 1 # 4)%Q, [], (2%nat, 1 # 4)%Q, [].
  split; [reflexivity |]. split; [reflexivity |].
  intros z [<- | [<- | [<- | []]]]; unfold Qle; simpl; lia.
Defined.
